(** * Boolean operations on Bezier paths (paper.js): a shallow embedding

    The development follows [src/path/PathItem.Boolean.js] and
    [src/path/CurveLocation.js].  JavaScript numbers are IEEE-754 binary64
    values and are embedded as Rocq's primitive floats, whose comparisons and
    arithmetic are the same operations.  Winding numbers, which the code only
    ever builds from 0 by adding +1 and -1, are embedded as [Z].  Geometry
    that lives outside these two files (curve evaluation, cubic solving,
    bounds, containment, area) is taken as a [Variable] of the [Section] that
    uses it, so every theorem holds for any implementation of it. *)

From Stdlib Require Import ZArith List Bool Lia PeanoNat.
From Stdlib Require Import Floats.
Import ListNotations.

Set Warnings "-inexact-float".

(** ** Lists as JavaScript arrays *)

(** [arr[i] = f(arr[i])] for an index that is in range; nothing otherwise. *)
Fixpoint alter_nth {A : Type} (f : A -> A) (i : nat) (l : list A) : list A :=
  match l, i with
  | [], _ => []
  | x :: r, O => f x :: r
  | x :: r, S j => x :: alter_nth f j r
  end.

Lemma nth_error_alter_nth {A : Type} (f : A -> A) i j (l : list A) :
  nth_error (alter_nth f i l) j =
  if Nat.eqb i j then option_map f (nth_error l j) else nth_error l j.
Proof.
  revert i j; induction l as [|x r IH]; intros i j.
  - destruct i, j; simpl; try reflexivity. now destruct (Nat.eqb i j).
  - destruct i, j; simpl; try reflexivity. apply IH.
Qed.

Lemma length_alter_nth {A : Type} (f : A -> A) i (l : list A) :
  length (alter_nth f i l) = length l.
Proof.
  revert i; induction l as [|x r IH]; intros [|i]; simpl; auto.
Qed.

Lemma list_sum_alter_nth {A : Type} (f : A -> nat) (g : A -> A) i l :
  list_sum (map f (alter_nth g i l))
  + match nth_error l i with Some x => f x | None => 0 end
  = list_sum (map f l)
    + match nth_error l i with Some x => f (g x) | None => 0 end.
Proof.
  revert i; induction l as [|x r IH]; intros [|i]; simpl; try lia.
  specialize (IH i). lia.
Qed.

(** [array.sort(compare)]: a stable sort, as an insertion sort.  [x] goes
    before the first element [y] with [compare(x, y) < 0], so elements that
    compare equal keep their order.  When [compare] orders the elements
    (the keys are numbers, none of them NaN) every stable sort returns this
    array.  With a NaN among the keys [compare] is no order and what
    [Array.prototype.sort] returns depends on the engine: this definition
    stands for the sort only on keys that are numbers, and the theorems
    over it that speak of every input say so in a hypothesis. *)
Fixpoint insert_by {A : Type} (compare : A -> A -> float) (x : A) (l : list A)
  : list A :=
  match l with
  | [] => [x]
  | y :: r =>
      if (compare x y <? 0)%float then x :: l else y :: insert_by compare x r
  end.

Definition js_sort {A : Type} (compare : A -> A -> float) (l : list A)
  : list A :=
  fold_left (fun acc x => insert_by compare x acc) l [].

Lemma length_insert_by {A : Type} (compare : A -> A -> float) x l :
  length (insert_by compare x l) = S (length l).
Proof.
  induction l as [|y r IH]; simpl; [reflexivity|].
  destruct (compare x y <? 0)%float; simpl; congruence.
Qed.

Lemma length_js_sort {A : Type} (compare : A -> A -> float) l :
  length (js_sort compare l) = length l.
Proof.
  unfold js_sort.
  assert (H : forall acc,
             length (fold_left (fun acc x => insert_by compare x acc) l acc)
             = length l + length acc).
  { induction l as [|x r IH]; intros acc; simpl; [reflexivity|].
    rewrite IH, length_insert_by. lia. }
  rewrite H. simpl. lia.
Qed.

(** ** Numbers *)

(** The value of [undefined] where a number is expected: NaN. *)
Definition to_number (v : option float) : float :=
  match v with
  | Some a => a
  | None => nan
  end.

Lemma is_nan_of_spec z : Prim2SF z = S754_nan -> is_nan z = true.
Proof. intros H. unfold is_nan. now rewrite eqb_spec, H. Qed.

Lemma add_nan_r a : Prim2SF (a + nan) = S754_nan.
Proof.
  rewrite add_spec. change (Prim2SF nan) with S754_nan.
  now destruct (Prim2SF a).
Qed.

Lemma div_nan_l b c : Prim2SF b = S754_nan -> Prim2SF (b / c) = S754_nan.
Proof. intros H. now rewrite div_spec, H. Qed.

(** *** The order of numbers *)

(** Comparing the other way round gives the opposite answer. *)
Lemma SFcompare_antisym x y :
  SFcompare y x = option_map CompOpp (SFcompare x y).
Proof.
  destruct x as [sx|sx| |sx mx ex], y as [sy|sy| |sy my ey]; simpl;
    try reflexivity;
    try (destruct sx; reflexivity); try (destruct sy; reflexivity);
    try (destruct sx, sy; reflexivity).
  destruct sx, sy; simpl; try reflexivity;
    rewrite (Z.compare_antisym ex ey);
    destruct (Z.compare ex ey); simpl; try reflexivity;
    rewrite (Pos.compare_cont_antisym mx my Eq); reflexivity.
Qed.

(** [a < b] excludes [b <= a], and so [b < a] and [a === b]. *)
Lemma ltb_not_leb a b : (a <? b)%float = true -> (b <=? a)%float = false.
Proof.
  rewrite ltb_spec, leb_spec. unfold SFltb, SFleb.
  rewrite (SFcompare_antisym (Prim2SF a) (Prim2SF b)).
  now destruct (SFcompare (Prim2SF a) (Prim2SF b)) as [[| |]|].
Qed.

Lemma ltb_not_ltb a b : (a <? b)%float = true -> (b <? a)%float = false.
Proof.
  rewrite !ltb_spec. unfold SFltb.
  rewrite (SFcompare_antisym (Prim2SF a) (Prim2SF b)).
  now destruct (SFcompare (Prim2SF a) (Prim2SF b)) as [[| |]|].
Qed.

Lemma ltb_irrefl a : (a <? a)%float = false.
Proof.
  destruct (a <? a)%float eqn:H; [|reflexivity].
  now rewrite (ltb_not_ltb a a H) in H.
Qed.

Lemma ltb_not_eqb a b : (a <? b)%float = true -> (a =? b)%float = false.
Proof.
  rewrite ltb_spec, eqb_spec. unfold SFltb, SFeqb.
  now destruct (SFcompare (Prim2SF a) (Prim2SF b)) as [[| |]|].
Qed.

(** [a === b] is symmetric, and a number that equals itself is not NaN. *)
Lemma eqb_sym a b : (a =? b)%float = (b =? a)%float.
Proof.
  rewrite !eqb_spec. unfold SFeqb.
  rewrite (SFcompare_antisym (Prim2SF a) (Prim2SF b)).
  now destruct (SFcompare (Prim2SF a) (Prim2SF b)) as [[| |]|].
Qed.

(** [<] is transitive. *)
Lemma SFcompare_trans x y z :
  SFcompare x y = Some Lt -> SFcompare y z = Some Lt ->
  SFcompare x z = Some Lt.
Proof.
  destruct x as [sx|sx| |sx mx ex], y as [sy|sy| |sy my ey],
           z as [sz|sz| |sz mz ez]; simpl;
    try discriminate; try reflexivity;
    try (destruct sx; simpl; congruence);
    try (destruct sy; simpl; congruence);
    try (destruct sz; simpl; congruence);
    try (destruct sx, sy; simpl; congruence);
    try (destruct sy, sz; simpl; congruence);
    try (destruct sx, sz; simpl; congruence);
    try (destruct sx, sy, sz; simpl; congruence).
  destruct sx, sy, sz; simpl; try congruence;
    destruct (Z.compare_spec ex ey), (Z.compare_spec ey ez),
             (Z.compare_spec ex ez);
    simpl; try congruence; try lia;
    change (Pos.compare_cont Eq) with Pos.compare;
    destruct (Pos.compare_spec mx my), (Pos.compare_spec my mz),
             (Pos.compare_spec mx mz);
    simpl; try congruence; try lia.
Qed.

Lemma ltb_trans x y z :
  (x <? y)%float = true -> (y <? z)%float = true -> (x <? z)%float = true.
Proof.
  rewrite !ltb_spec. unfold SFltb.
  destruct (SFcompare (Prim2SF x) (Prim2SF y)) as [[| |]|] eqn:H1;
    try discriminate.
  destruct (SFcompare (Prim2SF y) (Prim2SF z)) as [[| |]|] eqn:H2;
    try discriminate.
  now rewrite (SFcompare_trans _ _ _ H1 H2).
Qed.

(** Two numbers can be compared unless one of them is NaN, and what can be
    compared with something is not NaN. *)
Lemma SFcompare_none x y :
  SFcompare x y = None -> SFcompare x x = None \/ SFcompare y y = None.
Proof.
  destruct x as [sx|sx| |sx mx ex], y as [sy|sy| |sy my ey]; simpl;
    try discriminate; auto;
    try (destruct sx; discriminate); try (destruct sy; discriminate);
    try (destruct sx, sy; discriminate).
Qed.

Lemma SFcompare_number x y c :
  SFcompare x y = Some c -> SFcompare y y = Some Eq.
Proof.
  destruct x as [sx|sx| |sx mx ex], y as [sy|sy| |sy my ey]; simpl;
    try discriminate; intros _; try reflexivity;
    try (destruct sy; reflexivity);
    destruct sy; rewrite Z.compare_refl, Pos.compare_cont_refl; reflexivity.
Qed.

(** Of two different numbers one is below the other. *)
Lemma ltb_total x y :
  (x =? x)%float = true -> (y =? y)%float = true ->
  (x =? y)%float = false -> (x <? y)%float = negb (y <? x)%float.
Proof.
  rewrite !eqb_spec, !ltb_spec. unfold SFeqb, SFltb.
  intros Hx Hy. rewrite (SFcompare_antisym (Prim2SF x) (Prim2SF y)).
  destruct (SFcompare (Prim2SF x) (Prim2SF y)) as [[| |]|] eqn:H;
    simpl; try congruence.
  apply SFcompare_none in H. destruct H as [H|H]; rewrite H in *; discriminate.
Qed.

(** ** Numerical constants *)

Module Numerical.

(** Modelled from the spec: [Numerical.CURVETIME_EPSILON], whose defining file
    is not under src/; the spec gives the value 1e-8. *)
Definition CURVETIME_EPSILON : float := 1e-8%float.

(** Modelled from the spec: [Numerical.GEOMETRIC_EPSILON], given as 1e-7. *)
Definition GEOMETRIC_EPSILON : float := 1e-7%float.

(** Modelled from the spec: [Numerical.WINDING_EPSILON], given as 1e-9. *)
Definition WINDING_EPSILON : float := 1e-9%float.

End Numerical.

(** ** Points *)

Module Point.
Record t : Type := mk { x : float; y : float }.
End Point.

(** ** CurveLocation.js: the constructor *)

Module CurveLocation.

Section Initialize.

(** Curves and segments are objects of files outside src/; the constructor
    only passes them around and calls the four methods below. *)
Variable Curve : Type.
Variable Segment : Type.
(** [curve.getNext()]: the following curve of the path, or null. *)
Variable getNext : Curve -> option Curve.
(** [curve.getPointAt(parameter, true)]. *)
Variable getPointAt : Curve -> float -> Point.t.
(** [curve._path ? curve._path._version : 0]. *)
Variable pathVersion : Curve -> nat.
Variable segment1 : Curve -> Segment.
Variable segment2 : Curve -> Segment.

(** The fields the constructor and [_setCurve] write.  Locations live in a
    heap (a list); a reference to a location is its index there. *)
Record t : Type := mk {
  _id : nat;
  _version : nat;
  _curve : Curve;
  _segment : option Segment;
  _segment1 : Segment;
  _segment2 : Segment;
  _parameter : float;
  _point : Point.t;
  _distance : option float;
  _overlap : bool;
  _crossing : option bool;
  _intersection : option nat;
  _other : bool
}.

Definition heap : Type := list t.

(** Lines 46-54: intersections very close to the end of a curve are merged
    to the beginning of the next curve. *)
Definition merge_end (curve : Curve) (parameter : float) : Curve * float :=
  if (1 - Numerical.CURVETIME_EPSILON <=? parameter)%float then
    match getNext curve with
    | Some next => (next, 0%float)
    | None => (curve, parameter)
    end
  else (curve, parameter).

(** [_intersection._intersection = this; _intersection._other = true]. *)
Definition link_back (this : nat) (l : t) : t :=
  mk (_id l) (_version l) (_curve l) (_segment l) (_segment1 l) (_segment2 l)
     (_parameter l) (_point l) (_distance l) (_overlap l) (_crossing l)
     (Some this) true.

(** [new CurveLocation(curve, parameter, point, _distance, _overlap,
    _intersection)]: the new object is appended to the heap, and the partner
    location, when given, is pointed back at it. *)
Definition initialize (h : heap) (curve : Curve) (parameter : float)
    (point : option Point.t) (distance : option float) (overlap : bool)
    (intersection : option nat) : heap :=
  let '(curve, parameter) := merge_end curve parameter in
  let this := length h in
  let loc :=
    mk (S this) (pathVersion curve) curve None (segment1 curve) (segment2 curve)
       parameter
       (match point with Some p => p | None => getPointAt curve parameter end)
       distance overlap None intersection false in
  let h := h ++ [loc] in
  match intersection with
  | Some other => alter_nth (link_back this) other h
  | None => h
  end.

(** Linking the partner back never touches the curve or the parameter. *)
Lemma link_back_keeps this l :
  _curve (link_back this l) = _curve l /\
  _parameter (link_back this l) = _parameter l.
Proof. split; reflexivity. Qed.

(** What the constructor stores, as the function of its arguments. *)
Lemma initialize_stores h curve parameter point distance overlap intersection :
  exists loc,
    nth_error (initialize h curve parameter point distance overlap intersection)
              (length h) = Some loc /\
    (_curve loc, _parameter loc) = merge_end curve parameter.
Proof.
  unfold initialize. destruct (merge_end curve parameter) as [c p].
  set (loc := mk _ _ _ _ _ _ _ _ _ _ _ _ _).
  assert (Hl : nth_error (h ++ [loc]) (length h) = Some loc).
  { rewrite nth_error_app2 by lia. now rewrite Nat.sub_diag. }
  destruct intersection as [other|].
  - rewrite nth_error_alter_nth, Hl.
    destruct (Nat.eqb other (length h)).
    + exists (link_back (length h) loc). split; reflexivity.
    + exists loc. split; reflexivity.
  - exists loc. split; [exact Hl | reflexivity].
Qed.

(** C10. A location constructed with a parameter of at least
    [1 - CURVETIME_EPSILON] on a curve that has a next curve is stored on that
    next curve with parameter 0; when there is no next curve, curve and
    parameter are stored as given. *)
Theorem initialize_merges_end_of_curve
    h curve parameter point distance overlap intersection :
  (1 - Numerical.CURVETIME_EPSILON <=? parameter)%float = true ->
  exists loc,
    nth_error (initialize h curve parameter point distance overlap intersection)
              (length h) = Some loc /\
    match getNext curve with
    | Some next => _curve loc = next /\ _parameter loc = 0%float
    | None => _curve loc = curve /\ _parameter loc = parameter
    end.
Proof.
  intros Hend.
  destruct (initialize_stores h curve parameter point distance overlap
              intersection) as [loc [Hin Hcp]].
  exists loc. split; [exact Hin|].
  unfold merge_end in Hcp. rewrite Hend in Hcp.
  destruct (getNext curve); inversion Hcp; split; reflexivity.
Qed.

(** Below the threshold nothing is merged. *)
Lemma initialize_keeps_inner_parameter
    h curve parameter point distance overlap intersection :
  (1 - Numerical.CURVETIME_EPSILON <=? parameter)%float = false ->
  exists loc,
    nth_error (initialize h curve parameter point distance overlap intersection)
              (length h) = Some loc /\
    _curve loc = curve /\ _parameter loc = parameter.
Proof.
  intros Hin.
  destruct (initialize_stores h curve parameter point distance overlap
              intersection) as [loc [Hs Hcp]].
  exists loc. split; [exact Hs|].
  unfold merge_end in Hcp. rewrite Hin in Hcp. inversion Hcp; split; reflexivity.
Qed.

End Initialize.

(** A path of three curves 0, 1, 2 that is not closed: curve 2 has no next. *)
Definition open3_next (c : nat) : option nat :=
  if Nat.ltb c 2 then Some (S c) else None.

Definition origin : Point.t := Point.mk 0 0.

(** An intersection found at the very end of curve 0, and one at the very end
    of the last curve. *)
Lemma initialize_merges_end_of_curve_witness :
  (exists loc,
     nth_error (initialize nat nat open3_next (fun _ _ => origin) (fun _ => 0)
                  (fun c => c) S [] 0 1%float None None false None) 0
       = Some loc /\ _curve _ _ loc = 1 /\ _parameter _ _ loc = 0%float) /\
  (exists loc,
     nth_error (initialize nat nat open3_next (fun _ _ => origin) (fun _ => 0)
                  (fun c => c) S [] 2 1%float None None false None) 0
       = Some loc /\ _curve _ _ loc = 2 /\ _parameter _ _ loc = 1%float).
Proof.
  split.
  - exact (initialize_merges_end_of_curve nat nat open3_next (fun _ _ => origin)
             (fun _ => 0) (fun c => c) S [] 0 1%float None None false None
             eq_refl).
  - exact (initialize_merges_end_of_curve nat nat open3_next (fun _ _ => origin)
             (fun _ => 0) (fun c => c) S [] 2 1%float None None false None
             eq_refl).
Defined.

End CurveLocation.

Arguments CurveLocation._curve {Curve Segment} _.
Arguments CurveLocation._parameter {Curve Segment} _.

(** ** PathItem.Boolean.js: [divideLocations], the walk over the locations *)

Module DivideLocations.

(** Curves are compared by identity ([curve !== prevCurve]): a curve is named
    by its address.  Dividing a curve keeps the object as the left part and
    allocates a new object for the right part. *)
Definition Curve : Type := nat.

(** The two cached fields of a location that the walk reads. *)
Record Location : Type := mkLoc { _curve : Curve; _time : float }.

(** The segment handed to [loc._setSegment], named by where it comes from. *)
Inductive Target : Type :=
| AtSegment1 (curve : Curve)
| AtSegment2 (curve : Curve)
| AtDivision (curve : Curve) (time : float) (newCurve : Curve).

(** One call [loc._setSegment(segment)], with the time that chose it. *)
Record Placement : Type := mkPlacement {
  placed_loc : Location;
  placed_time : float;
  placed_at : Target
}.

Definition tMin : float := Numerical.CURVETIME_EPSILON.
Definition tMax : float := (1 - tMin)%float.

(** The local variables of [divideLocations] that survive an iteration.
    [prev] holds [prevCurve] and [prevTime], which are assigned together;
    [fresh] is the address the next divided-off curve gets. *)
Record State : Type := mkState {
  results : list Location;
  noHandles : bool;
  clearCurves : list Curve;
  prev : option (Curve * float);
  fresh : Curve;
  placements : list Placement
}.

Section Walk.

(** [curve.hasHandles()]. *)
Variable hasHandles : Curve -> bool.
(** The optional argument [include]. *)
Variable include : option (Location -> bool).

Definition included (loc : Location) : bool :=
  match include with
  | Some f => f loc
  | None => true
  end.

(** Lines 1344-1351: the time the location is divided at. *)
Definition scaled_time (prev : option (Curve * float)) (loc : Location) : float :=
  match prev with
  | Some (prevCurve, prevTime) =>
      if negb (Nat.eqb (_curve loc) prevCurve) then _time loc
      else if ((tMin <=? prevTime) && (prevTime <=? tMax))%float
           then (_time loc / prevTime)%float
           else _time loc
  | None => _time loc
  end.

(** Lines 1344-1346: a new curve updates [noHandles]. *)
Definition new_noHandles (st : State) (curve : Curve) : bool :=
  match prev st with
  | Some (prevCurve, _) =>
      if negb (Nat.eqb curve prevCurve) then negb (hasHandles curve)
      else noHandles st
  | None => negb (hasHandles curve)
  end.

(** Lines 1332-1367 and 1386-1387: the body of the loop for one location.
    The linking of intersections (lines 1372-1385) reads and writes only
    [_intersection], [_next] and [_previous], which the walk never reads,
    and is left out. *)
Definition step (st : State) (loc : Location) : State :=
  if negb (included loc) then st
  else
    let results :=
      match include with
      | Some _ => loc :: results st
      | None => results st
      end in
    let curve := _curve loc in
    let origTime := _time loc in
    let nh := new_noHandles st curve in
    let time := scaled_time (prev st) loc in
    if (time <? tMin)%float then
      mkState results nh (clearCurves st) (Some (curve, origTime)) (fresh st)
        (placements st ++ [mkPlacement loc time (AtSegment1 curve)])
    else if (tMax <? time)%float then
      mkState results nh (clearCurves st) (Some (curve, origTime)) (fresh st)
        (placements st ++ [mkPlacement loc time (AtSegment2 curve)])
    else
      let newCurve := fresh st in
      mkState results nh
        (if nh then clearCurves st ++ [curve; newCurve] else clearCurves st)
        (Some (curve, origTime)) (S newCurve)
        (placements st ++ [mkPlacement loc time (AtDivision curve time newCurve)]).

(** [for (var i = locations.length - 1; i >= 0; i--)]. *)
Definition walk (fresh : Curve) (locations : list Location) : State :=
  fold_left step (rev locations) (mkState [] false [] None fresh []).

(** [return results || locations]. *)
Definition divideLocations (fresh : Curve) (locations : list Location)
  : list Location :=
  match include with
  | Some _ => results (walk fresh locations)
  | None => locations
  end.

(** The locations in the order the walk handles them. *)
Definition processed (locations : list Location) : list Location :=
  filter included (rev locations).

(** The times of a run of handled locations, each against the one handled
    just before it: rescaled when the curve is the same and the earlier
    original time lies in [[tMin, tMax]]. *)
Fixpoint guarded_times (before : option Location) (l : list Location)
  : list float :=
  match l with
  | [] => []
  | loc :: r =>
      match before with
      | Some p =>
          if Nat.eqb (_curve loc) (_curve p)
             && ((tMin <=? _time p) && (_time p <=? tMax))%float
          then (_time loc / _time p)%float
          else _time loc
      | None => _time loc
      end :: guarded_times (Some loc) r
  end.

(** The same without the guard: rescaled whenever the curve is the same. *)
Fixpoint unguarded_times (before : option Location) (l : list Location)
  : list float :=
  match l with
  | [] => []
  | loc :: r =>
      match before with
      | Some p =>
          if Nat.eqb (_curve loc) (_curve p)
          then (_time loc / _time p)%float
          else _time loc
      | None => _time loc
      end :: unguarded_times (Some loc) r
  end.

Definition prev_of (l : option Location) : option (Curve * float) :=
  option_map (fun p => (_curve p, _time p)) l.

Lemma scaled_time_guarded before loc :
  scaled_time (prev_of before) loc =
  match before with
  | Some p =>
      if Nat.eqb (_curve loc) (_curve p)
         && ((tMin <=? _time p) && (_time p <=? tMax))%float
      then (_time loc / _time p)%float
      else _time loc
  | None => _time loc
  end.
Proof.
  destruct before as [p|]; simpl; [|reflexivity].
  destruct (Nat.eqb (_curve loc) (_curve p)); simpl; [|reflexivity].
  destruct ((tMin <=? _time p)%float && (_time p <=? tMax)%float); reflexivity.
Qed.

(** A step either skips the location or records exactly one placement and
    remembers the location's curve and original time. *)
Lemma step_included st loc :
  included loc = true ->
  prev (step st loc) = Some (_curve loc, _time loc) /\
  exists target,
    placements (step st loc) =
    placements st ++ [mkPlacement loc (scaled_time (prev st) loc) target].
Proof.
  intros Hin. unfold step. rewrite Hin. simpl.
  destruct (scaled_time (prev st) loc <? tMin)%float; simpl.
  - split; [reflexivity | eexists; reflexivity].
  - destruct (tMax <? scaled_time (prev st) loc)%float; simpl;
      (split; [reflexivity | eexists; reflexivity]).
Qed.

Lemma step_skipped st loc : included loc = false -> step st loc = st.
Proof. intros Hout. unfold step. now rewrite Hout. Qed.

Lemma fold_step_times l : forall st before,
  prev st = prev_of before ->
  map placed_time (placements (fold_left step l st)) =
  map placed_time (placements st) ++ guarded_times before (filter included l).
Proof.
  induction l as [|loc l IH]; intros st before Hprev; simpl.
  - now rewrite app_nil_r.
  - destruct (included loc) eqn:Hin.
    + destruct (step_included st loc Hin) as [Hp [target Hpl]].
      rewrite (IH (step st loc) (Some loc) Hp), Hpl, map_app. simpl.
      rewrite Hprev, scaled_time_guarded, <- app_assoc. reflexivity.
    + rewrite (step_skipped st loc Hin). now apply IH.
Qed.

(** The segment is chosen by the time: the first segment of the curve below
    [tMin], the second above [tMax], and a division of the curve at that
    time in between. *)
Definition decided (pl : Placement) : Prop :=
  match placed_at pl with
  | AtSegment1 curve =>
      curve = _curve (placed_loc pl) /\ (placed_time pl <? tMin)%float = true
  | AtSegment2 curve =>
      curve = _curve (placed_loc pl) /\
      (placed_time pl <? tMin)%float = false /\
      (tMax <? placed_time pl)%float = true
  | AtDivision curve time _ =>
      curve = _curve (placed_loc pl) /\ time = placed_time pl /\
      (placed_time pl <? tMin)%float = false /\
      (tMax <? placed_time pl)%float = false
  end.

Lemma step_decided st loc :
  Forall decided (placements st) -> Forall decided (placements (step st loc)).
Proof.
  intros Hall. unfold step. destruct (negb (included loc)); [exact Hall|].
  destruct (scaled_time (prev st) loc <? tMin)%float eqn:H1; simpl.
  - apply Forall_app. split; [exact Hall|].
    constructor; [|constructor]. split; [reflexivity | exact H1].
  - destruct (tMax <? scaled_time (prev st) loc)%float eqn:H2; simpl;
      (apply Forall_app; split; [exact Hall|]; constructor; [|constructor]);
      repeat split; assumption.
Qed.

Lemma fold_step_decided l : forall st,
  Forall decided (placements st) ->
  Forall decided (placements (fold_left step l st)).
Proof.
  induction l as [|loc l IH]; intros st Hall; simpl; [exact Hall|].
  apply IH. now apply step_decided.
Qed.

Lemma fold_step_locs l : forall st,
  map placed_loc (placements (fold_left step l st)) =
  map placed_loc (placements st) ++ filter included l.
Proof.
  induction l as [|loc l IH]; intros st; simpl.
  - now rewrite app_nil_r.
  - destruct (included loc) eqn:Hin.
    + destruct (step_included st loc Hin) as [_ [target Hpl]].
      rewrite IH, Hpl, map_app, <- app_assoc. reflexivity.
    + rewrite (step_skipped st loc Hin). apply IH.
Qed.

(** C5, as the code has it.  On the back-to-front walk, the time a location
    is divided at is its own time, rescaled to [time / prevTime] exactly when
    its curve is the one of the location handled just before it and that
    location's original time lies in [[tMin, tMax]]; on the first location of
    a curve, and after a location at an end of the curve, it is not rescaled.
    That time then decides where the curve is divided. *)
Theorem walk_rescales_after_inner_split fresh locations :
  map placed_time (placements (walk fresh locations)) =
  guarded_times None (processed locations) /\
  map placed_loc (placements (walk fresh locations)) = processed locations /\
  Forall decided (placements (walk fresh locations)).
Proof.
  unfold walk, processed. repeat split.
  - apply (fold_step_times (rev locations) (mkState [] false [] None fresh [])
             None).
    reflexivity.
  - apply (fold_step_locs (rev locations) (mkState [] false [] None fresh [])).
  - apply fold_step_decided. constructor.
Qed.

(** *** What the walk returns, and which curves it clears *)

Lemma fold_step_results l : forall st,
  results (fold_left step l st) =
  match include with
  | Some _ => rev (filter included l) ++ results st
  | None => results st
  end.
Proof.
  induction l as [|loc l IH]; intros st; cbn [fold_left filter].
  - now destruct include.
  - rewrite IH. unfold step.
    destruct (included loc) eqn:Hin; cbn [negb].
    + destruct include as [f|].
      * assert (Hr : forall st', results st' = loc :: results st ->
                      rev (filter included l) ++ results st'
                      = rev (loc :: filter included l) ++ results st).
        { intros st' ->. cbn [rev]. now rewrite <- app_assoc. }
        destruct (scaled_time (prev st) loc <? tMin)%float;
          [now apply Hr|].
        destruct (tMax <? scaled_time (prev st) loc)%float; now apply Hr.
      * destruct (scaled_time (prev st) loc <? tMin)%float; [reflexivity|].
        destruct (tMax <? scaled_time (prev st) loc)%float; reflexivity.
    + reflexivity.
Qed.

(** X4.  [divideLocations] returns the locations that the filter accepts, in
    the order they have in the array it was given, although it walks that
    array from its end; without a filter it returns them all. *)
Theorem divideLocations_returns_included fresh locations :
  divideLocations fresh locations = filter included locations.
Proof.
  unfold divideLocations, walk. 
  pose proof (fold_step_results (rev locations)
                (mkState [] false [] None fresh [])) as H.
  destruct include as [f|] eqn:Hinc.
  - rewrite H. cbn [results]. rewrite app_nil_r.
    rewrite <- (rev_involutive locations) at 2.
    generalize (rev locations) as l. intros l.
    induction l as [|x l IH]; [reflexivity|].
    cbn [rev filter]. rewrite filter_app. cbn [filter].
    destruct (included x); cbn [rev]; rewrite IH; [reflexivity|].
    now rewrite app_nil_r.
  - clear H. unfold included. rewrite Hinc.
    induction locations as [|x l IH]; [reflexivity|].
    simpl. f_equal. exact IH.
Qed.

(** After a step the cached [noHandles] tells of the curve handled last. *)
Definition handles_known (st : State) : Prop :=
  match prev st with
  | Some (curve, _) => noHandles st = negb (hasHandles curve)
  | None => True
  end.

(** Every curve in [clearCurves] is a half of a division of a curve that had
    no handles. *)
Definition cleared_ok (st : State) : Prop :=
  Forall
    (fun c =>
       exists pl curve time newCurve,
         In pl (placements st) /\
         placed_at pl = AtDivision curve time newCurve /\
         hasHandles curve = false /\
         (c = curve \/ c = newCurve))
    (clearCurves st).

Lemma cleared_ok_more st st' :
  clearCurves st' = clearCurves st ->
  (forall pl, In pl (placements st) -> In pl (placements st')) ->
  cleared_ok st -> cleared_ok st'.
Proof.
  unfold cleared_ok. intros -> Hin Hok.
  eapply Forall_impl; [|exact Hok].
  intros c [pl [curve [time [newCurve [Hpl H]]]]].
  exists pl, curve, time, newCurve. split; [now apply Hin | exact H].
Qed.

Lemma new_noHandles_known st curve :
  handles_known st -> new_noHandles st curve = negb (hasHandles curve).
Proof.
  unfold handles_known, new_noHandles.
  destruct (prev st) as [[prevCurve prevTime]|]; [|reflexivity].
  intros Hk. destruct (Nat.eqb_spec curve prevCurve) as [->|_];
    [exact Hk | reflexivity].
Qed.

Lemma step_cleared st loc :
  handles_known st /\ cleared_ok st ->
  handles_known (step st loc) /\ cleared_ok (step st loc).
Proof.
  intros [Hk Hok]. unfold step.
  destruct (negb (included loc)); [split; assumption|].
  pose proof (new_noHandles_known st (_curve loc) Hk) as Hnh.
  destruct (scaled_time (prev st) loc <? tMin)%float;
    [|destruct (tMax <? scaled_time (prev st) loc)%float].
  - split; [exact Hnh|].
    apply (cleared_ok_more st); [reflexivity| |exact Hok].
    intros pl Hpl. cbn [placements]. apply in_or_app. now left.
  - split; [exact Hnh|].
    apply (cleared_ok_more st); [reflexivity| |exact Hok].
    intros pl Hpl. cbn [placements]. apply in_or_app. now left.
  - split; [exact Hnh|].
    set (pl := mkPlacement loc (scaled_time (prev st) loc)
                 (AtDivision (_curve loc) (scaled_time (prev st) loc)
                    (fresh st))).
    assert (Hold : Forall
              (fun c =>
                 exists pl' curve time newCurve,
                   In pl' (placements st ++ [pl]) /\
                   placed_at pl' = AtDivision curve time newCurve /\
                   hasHandles curve = false /\
                   (c = curve \/ c = newCurve))
              (clearCurves st)).
    { eapply Forall_impl; [|exact Hok].
      intros c [pl' [curve [time [newCurve [Hpl H]]]]].
      exists pl', curve, time, newCurve.
      split; [apply in_or_app; now left | exact H]. }
    unfold cleared_ok. cbn [clearCurves placements]. fold pl.
    destruct (new_noHandles st (_curve loc)) eqn:Hn; [|exact Hold].
    apply Forall_app. split; [exact Hold|].
    assert (Hh : hasHandles (_curve loc) = false).
    { rewrite Hnh in Hn. now destruct (hasHandles (_curve loc)). }
    assert (Hin : In pl (placements st ++ [pl]))
      by (apply in_or_app; right; now left).
    repeat constructor;
      exists pl, (_curve loc), (scaled_time (prev st) loc), (fresh st);
      repeat split; auto.
Qed.

(** X5.  The curves whose handles are cleared when the walk is over are
    only ever the two halves of a division of a curve that had no handles
    when the walk came to it. *)
Theorem walk_clears_only_curves_without_handles fresh locations :
  cleared_ok (walk fresh locations).
Proof.
  unfold walk.
  assert (H : forall l st,
             handles_known st /\ cleared_ok st ->
             handles_known (fold_left step l st)
             /\ cleared_ok (fold_left step l st)).
  { induction l as [|loc l IH]; intros st Hst; [exact Hst|].
    cbn [fold_left]. apply IH. now apply step_cleared. }
  apply H. split; [exact I | constructor].
Qed.

End Walk.

(** Two crossings found at the start point of curve 0 (time 0 both), as when
    two other curves pass through a vertex; and two locations on curve 0 that
    are closer to its start than [CURVETIME_EPSILON], at 2.5e-9 and 5e-9. *)
Definition two_at_start : list Location :=
  [mkLoc 0 0%float; mkLoc 0 0%float].

Definition two_near_start : list Location :=
  [mkLoc 0 2.5e-9%float; mkLoc 0 5e-9%float].

(** In both runs the second location handled is on the curve of the first
    one, and yet its time is not rescaled.  In the first run it stays 0,
    where [0 / 0] is NaN; in the second it stays 2.5e-9 and the location goes
    to the curve's first segment, where rescaling to 2.5e-9 / 5e-9 = 0.5
    would have divided the curve in its middle. *)
Lemma walk_rescale_counterexample :
  placements (walk (fun _ => false) None 1 two_at_start) =
    [ mkPlacement (mkLoc 0 0%float) 0%float (AtSegment1 0);
      mkPlacement (mkLoc 0 0%float) 0%float (AtSegment1 0) ] /\
  unguarded_times None (processed None two_at_start) =
    [ 0%float; nan ] /\
  placements (walk (fun _ => false) None 1 two_near_start) =
    [ mkPlacement (mkLoc 0 5e-9%float) 5e-9%float (AtSegment1 0);
      mkPlacement (mkLoc 0 2.5e-9%float) 2.5e-9%float (AtSegment1 0) ] /\
  unguarded_times None (processed None two_near_start) =
    [ 5e-9%float; 0.5%float ] /\
  (2.5e-9 =? 0.5)%float = false.
Proof. repeat split; vm_compute; reflexivity. Qed.

End DivideLocations.

(** ** PathItem.Boolean.js: [addWinding] and [getWinding] *)

Module Winding.

(** [curve.getValues()]: the eight numbers x0 y0 x1 y1 x2 y2 x3 y3. *)
Record Values : Type := mkValues {
  v0 : float; v1 : float; v2 : float; v3 : float;
  v4 : float; v5 : float; v6 : float; v7 : float
}.

(** [v[i]]. *)
Definition vget (v : Values) (i : nat) : float :=
  match i with
  | 0 => v0 v | 1 => v1 v | 2 => v2 v | 3 => v3 v
  | 4 => v4 v | 5 => v5 v | 6 => v6 v | 7 => v7 v
  | _ => nan
  end.

(** An element of the array [curves].  [previous] lists the values of
    [curve.getPrevious()], of that curve's [getPrevious()], and so on, up to
    the curve itself (closed path) or to null (start of an open path). *)
Record Curve : Type := mkCurve {
  values : Values;
  path : nat;
  clockwise : bool;
  previous : list Values
}.

(** [windings] (left, right) and [isOnCurve[0]], which [addWinding] mutates. *)
Record Tally : Type := mkTally { left : Z; right : Z; onCurve : bool }.

(** The value [getWinding] returns.  [contour] is the number [0] or [1] in
    the source ([!windLeft ^ !windRight]), only ever read as a truth value. *)
Record Result : Type := mkResult { winding : Z; contour : bool }.

(** The variables of [getWinding] that survive an iteration. *)
Record Acc : Type := mkAcc {
  windings : Z * Z;
  pathWindings : Tally;
  onPathWinding : Z
}.

Definition epsilon : float := Numerical.WINDING_EPSILON.

(** [w && (2 - abs(w) % 2)]. *)
Definition mod2map (w : Z) : Z :=
  if (w =? 0)%Z then 0%Z else (2 - Z.abs w mod 2)%Z.

Section RayCast.

(** [Curve.solveCubic(v, coord, val, roots, min, max)]: the roots found. *)
Variable solveCubic : Values -> nat -> float -> float -> float -> list float.
(** [Curve.getPoint(v, t)]. *)
Variable getPoint : Values -> float -> Point.t.
(** [Curve.getMonoCurves(v, coord)]. *)
Variable getMonoCurves : Values -> nat -> list Values.

Open Scope float_scope.

Definition add_left (w : Tally) (d : Z) : Tally :=
  mkTally (left w + d) (right w) (onCurve w).
Definition add_right (w : Tally) (d : Z) : Tally :=
  mkTally (left w) (right w + d) (onCurve w).
Definition set_onCurve (w : Tally) : Tally :=
  mkTally (left w) (right w) true.

(** Lines 1410-1489.  Returns the new [vPrev] and the updated tally. *)
Definition addWinding (v vPrev : Values) (px py : float) (w : Tally)
    (coord : nat) : Values * Tally :=
  let pa := if Nat.eqb coord 0 then px else py in
  let po := if Nat.eqb coord 0 then py else px in
  let vo0 := vget v (1 - coord) in
  let vo3 := vget v (7 - coord) in
  if ((po <? vo0) && (po <? vo3)) || ((vo0 <? po) && (vo3 <? po)) then (v, w)
  else
    let aBefore := pa - epsilon in
    let aAfter := pa + epsilon in
    let va0 := vget v coord in
    let va1 := vget v (2 + coord) in
    let va2 := vget v (4 + coord) in
    let va3 := vget v (6 + coord) in
    if vo0 =? vo3 then
      (vPrev,
       if ((va1 <=? aAfter) && (aBefore <=? va3))
          || ((va3 <=? aAfter) && (aBefore <=? va1))
       then set_onCurve w else w)
    else
      let a :=
        if po =? vo0 then va0
        else if po =? vo3 then va3
        else if ((va0 <? aBefore) && (va1 <? aBefore)
                 && (va2 <? aBefore) && (va3 <? aBefore))
                || ((aAfter <? va0) && (aAfter <? va1)
                    && (aAfter <? va2) && (aAfter <? va3))
        then (va0 + va3) / 2
        else
          match solveCubic v (if Nat.eqb coord 0 then 1 else 0)%nat po 0 1 with
          | [root] =>
              if Nat.eqb coord 0 then Point.x (getPoint v root)
              else Point.y (getPoint v root)
          | _ => (va0 + va3) / 2
          end in
      let winding := if vo3 <? vo0 then 1%Z else (-1)%Z in
      let prevWinding :=
        if vget vPrev (7 - coord) <? vget vPrev (1 - coord)
        then 1%Z else (-1)%Z in
      let prevAEnd := vget vPrev (6 + coord) in
      if negb (po =? vo0) then
        (v,
         if a <? aBefore then add_left w winding
         else if aAfter <? a then add_right w winding
         else add_right (add_left (set_onCurve w) winding) winding)
      else if negb (Z.eqb winding prevWinding) then
        let w := if prevAEnd <=? aAfter then add_left w winding else w in
        (v, if aBefore <=? prevAEnd then add_right w winding else w)
      else if ((prevAEnd <? aBefore) && (aBefore <=? a))
              || ((aAfter <? prevAEnd) && (a <=? aAfter)) then
        (v,
         if prevAEnd <? aBefore then add_right (set_onCurve w) winding
         else if aAfter <? prevAEnd then add_left (set_onCurve w) winding
         else set_onCurve w)
      else (v, w).

(** Lines 1508-1519: on a new path, the values of the last previous curve
    that is not horizontal, or the curve's own values. *)
Definition last_non_horizontal (curve : Curve) (coord : nat) : Values :=
  match
    find (fun v2 => negb (vget v2 (1 - coord) =? vget v2 (7 - coord)))
         (previous curve)
  with
  | Some v2 => v2
  | None => values curve
  end.

(** Lines 1541-1544. *)
Fixpoint add_monoCurves (monoCurves : list Values) (vPrev : Values)
    (px py : float) (w : Tally) (coord : nat) : Values * Tally :=
  match monoCurves with
  | [] => (vPrev, w)
  | m :: rest =>
      let '(vPrev, w) := addWinding m vPrev px py w coord in
      add_monoCurves rest vPrev px py w coord
  end.

Definition same_path (a : option Curve) (curve : Curve) : bool :=
  match a with
  | Some c => Nat.eqb (path c) (path curve)
  | None => false
  end.

(** Lines 1546-1558: what happens after the last curve of a path. *)
Definition end_of_path (curve : Curve) (acc : Acc) : Acc :=
  let pw := pathWindings acc in
  if (left pw =? 0)%Z && (right pw =? 0)%Z && onCurve pw then
    mkAcc (windings acc) (mkTally (left pw) (right pw) false)
          (onPathWinding acc + (if clockwise curve then 1 else -1))%Z
  else
    mkAcc (fst (windings acc) + left pw, snd (windings acc) + right pw)%Z
          (mkTally 0 0 false) (onPathWinding acc).

(** Lines 1504-1559: the loop, with [before] for [curves[i - 1]]. *)
Fixpoint loop (point : Point.t) (coord : nat) (before : option Curve)
    (vPrev : Values) (acc : Acc) (curves : list Curve) : Acc :=
  match curves with
  | [] => acc
  | curve :: rest =>
      let po := if Nat.eqb coord 0 then Point.y point else Point.x point in
      let pa := if Nat.eqb coord 0 then Point.x point else Point.y point in
      let aBefore := pa - epsilon in
      let aAfter := pa + epsilon in
      let vPrev :=
        if same_path before curve then vPrev
        else last_non_horizontal curve coord in
      let v := values curve in
      let vo0 := vget v (1 - coord) in
      let vo1 := vget v (3 - coord) in
      let vo2 := vget v (5 - coord) in
      let vo3 := vget v (7 - coord) in
      let '(vPrev, pw) :=
        if ((po <=? vo0) || (po <=? vo1) || (po <=? vo2) || (po <=? vo3))
           && ((vo0 <=? po) || (vo1 <=? po) || (vo2 <=? po) || (vo3 <=? po))
        then
          let va0 := vget v coord in
          let va1 := vget v (2 + coord) in
          let va2 := vget v (4 + coord) in
          let va3 := vget v (6 + coord) in
          let monoCurves :=
            if ((va0 <? aBefore) && (va1 <? aBefore)
                && (va2 <? aBefore) && (va3 <? aBefore))
               || ((aAfter <? va0) && (aAfter <? va1)
                   && (aAfter <? va2) && (aAfter <? va3))
            then [v]
            else getMonoCurves v coord in
          add_monoCurves monoCurves vPrev (Point.x point) (Point.y point)
            (pathWindings acc) coord
        else (vPrev, pathWindings acc) in
      let acc := mkAcc (windings acc) pw (onPathWinding acc) in
      let acc :=
        match rest with
        | nextCurve :: _ =>
            if Nat.eqb (path nextCurve) (path curve) then acc
            else end_of_path curve acc
        | [] => end_of_path curve acc
        end in
      loop point coord (Some curve) vPrev acc rest
  end.

(** [vPrev] is declared without a value; the first iteration assigns it
    before any use, so the value given here is never read. *)
Definition no_values : Values := mkValues 0 0 0 0 0 0 0 0.

(** The state when the loop ends. *)
Definition accumulate (point : Point.t) (curves : list Curve)
    (horizontal : bool) : Acc :=
  loop point (if horizontal then 1 else 0)%nat None no_values
       (mkAcc (0, 0)%Z (mkTally 0 0 false) 0%Z) curves.

(** Lines 1560-1563. *)
Definition final_windings (acc : Acc) : Z * Z :=
  if (fst (windings acc) =? 0)%Z && (snd (windings acc) =? 0)%Z
  then (onPathWinding acc, onPathWinding acc)
  else windings acc.

(** Lines 1491-1574. *)
Definition getWinding (point : Point.t) (curves : list Curve)
    (horizontal : bool) : Result :=
  let w := final_windings (accumulate point curves horizontal) in
  let windLeft := mod2map (fst w) in
  let windRight := mod2map (snd w) in
  mkResult (Z.max windLeft windRight)
           (xorb (windLeft =? 0)%Z (windRight =? 0)%Z).

Lemma mod2map_zero w : mod2map w = 0%Z <-> w = 0%Z.
Proof.
  unfold mod2map. destruct (Z.eqb_spec w 0) as [->|Hw]; [tauto|].
  pose proof (Z.mod_pos_bound (Z.abs w) 2 eq_refl). lia.
Qed.

Lemma mod2map_eqb_zero w : (mod2map w =? 0)%Z = (w =? 0)%Z.
Proof.
  destruct (Z.eqb_spec w 0) as [->|Hw]; [reflexivity|].
  apply Z.eqb_neq. now rewrite mod2map_zero.
Qed.

(** A nonzero count maps to 1 when it is odd and to 2 when it is even. *)
Lemma mod2map_parity w :
  w <> 0%Z -> mod2map w = if Z.even w then 2%Z else 1%Z.
Proof.
  intros Hw. unfold mod2map. destruct (Z.eqb_spec w 0) as [|_]; [easy|].
  assert (He : Z.even (Z.abs w) = Z.even w).
  { destruct (Z.abs_eq_or_opp w) as [->| ->];
      [reflexivity | apply Z.even_opp]. }
  rewrite <- He, Zeven_mod.
  pose proof (Z.mod_pos_bound (Z.abs w) 2 eq_refl).
  destruct (Z.eqb_spec (Z.abs w mod 2) 0); lia.
Qed.

(** *** The loop, path by path *)

(** Lines 1520-1545: what one curve adds to the tally of its path. *)
Definition curve_tally (point : Point.t) (coord : nat) (curve : Curve)
    (vPrev : Values) (pw : Tally) : Values * Tally :=
  let po := if Nat.eqb coord 0 then Point.y point else Point.x point in
  let pa := if Nat.eqb coord 0 then Point.x point else Point.y point in
  let aBefore := pa - epsilon in
  let aAfter := pa + epsilon in
  let v := values curve in
  let vo0 := vget v (1 - coord) in
  let vo1 := vget v (3 - coord) in
  let vo2 := vget v (5 - coord) in
  let vo3 := vget v (7 - coord) in
  if ((po <=? vo0) || (po <=? vo1) || (po <=? vo2) || (po <=? vo3))
     && ((vo0 <=? po) || (vo1 <=? po) || (vo2 <=? po) || (vo3 <=? po))
  then
    let va0 := vget v coord in
    let va1 := vget v (2 + coord) in
    let va2 := vget v (4 + coord) in
    let va3 := vget v (6 + coord) in
    let monoCurves :=
      if ((va0 <? aBefore) && (va1 <? aBefore)
          && (va2 <? aBefore) && (va3 <? aBefore))
         || ((aAfter <? va0) && (aAfter <? va1)
             && (aAfter <? va2) && (aAfter <? va3))
      then [v]
      else getMonoCurves v coord in
    add_monoCurves monoCurves vPrev (Point.x point) (Point.y point) pw coord
  else (vPrev, pw).

Lemma loop_cons point coord before vPrev acc curve rest :
  loop point coord before vPrev acc (curve :: rest)
  = let vPrev :=
      if same_path before curve then vPrev
      else last_non_horizontal curve coord in
    let '(vPrev, pw) :=
      curve_tally point coord curve vPrev (pathWindings acc) in
    let acc := mkAcc (windings acc) pw (onPathWinding acc) in
    let acc :=
      match rest with
      | nextCurve :: _ =>
          if Nat.eqb (path nextCurve) (path curve) then acc
          else end_of_path curve acc
      | [] => end_of_path curve acc
      end in
    loop point coord (Some curve) vPrev acc rest.
Proof. reflexivity. Qed.

(** The array of curves path by path: the first curve and the further
    curves of every run of curves that follow each other in the array and
    have the same path. *)
Fixpoint runs (curves : list Curve) : list (Curve * list Curve) :=
  match curves with
  | [] => []
  | curve :: rest =>
      match runs rest with
      | (nextCurve, more) :: others =>
          if Nat.eqb (path nextCurve) (path curve)
          then (curve, nextCurve :: more) :: others
          else (curve, []) :: (nextCurve, more) :: others
      | [] => [(curve, [])]
      end
  end.

(** The tally of a run of curves, from the tally [pw]. *)
Fixpoint run_tally (point : Point.t) (coord : nat) (vPrev : Values)
    (pw : Tally) (run : list Curve) : Values * Tally :=
  match run with
  | [] => (vPrev, pw)
  | curve :: rest =>
      let '(vPrev, pw) := curve_tally point coord curve vPrev pw in
      run_tally point coord vPrev pw rest
  end.

(** The tally of one path: its own counts to the left and to the right of
    the point, and whether [addWinding] found the point on one of its
    curves. *)
Definition path_tally (point : Point.t) (coord : nat)
    (run : Curve * list Curve) : Tally :=
  snd (run_tally point coord (last_non_horizontal (fst run) coord)
         (mkTally 0 0 false) (fst run :: snd run)).

(** [curve.getPath().isClockwise() ? 1 : -1] at the last curve of the
    path. *)
Definition path_sign (run : Curve * list Curve) : Z :=
  if clockwise (last (snd run) (fst run)) then 1%Z else (-1)%Z.

(** The test of line 1548: the path has counted nothing on either side,
    and the point was found on it. *)
Definition only_on_path (t : Tally) : bool :=
  (left t =? 0)%Z && (right t =? 0)%Z && onCurve t.

Definition sumZ (l : list Z) : Z := fold_right Z.add 0%Z l.

(** The accumulated counts: the sum of the counts of the paths, those left
    out that have counted nothing while the point was found on them. *)
Definition counted_left (point : Point.t) (coord : nat) (curves : list Curve)
  : Z :=
  sumZ (map (fun run =>
               let t := path_tally point coord run in
               if only_on_path t then 0%Z else left t)
            (runs curves)).

Definition counted_right (point : Point.t) (coord : nat)
    (curves : list Curve) : Z :=
  sumZ (map (fun run =>
               let t := path_tally point coord run in
               if only_on_path t then 0%Z else right t)
            (runs curves)).

(** The on-path winding: the sum of the signs of the paths that have
    counted nothing while the point was found on them. *)
Definition counted_on_path (point : Point.t) (coord : nat)
    (curves : list Curve) : Z :=
  sumZ (map (fun run =>
               if only_on_path (path_tally point coord run)
               then path_sign run else 0%Z)
            (runs curves)).

Lemma last_cons {A : Type} (l : list A) : forall x d,
  last (x :: l) d = last l x.
Proof.
  induction l as [|y l IH]; intros x d; [reflexivity|].
  change (last (x :: y :: l) d) with (last (y :: l) d).
  now rewrite (IH y d), (IH y x).
Qed.

Lemma runs_cons curve rest :
  runs (curve :: rest)
  = match runs rest with
    | (nextCurve, more) :: others =>
        if Nat.eqb (path nextCurve) (path curve)
        then (curve, nextCurve :: more) :: others
        else (curve, []) :: (nextCurve, more) :: others
    | [] => [(curve, [])]
    end.
Proof. reflexivity. Qed.

Lemma runs_head curve rest :
  exists more others, runs (curve :: rest) = (curve, more) :: others.
Proof.
  cbn [runs]. destruct (runs rest) as [|[nextCurve more] others].
  - now exists [], [].
  - destruct (Nat.eqb (path nextCurve) (path curve)); eauto.
Qed.

(** The runs are the array, cut where the path changes. *)
Lemma runs_concat : forall curves,
  concat (map (fun run => fst run :: snd run) (runs curves)) = curves.
Proof.
  induction curves as [|curve rest IH]; [reflexivity|].
  cbn [runs]. destruct (runs rest) as [|[nextCurve more] others].
  - cbn in *. now rewrite <- IH.
  - destruct (Nat.eqb (path nextCurve) (path curve)); cbn in *;
      now rewrite <- IH.
Qed.

Lemma runs_same_path : forall curves,
  Forall (fun run => Forall (fun c => path c = path (fst run)) (snd run))
         (runs curves).
Proof.
  induction curves as [|curve rest IH]; [constructor|].
  cbn [runs]. destruct (runs rest) as [|[nextCurve more] others].
  - repeat constructor.
  - inversion IH as [|? ? Hrun Hothers]; subst. cbn [fst snd] in Hrun.
    destruct (Nat.eqb_spec (path nextCurve) (path curve)) as [Heq|Hne].
    + constructor; [|exact Hothers]. cbn [fst snd].
      constructor; [exact Heq|].
      eapply Forall_impl; [|exact Hrun]. intros c Hc. congruence.
    + repeat constructor; assumption.
Qed.

(** One path, taken up after the last path is closed. *)
Definition add_run (point : Point.t) (coord : nat) (acc : Acc)
    (run : Curve * list Curve) : Acc :=
  end_of_path (last (snd run) (fst run))
    (mkAcc (windings acc)
       (snd (run_tally point coord (last_non_horizontal (fst run) coord)
               (pathWindings acc) (fst run :: snd run)))
       (onPathWinding acc)).

Lemma loop_runs point coord : forall curves before vPrev acc,
  loop point coord before vPrev acc curves
  = match runs curves with
    | [] => acc
    | (first, more) :: others =>
        let vPrev :=
          if same_path before first then vPrev
          else last_non_horizontal first coord in
        fold_left (add_run point coord) others
          (end_of_path (last more first)
             (mkAcc (windings acc)
                (snd (run_tally point coord vPrev (pathWindings acc)
                        (first :: more)))
                (onPathWinding acc)))
    end.
Proof.
  induction curves as [|curve rest IH]; intros before vPrev acc;
    [reflexivity|].
  rewrite loop_cons.
  destruct rest as [|nextCurve rest'].
  - cbn [runs]. cbv zeta. cbn [run_tally fold_left last].
    destruct (curve_tally point coord curve _ (pathWindings acc))
      as [vP1 pw1]. reflexivity.
  - destruct (runs_head nextCurve rest') as [more [others Hruns]].
    rewrite runs_cons, Hruns. cbv zeta.
    destruct (Nat.eqb_spec (path nextCurve) (path curve)) as [Heq|Hne].
    + rewrite last_cons.
      change (run_tally point coord ?v ?w (curve :: nextCurve :: more))
        with (let '(vPrev, pw) := curve_tally point coord curve v w in
              run_tally point coord vPrev pw (nextCurve :: more)).
      destruct (curve_tally point coord curve _ (pathWindings acc))
        as [vP1 pw1].
      rewrite IH, Hruns. cbv zeta. cbn [same_path].
      rewrite <- Heq, Nat.eqb_refl.
      cbn [windings pathWindings onPathWinding]. reflexivity.
    + cbn [run_tally fold_left last].
      destruct (curve_tally point coord curve _ (pathWindings acc))
        as [vP1 pw1].
      rewrite IH, Hruns. cbv zeta. cbn [same_path].
      destruct (Nat.eqb_spec (path curve) (path nextCurve)) as [Heq'|_];
        [congruence|].
      reflexivity.
Qed.

Lemma end_of_path_tally curve acc :
  pathWindings (end_of_path curve acc) = mkTally 0 0 false.
Proof.
  unfold end_of_path.
  destruct ((left (pathWindings acc) =? 0)%Z
            && (right (pathWindings acc) =? 0)%Z
            && onCurve (pathWindings acc)) eqn:H; cbn [pathWindings];
    [|reflexivity].
  apply andb_true_iff in H. destruct H as [H _].
  apply andb_true_iff in H. destruct H as [Hl Hr].
  apply Z.eqb_eq in Hl, Hr. now rewrite Hl, Hr.
Qed.

Lemma sumZ_cons x l : sumZ (x :: l) = (x + sumZ l)%Z.
Proof. reflexivity. Qed.

(** What the paths add up to. *)
Lemma fold_add_run point coord : forall paths acc,
  pathWindings acc = mkTally 0 0 false ->
  let tally := path_tally point coord in
  let final := fold_left (add_run point coord) paths acc in
  fst (windings final)
  = (fst (windings acc)
     + sumZ (map (fun run => if only_on_path (tally run) then 0
                             else left (tally run)) paths))%Z /\
  snd (windings final)
  = (snd (windings acc)
     + sumZ (map (fun run => if only_on_path (tally run) then 0
                             else right (tally run)) paths))%Z /\
  onPathWinding final
  = (onPathWinding acc
     + sumZ (map (fun run => if only_on_path (tally run) then path_sign run
                             else 0) paths))%Z.
Proof.
  cbv zeta. induction paths as [|run paths IH]; intros acc Hpw.
  - cbn. repeat split; lia.
  - cbn [fold_left map]. rewrite !sumZ_cons.
    destruct (IH (add_run point coord acc run)) as [Hl [Hr Ho]].
    { apply end_of_path_tally. }
    rewrite Hl, Hr, Ho. clear IH Hl Hr Ho.
    repeat match goal with
           | |- context [sumZ (map ?f paths)] =>
               generalize (sumZ (map f paths)); intro
           end.
    unfold add_run, end_of_path, path_tally, only_on_path, path_sign.
    rewrite Hpw. cbn [pathWindings windings onPathWinding].
    set (t := snd (run_tally point coord
                     (last_non_horizontal (fst run) coord)
                     (mkTally 0 0 false) (fst run :: snd run))).
    destruct ((left t =? 0)%Z && (right t =? 0)%Z && onCurve t);
      cbn [windings onPathWinding fst snd];
      destruct (clockwise (last (snd run) (fst run)));
      repeat split; lia.
Qed.

(** The loop leaves the sums over the paths. *)
Lemma accumulate_by_paths (point : Point.t) (curves : list Curve)
    (horizontal : bool) :
  let coord := (if horizontal then 1 else 0)%nat in
  let acc := accumulate point curves horizontal in
  windings acc
  = (counted_left point coord curves, counted_right point coord curves) /\
  onPathWinding acc = counted_on_path point coord curves.
Proof.
  cbv zeta. unfold accumulate, counted_left, counted_right, counted_on_path.
  set (coord := (if horizontal then 1 else 0)%nat).
  rewrite loop_runs.
  destruct (runs curves) as [|[first more] others]; [now split|].
  cbv zeta. cbn [same_path pathWindings windings onPathWinding].
  change (fold_left (add_run point coord) others
            (end_of_path (last more first)
               (mkAcc (0, 0)%Z
                  (snd (run_tally point coord
                          (last_non_horizontal first coord)
                          (mkTally 0 0 false) (first :: more)))
                  0%Z)))
    with (fold_left (add_run point coord) ((first, more) :: others)
            (mkAcc (0, 0)%Z (mkTally 0 0 false) 0%Z)).
  destruct (fold_add_run point coord ((first, more) :: others)
              (mkAcc (0, 0)%Z (mkTally 0 0 false) 0%Z) eq_refl)
    as [Hl [Hr Ho]].
  cbn [windings onPathWinding fst snd] in Hl, Hr, Ho.
  rewrite Z.add_0_l in Hl, Hr, Ho.
  split; [|exact Ho].
  rewrite <- Hl, <- Hr. now destruct (windings _).
Qed.

(** C1, as the code has it.  The array of curves is taken path by path.  A
    path that has counted nothing to the left and nothing to the right of
    the point, while [addWinding] found the point on one of its curves, adds
    its sign (1 when it runs clockwise, -1 otherwise) to the on-path
    winding; every other path adds its counts to the accumulated counts.
    The winding returned is the larger of the two mapped accumulated
    counts, unless both are zero: then it is the mapped on-path winding.
    The contour flag is set exactly when one of the two accumulated counts
    is zero and the other is not. *)
Theorem getWinding_maps_final_windings (point : Point.t)
    (curves : list Curve) (horizontal : bool) :
  let coord := (if horizontal then 1 else 0)%nat in
  let l := counted_left point coord curves in
  let rt := counted_right point coord curves in
  let r := getWinding point curves horizontal in
  concat (map (fun run => fst run :: snd run) (runs curves)) = curves /\
  winding r =
    (if (l =? 0)%Z && (rt =? 0)%Z
     then mod2map (counted_on_path point coord curves)
     else Z.max (mod2map l) (mod2map rt)) /\
  (contour r = true <->
   (l = 0%Z /\ rt <> 0%Z) \/ (l <> 0%Z /\ rt = 0%Z)) /\
  (mod2map 0, mod2map 1, mod2map 2, mod2map 3, mod2map 4)
    = (0, 1, 2, 1, 2)%Z.
Proof.
  cbv zeta. split; [apply runs_concat|].
  destruct (accumulate_by_paths point curves horizontal) as [Hw Ho].
  cbv zeta in Hw, Ho.
  unfold getWinding, final_windings. rewrite Hw, Ho.
  set (l := counted_left point _ curves).
  set (rt := counted_right point _ curves).
  simpl fst; simpl snd.
  split; [|split; [|reflexivity]].
  - destruct ((l =? 0)%Z && (rt =? 0)%Z); simpl; [apply Z.max_id | reflexivity].
  - destruct (Z.eqb_spec l 0) as [->|Hl], (Z.eqb_spec rt 0) as [->|Hr]; simpl.
    + rewrite xorb_nilpotent. split; [discriminate | lia].
    + rewrite mod2map_eqb_zero. destruct (Z.eqb_spec rt 0); [lia|].
      split; [intros _; left; now split | reflexivity].
    + rewrite mod2map_eqb_zero. destruct (Z.eqb_spec l 0); [lia|].
      split; [intros _; right; now split | reflexivity].
    + rewrite !mod2map_eqb_zero.
      destruct (Z.eqb_spec l 0), (Z.eqb_spec rt 0); try lia.
      split; [discriminate | lia].
Qed.

(** *** What the ray cast can return *)

Lemma mod2map_range w : (0 <= mod2map w <= 2)%Z.
Proof.
  unfold mod2map. destruct (Z.eqb_spec w 0); [lia|].
  pose proof (Z.mod_pos_bound (Z.abs w) 2 eq_refl). lia.
Qed.

Lemma mod2map_positive w : w <> 0%Z -> (1 <= mod2map w)%Z.
Proof.
  intros Hw. pose proof (mod2map_range w).
  assert (mod2map w <> 0%Z) by (now rewrite mod2map_zero). lia.
Qed.

(** X1.  The winding [getWinding] returns is always 0, 1 or 2, the keys of
    the operator tables, whatever counts the ray has accumulated; and a point
    reported as on the contour never has the winding 0. *)
Theorem getWinding_in_operator_range point curves horizontal :
  let r := getWinding point curves horizontal in
  (winding r = 0 \/ winding r = 1 \/ winding r = 2)%Z /\
  (contour r = true -> winding r <> 0%Z).
Proof.
  cbv zeta. unfold getWinding.
  set (w := final_windings (accumulate point curves horizontal)).
  simpl winding. simpl contour.
  pose proof (mod2map_range (fst w)) as Hl.
  pose proof (mod2map_range (snd w)) as Hr.
  split; [lia|].
  intros Hc.
  destruct (Z.eqb_spec (mod2map (fst w)) 0) as [El|Nl],
           (Z.eqb_spec (mod2map (snd w)) 0) as [Er|Nr];
    simpl in Hc; try discriminate; lia.
Qed.

(** *** A ray that passes above or below every curve *)

(** All four control points of the curve lie strictly on one side of the
    ordinate [po] of the ray. *)
Definition ordinates_below (po : float) (v : Values) (coord : nat) : bool :=
  (vget v (1 - coord) <? po) && (vget v (3 - coord) <? po)
  && (vget v (5 - coord) <? po) && (vget v (7 - coord) <? po).

Definition ordinates_above (po : float) (v : Values) (coord : nat) : bool :=
  (po <? vget v (1 - coord)) && (po <? vget v (3 - coord))
  && (po <? vget v (5 - coord)) && (po <? vget v (7 - coord)).

Definition no_winding : Acc := mkAcc (0, 0)%Z (mkTally 0 0 false) 0%Z.

Lemma end_of_path_no_winding curve : end_of_path curve no_winding = no_winding.
Proof. reflexivity. Qed.

Lemma loop_off_ray point coord curves : forall before vPrev,
  let po := if Nat.eqb coord 0 then Point.y point else Point.x point in
  Forall (fun c => ordinates_below po (values c) coord
                   || ordinates_above po (values c) coord = true) curves ->
  loop point coord before vPrev no_winding curves = no_winding.
Proof.
  cbv zeta.
  induction curves as [|curve rest IH]; intros before vPrev Hall;
    [reflexivity|].
  inversion Hall as [|? ? Hoff Hrest]; subst.
  cbn [loop].
  set (po := if Nat.eqb coord 0 then Point.y point else Point.x point) in *.
  assert (Hskip :
    ((po <=? vget (values curve) (1 - coord))
     || (po <=? vget (values curve) (3 - coord))
     || (po <=? vget (values curve) (5 - coord))
     || (po <=? vget (values curve) (7 - coord)))
    && ((vget (values curve) (1 - coord) <=? po)
        || (vget (values curve) (3 - coord) <=? po)
        || (vget (values curve) (5 - coord) <=? po)
        || (vget (values curve) (7 - coord) <=? po)) = false).
  { apply orb_true_iff in Hoff. destruct Hoff as [Hb|Ha].
    - unfold ordinates_below in Hb.
      repeat (apply andb_true_iff in Hb; destruct Hb as [Hb ?]).
      now rewrite !(ltb_not_leb _ po) by assumption.
    - unfold ordinates_above in Ha.
      repeat (apply andb_true_iff in Ha; destruct Ha as [Ha ?]).
      rewrite !(ltb_not_leb po) by assumption. apply andb_false_r. }
  cbv zeta. rewrite Hskip.
  change (mkAcc (windings no_winding) (pathWindings no_winding)
            (onPathWinding no_winding)) with no_winding.
  destruct rest as [|nextCurve rest'].
  - reflexivity.
  - destruct (Nat.eqb (path nextCurve) (path curve));
      [|rewrite end_of_path_no_winding]; now apply IH.
Qed.

(** X2.  A point whose ray passes strictly above or strictly below all four
    control points of every curve has the winding 0 and is not on a
    contour: no curve is looked at any closer. *)
Theorem getWinding_off_ray (point : Point.t) (curves : list Curve)
    (horizontal : bool) :
  let coord := (if horizontal then 1 else 0)%nat in
  let po := if horizontal then Point.x point else Point.y point in
  Forall (fun c => ordinates_below po (values c) coord
                   || ordinates_above po (values c) coord = true) curves ->
  getWinding point curves horizontal = mkResult 0 false.
Proof.
  cbv zeta. intros Hall. unfold getWinding, accumulate.
  assert (Hloop : loop point (if horizontal then 1 else 0)%nat None no_values
                    no_winding curves = no_winding).
  { apply loop_off_ray. destruct horizontal; exact Hall. }
  unfold no_winding in Hloop. rewrite Hloop. reflexivity.
Qed.

(** *** How far one curve moves the counts *)

Lemma addWinding_step v vPrev px py w coord :
  let w' := snd (addWinding v vPrev px py w coord) in
  (Z.abs (left w' - left w) <= 1)%Z /\
  (Z.abs (right w' - right w) <= 1)%Z /\
  (onCurve w = true -> onCurve w' = true).
Proof.
  cbv zeta. unfold addWinding. cbv zeta.
  repeat match goal with
         | |- context [if ?c then _ else _] => destruct c
         end;
    cbn [snd left right onCurve add_left add_right set_onCurve];
    repeat split; try lia; auto.
Qed.

(** X3.  The monotone pieces of a curve move each of the two counts by at
    most one per piece, and never take back the mark that the point lies on
    a curve. *)
Theorem add_monoCurves_counts_bounded monoCurves :
  forall vPrev px py w coord,
    let w' := snd (add_monoCurves monoCurves vPrev px py w coord) in
    (Z.abs (left w' - left w) <= Z.of_nat (length monoCurves))%Z /\
    (Z.abs (right w' - right w) <= Z.of_nat (length monoCurves))%Z /\
    (onCurve w = true -> onCurve w' = true).
Proof.
  cbv zeta.
  induction monoCurves as [|m rest IH]; intros vPrev px py w coord.
  - simpl. repeat split; try lia. auto.
  - cbn [add_monoCurves].
    pose proof (addWinding_step m vPrev px py w coord) as Hstep.
    cbv zeta in Hstep.
    destruct (addWinding m vPrev px py w coord) as [vPrev1 w1].
    simpl snd in Hstep. destruct Hstep as [Hl [Hr Ho]].
    destruct (IH vPrev1 px py w1 coord) as [Hl' [Hr' Ho']].
    cbn [length]. rewrite Nat2Z.inj_succ.
    repeat split; try lia. auto.
Qed.

End RayCast.

(** *** A square, and a point on its outline *)

(** The values of a straight curve from [(ax, ay)] to [(bx, by)]: both
    handles are zero, so the control points are the end points. *)
Definition line (ax ay bx by_ : float) : Values :=
  mkValues ax ay ax ay bx by_ bx by_.

Definition previous_of (vals : list Values) (closed : bool) (i : nat)
  : list Values :=
  rev (firstn i vals) ++ (if closed then rev (skipn (S i) vals) else []).

(** [path.getCurves()] for a path given by the values of its curves. *)
Definition Path_getCurves (id : nat) (cw closed : bool) (vals : list Values)
  : list Curve :=
  map (fun i => mkCurve (nth i vals no_values) id cw (previous_of vals closed i))
      (seq 0 (length vals)).

(** The closed square (0,0) (10,0) (10,10) (0,10) of four straight curves. *)
Definition square : list Curve :=
  Path_getCurves 0 true true
    [ line 0 0 10 0; line 10 0 10 10; line 10 10 0 10; line 0 10 0 0 ].

(** Modelled from the spec: [Curve.getMonoCurves] on a straight curve, which
    the spec says is emitted unsplit (section 4.1).  Curve.js is not under
    src/. *)
Definition straight_getMonoCurves (v : Values) (coord : nat) : list Values :=
  [v].

(** On this input no cubic is solved: the two solver arguments are never
    called, whatever they are. *)
Lemma square_top_edge_any_solver solveCubic getPoint :
  accumulate solveCubic getPoint straight_getMonoCurves
    (Point.mk 5 0) square false
  = mkAcc (0, 0)%Z (mkTally 0 0 false) 1%Z.
Proof. vm_compute. reflexivity. Qed.

(** The middle of the square's top edge, as [contains] asks for it
    ([horizontal = false]).  The ray runs along the edge; the crossings at
    the two ends of the edge cancel, so both accumulated counts are 0, and
    the winding returned is 1, not the 0 that mapping the two counts gives. *)
Lemma getWinding_on_outline_counterexample :
  windings (accumulate (fun _ _ _ _ _ => []) (fun _ _ => Point.mk 0 0)
              straight_getMonoCurves (Point.mk 5 0) square false)
    = (0, 0)%Z /\
  getWinding (fun _ _ _ _ _ => []) (fun _ _ => Point.mk 0 0)
    straight_getMonoCurves (Point.mk 5 0) square false
    = mkResult 1 false /\
  Z.max (mod2map 0) (mod2map 0) = 0%Z.
Proof. repeat split; vm_compute; reflexivity. Qed.

(** An open path of one straight curve, from (20,10) down to (20,0). *)
Definition stroke : list Curve :=
  Path_getCurves 1 false false [ line 20 10 20 0 ].

(** Being on the outline of a path is not enough for the on-path winding.
    The point (10,5) lies on the right edge of the square, and [addWinding]
    finds it there; but the square has counted a crossing to the right, so
    its counts are taken and its sign is not.  The stroke cancels that
    count: both accumulated counts are 0, the on-path winding is 0 too, and
    the winding returned is 0. *)
Example on_outline_with_a_count :
  map (path_tally (fun _ _ _ _ _ => []) (fun _ _ => Point.mk 0 0)
         straight_getMonoCurves (Point.mk 10 5) 0)
      (runs (square ++ stroke))
  = [ mkTally 0 (-1) true; mkTally 0 1 false ] /\
  accumulate (fun _ _ _ _ _ => []) (fun _ _ => Point.mk 0 0)
    straight_getMonoCurves (Point.mk 10 5) (square ++ stroke) false
  = mkAcc (0, 0)%Z (mkTally 0 0 false) 0%Z /\
  getWinding (fun _ _ _ _ _ => []) (fun _ _ => Point.mk 0 0)
    straight_getMonoCurves (Point.mk 10 5) (square ++ stroke) false
  = mkResult 0 false.
Proof. repeat split; vm_compute; reflexivity. Qed.

(** X2 on the square: the ray through (5,-5) passes above all of it. *)
Lemma getWinding_off_ray_witness :
  getWinding (fun _ _ _ _ _ => []) (fun _ _ => Point.mk 0 0)
    straight_getMonoCurves (Point.mk 5 (-5)) square false
  = mkResult 0 false.
Proof.
  apply (getWinding_off_ray (fun _ _ _ _ _ => []) (fun _ _ => Point.mk 0 0)
           straight_getMonoCurves (Point.mk 5 (-5)) square false).
  repeat (constructor; [vm_compute; reflexivity|]). constructor.
Defined.

End Winding.

(** ** PathItem.Boolean.js: [Path#getInteriorPoint] *)

Module InteriorPoint.

Import Winding.

(** An entry of the local array [monoCurves]. *)
Record MonoCurve : Type := mkMono { mono_values : Values; mono_winding : Z }.

(** [intercepts.sort(function(a, b) { return a - b; })]. *)
Definition sort_numbers (l : list float) : list float :=
  js_sort (fun a b => (a - b)%float) l.

Lemma length_sort_numbers l : length (sort_numbers l) = length l.
Proof. apply length_js_sort. Qed.

Section GetInteriorPoint.

(** [this.contains(point)]. *)
Variable contains : Point.t -> bool.
Variable solveCubic : Values -> nat -> float -> float -> float -> list float.
Variable getPoint : Values -> float -> Point.t.
Variable getMonoCurves : Values -> nat -> list Values.

Open Scope float_scope.

(** Lines 2094-2100: a monotone piece the ray at [y] meets, unless it is
    horizontal. *)
Definition mono_entry (y : float) (v : Values) : list MonoCurve :=
  if ((vget v 1 <=? y) && (y <=? vget v 7))
     || ((vget v 7 <=? y) && (y <=? vget v 1)) then
    let winding :=
      if vget v 7 <? vget v 1 then 1%Z
      else if vget v 1 <? vget v 7 then (-1)%Z else 0%Z in
    if (winding =? 0)%Z then [] else [mkMono v winding]
  else [].

(** Lines 2087-2103.  The variable [windingPrev] is written there and read
    nowhere. *)
Definition ray_monoCurves (y : float) (curves : list Values)
  : list MonoCurve :=
  flat_map
    (fun v =>
       if ((vget v 1 <=? y) || (vget v 3 <=? y)
           || (vget v 5 <=? y) || (vget v 7 <=? y))
          && ((y <=? vget v 1) || (y <=? vget v 3)
              || (y <=? vget v 5) || (y <=? vget v 7))
       then flat_map (mono_entry y) (getMonoCurves v 0)
       else [])
    curves.

(** Lines 2108-2116. *)
Definition intercept (y : float) (m : MonoCurve) : float :=
  let v := mono_values m in
  if y =? vget v 1 then vget v 0
  else if y =? vget v 7 then vget v 6
  else
    match solveCubic v 1 y 0 1 with
    | [root] => Point.x (getPoint v root)
    | _ => (vget v 0 + vget v 6) / 2
    end.

Definition ray_intercepts (y : float) (curves : list Values) : list float :=
  sort_numbers (map (intercept y) (ray_monoCurves y curves)).

(** Lines 2072-2125.  [center] is [this.getBounds().getCenter(true)] and
    [curves] the values of [this.getCurves()]. *)
Definition getInteriorPoint (center : Point.t) (curves : list Values)
  : Point.t :=
  if negb (contains center) then
    let y := Point.y center in
    match ray_monoCurves y curves with
    | [] => center
    | _ :: _ =>
        let intercepts := ray_intercepts y curves in
        Point.mk
          ((to_number (nth_error intercepts 0)
            + to_number (nth_error intercepts 1)) / 2)
          y
    end
  else center.

(** A center the path contains is returned as it is. *)
Lemma getInteriorPoint_center_inside center curves :
  contains center = true -> getInteriorPoint center curves = center.
Proof. intros H. unfold getInteriorPoint. now rewrite H. Qed.

(** No monotone curve met: the center is returned. *)
Lemma getInteriorPoint_no_intercept center curves :
  ray_monoCurves (Point.y center) curves = [] ->
  getInteriorPoint center curves = center.
Proof.
  intros H. unfold getInteriorPoint. rewrite H. now destruct (contains center).
Qed.

(** Two or more met: the abscissa is the middle of the two smallest
    intercepts, the ordinate stays on the ray. *)
Lemma getInteriorPoint_two_intercepts center curves m1 m2 rest :
  contains center = false ->
  ray_monoCurves (Point.y center) curves = m1 :: m2 :: rest ->
  exists a b more,
    ray_intercepts (Point.y center) curves = a :: b :: more /\
    getInteriorPoint center curves = Point.mk ((a + b) / 2) (Point.y center).
Proof.
  intros Hout Hm. unfold getInteriorPoint. rewrite Hout, Hm. simpl negb.
  pose proof (length_sort_numbers
                (map (intercept (Point.y center))
                     (ray_monoCurves (Point.y center) curves))) as Hlen.
  fold (ray_intercepts (Point.y center) curves) in Hlen.
  rewrite Hm in Hlen. simpl in Hlen.
  destruct (ray_intercepts (Point.y center) curves) as [|a [|b more]];
    try discriminate.
  exists a, b, more. split; reflexivity.
Qed.

(** C9, where the code leaves the claim.  When the path does not contain the
    center of its bounds and the ray meets exactly one monotone curve, the
    second intercept is undefined: the point returned has NaN as its
    abscissa, and is not the center. *)
Theorem getInteriorPoint_one_intercept_is_nan center curves m :
  contains center = false ->
  ray_monoCurves (Point.y center) curves = [m] ->
  is_nan (Point.x (getInteriorPoint center curves)) = true /\
  Point.y (getInteriorPoint center curves) = Point.y center.
Proof.
  intros Hout Hm. unfold getInteriorPoint, ray_intercepts.
  rewrite Hout, Hm. simpl. split; [|reflexivity].
  apply is_nan_of_spec, div_nan_l, add_nan_r.
Qed.

End GetInteriorPoint.

(** *** A path that is one unit in the last place high *)

(** An open path (0,1) (1,t) (10,t), where [t] is the number that follows 1:
    a curve that rises by one unit in the last place, then a horizontal
    one. *)
Definition sliver_top : float := next_up 1.

Definition sliver : list Values :=
  [ line 0 1 1 sliver_top; line 1 sliver_top 10 sliver_top ].

(** The center of its bounds (0, 1, 10, t - 1), as [Rectangle#getCenter]
    computes it: [x + width * 0.5] and [y + height * 0.5].  The ordinate
    rounds to 1. *)
Definition sliver_center : Point.t :=
  Point.mk (0 + 10 * 0.5) (1 + (sliver_top - 1) * 0.5).

(** [Path#_getWinding(point)] (line 1830) on a path of straight curves. *)
Definition _getWinding (curves : list Values) (point : Point.t) : Z :=
  winding (getWinding (fun _ _ _ _ _ => []) (fun _ _ => Point.mk 0 0)
             straight_getMonoCurves point
             (Path_getCurves 0 true false curves) false).

(** Containment as the winding of the point decides it. *)
Definition has_winding (curves : list Values) (point : Point.t) : bool :=
  negb (_getWinding curves point =? 0)%Z.

(** The ray through the center meets the first curve at its start point and
    nothing else; the ray cast counts no crossing there, so the center has
    winding 0 and is not contained. *)
Lemma sliver_center_outside :
  sliver_center = Point.mk 5 1 /\
  _getWinding sliver sliver_center = 0%Z /\
  ray_monoCurves straight_getMonoCurves 1 sliver
    = [mkMono (line 0 1 1 sliver_top) (-1)].
Proof. repeat split; vm_compute; reflexivity. Qed.

(** C9 on that path: the point returned is (NaN, 1), not the center. *)
Lemma getInteriorPoint_one_intercept_witness :
  is_nan (Point.x (getInteriorPoint (has_winding sliver) (fun _ _ _ _ _ => [])
                     (fun _ _ => Point.mk 0 0) straight_getMonoCurves
                     sliver_center sliver)) = true /\
  Point.y (getInteriorPoint (has_winding sliver) (fun _ _ _ _ _ => [])
             (fun _ _ => Point.mk 0 0) straight_getMonoCurves
             sliver_center sliver) = Point.y sliver_center.
Proof.
  apply (getInteriorPoint_one_intercept_is_nan (has_winding sliver)
           (fun _ _ _ _ _ => []) (fun _ _ => Point.mk 0 0)
           straight_getMonoCurves sliver_center sliver
           (mkMono (line 0 1 1 sliver_top) (-1)));
    vm_compute; reflexivity.
Defined.

End InteriorPoint.

(** ** PathItem.Boolean.js: fixing the orientation of nested paths *)

Module Reorient.

(** A child path, as far as orientation goes.  [shape] names the geometry:
    reversing a path changes [clockwise] and nothing else, and neither
    [getInteriorPoint] nor [contains] reads the direction of a path. *)
Record Child : Type := mkChild {
  shape : nat;
  boundsArea : float;
  clockwise : bool
}.

(** [path.setClockwise(value)]. *)
Definition setClockwise (c : Child) (value : bool) : Child :=
  mkChild (shape c) (boundsArea c) value.

(** [function(a, b) { return b.getBounds().getArea() - a.getBounds().getArea(); }] *)
Definition by_area_descending (a b : Child) : float :=
  (boundsArea b - boundsArea a)%float.

(** What the spec asks for under the even-odd rule, in its own words:
    [clockwise(P) := (depth even) == clockwise(largest)]. *)
Definition spec_clockwise (depth : nat) (largest_clockwise : bool) : bool :=
  Bool.eqb (Nat.even depth) largest_clockwise.

(** The areas of the bounds are numbers: none of them is NaN. *)
Definition areas_are_numbers (paths : list Child) : Prop :=
  Forall (fun c => is_nan (boundsArea c) = false) paths.

(** The comparator orders the paths by their areas: [b - a] is negative
    exactly when the area of [b] is below the area of [a], as it is for the
    subtraction of numbers. *)
Definition differences_order (paths : list Child) : Prop :=
  forall a b, In a paths -> In b paths ->
    (by_area_descending a b <? 0)%float
    = (boundsArea b <? boundsArea a)%float.

(** No path of the list goes before one that stands before it. *)
Fixpoint in_order (l : list Child) : Prop :=
  match l with
  | [] => True
  | x :: r =>
      Forall (fun y => (by_area_descending y x <? 0)%float = false) r /\
      in_order r
  end.

Lemma insert_by_In (x y : Child) : forall l,
  In y (insert_by by_area_descending x l) <-> y = x \/ In y l.
Proof.
  induction l as [|z l IH]; cbn [insert_by].
  - cbn. intuition congruence.
  - destruct (by_area_descending x z <? 0)%float; cbn [In].
    + intuition congruence.
    + rewrite IH. intuition congruence.
Qed.

Lemma js_sort_In (y : Child) l :
  In y (js_sort by_area_descending l) <-> In y l.
Proof.
  unfold js_sort.
  assert (H : forall acc,
             In y (fold_left (fun acc x => insert_by by_area_descending x acc)
                     l acc)
             <-> In y acc \/ In y l).
  { induction l as [|x l IH]; intros acc; cbn [fold_left In]; [tauto|].
    rewrite IH, insert_by_In. intuition congruence. }
  rewrite H. cbn. tauto.
Qed.

Lemma in_order_app l : forall x,
  in_order l ->
  Forall (fun y => (by_area_descending x y <? 0)%float = false) l ->
  in_order (l ++ [x]).
Proof.
  induction l as [|z l IH]; intros x Ho Hx; cbn [app in_order].
  - split; constructor.
  - destruct Ho as [Hz Ho]. inversion Hx as [|? ? Hxz Hxl]; subst. split.
    + apply Forall_app. split; [exact Hz|]. constructor; [exact Hxz|constructor].
    + now apply IH.
Qed.

(** Inserting keeps the order, where the comparator orders by the areas. *)
Lemma insert_by_in_order x : forall l,
  differences_order (x :: l) ->
  in_order l -> in_order (insert_by by_area_descending x l).
Proof.
  induction l as [|z l IH]; intros Hd Ho; cbn [insert_by].
  - cbn. split; constructor.
  - destruct Ho as [Hz Ho].
    destruct (by_area_descending x z <? 0)%float eqn:Hxz.
    + cbn [in_order]. split; [|split; assumption].
      assert (Hlt : (boundsArea z <? boundsArea x)%float = true).
      { rewrite <- (Hd x z); [exact Hxz | now left | right; now left]. }
      constructor.
      * rewrite (Hd z x); [|right; now left|now left].
        now apply ltb_not_ltb.
      * rewrite Forall_forall in Hz |- *. intros y Hy.
        rewrite (Hd y x); [|right; now right|now left].
        destruct (boundsArea x <? boundsArea y)%float eqn:Hxy; [|reflexivity].
        pose proof (ltb_trans _ _ _ Hlt Hxy) as Hzy.
        rewrite <- (Hd y z) in Hzy; [|right; now right|right; now left].
        rewrite (Hz y Hy) in Hzy. discriminate.
    + cbn [in_order]. split.
      * rewrite Forall_forall in Hz |- *. intros y Hy.
        apply insert_by_In in Hy. destruct Hy as [->|Hy]; [exact Hxz|].
        now apply Hz.
      * apply IH; [|exact Ho].
        intros a b Ha Hb. apply Hd.
        -- destruct Ha as [->|Ha]; [now left | right; now right].
        -- destruct Hb as [->|Hb]; [now left | right; now right].
Qed.

(** What the sort returns is in order. *)
Lemma js_sort_in_order l :
  differences_order l -> in_order (js_sort by_area_descending l).
Proof.
  unfold js_sort. intros Hd.
  assert (H : forall acc,
             differences_order (acc ++ l) -> in_order acc ->
             in_order (fold_left
                         (fun acc x => insert_by by_area_descending x acc)
                         l acc)).
  { clear Hd. induction l as [|x l IH]; intros acc Hd Ho; cbn [fold_left];
      [exact Ho|].
    apply IH.
    - intros a b Ha Hb. apply Hd.
      + apply in_app_or in Ha. destruct Ha as [Ha|Ha].
        * apply insert_by_In in Ha. apply in_or_app.
          destruct Ha as [->|Ha]; [right; now left | now left].
        * apply in_or_app. right. now right.
      + apply in_app_or in Hb. destruct Hb as [Hb|Hb].
        * apply insert_by_In in Hb. apply in_or_app.
          destruct Hb as [->|Hb]; [right; now left | now left].
        * apply in_or_app. right. now right.
    - apply insert_by_in_order; [|exact Ho].
      intros a b Ha Hb. apply Hd.
      + destruct Ha as [->|Ha]; apply in_or_app;
          [right; now left | now left].
      + destruct Hb as [->|Hb]; apply in_or_app;
          [right; now left | now left]. }
  apply H; [exact Hd | exact I].
Qed.

Lemma insert_by_last x : forall l,
  Forall (fun y => (by_area_descending x y <? 0)%float = false) l ->
  insert_by by_area_descending x l = l ++ [x].
Proof.
  induction l as [|z l IH]; intros H; [reflexivity|].
  inversion H as [|? ? Hz Hl]; subst. cbn [insert_by app].
  rewrite Hz. f_equal. now apply IH.
Qed.

Lemma in_order_before acc x r :
  in_order (acc ++ x :: r) ->
  Forall (fun y => (by_area_descending x y <? 0)%float = false) acc.
Proof.
  induction acc as [|z acc IH]; intros H; [constructor|].
  cbn [app in_order] in H. destruct H as [Hz H].
  constructor; [|now apply IH].
  rewrite Forall_forall in Hz. apply Hz. apply in_or_app. right. now left.
Qed.

(** The sort leaves a list that is in order as it is. *)
Lemma js_sort_fixed l : in_order l -> js_sort by_area_descending l = l.
Proof.
  unfold js_sort. intros Ho.
  assert (H : forall acc,
             in_order (acc ++ l) ->
             fold_left (fun acc x => insert_by by_area_descending x acc) l acc
             = acc ++ l).
  { clear Ho. induction l as [|x l IH]; intros acc Ho; cbn [fold_left].
    - now rewrite app_nil_r.
    - rewrite (insert_by_last x acc (in_order_before acc x l Ho)).
      rewrite IH; rewrite <- app_assoc; [reflexivity | exact Ho]. }
  apply (H [] Ho).
Qed.

(** Being in order is a matter of the areas alone. *)
Lemma in_order_areas : forall l l',
  map boundsArea l = map boundsArea l' -> in_order l -> in_order l'.
Proof.
  induction l as [|x l IH]; intros [|x' l'] Hm Ho; try discriminate;
    [exact I|].
  cbn [map] in Hm. inversion Hm as [[Hx Hl]].
  destruct Ho as [Hall Ho]. split; [|now apply (IH l')].
  clear IH Ho Hm. revert l' Hl.
  induction l as [|y l IH]; intros [|y' l'] Hl; try discriminate;
    [constructor|].
  cbn [map] in Hl. inversion Hl as [[Hy Hl']].
  inversion Hall as [|? ? Hyx Hrest]; subst. constructor.
  - unfold by_area_descending in *. now rewrite <- Hx, <- Hy.
  - now apply IH.
Qed.

Section Orientation.

(** [path.getInteriorPoint()] and [path.contains(point)], by shape. *)
Variable interiorPoint : nat -> Point.t.
Variable contains : nat -> Point.t -> bool.

(** The number of paths among [larger] that contain the interior point of
    [c]: the variable [counters] of [CompoundPath#reorient]. *)
Definition depth (larger : list Child) (c : Child) : nat :=
  length (filter (fun d => contains (shape d) (interiorPoint (shape c))) larger).

(** *** The older [CompoundPath#reorient] (lines 1079-1098) *)

(** The loop over [i >= 1]; [done] holds [children[0..i-1]]. *)
Fixpoint reorient_rest (cw : bool) (done rest : list Child) : list Child :=
  match rest with
  | [] => done
  | c :: r =>
      let counters := depth done c in
      reorient_rest cw (done ++ [setClockwise c (Nat.even counters && cw)]) r
  end.

Definition reorient (children : list Child) : list Child :=
  match js_sort by_area_descending children with
  | [] => []
  | first :: rest => reorient_rest (clockwise first) [first] rest
  end.

(** *** The orientation pass of [resolveCrossings] (lines 1976-2036) *)

Record FixState : Type := mkFix {
  fs_paths : list Child;
  fs_windings : list Z;
  fs_excluded : list bool;
  fs_items : list Child
}.

Definition no_child : Child := mkChild 0 0 false.

(** The result of the inner loop over [j]: the path is excluded, or it is
    kept with the container found (if any); [wi] is [windings[i]] then. *)
Inductive Scan : Type :=
| Excluded (wi : Z)
| Kept (wi : Z) (container : option nat).

(** Lines 1999-2023, started with [k = i]: looks at [j = k - 1], then down. *)
Fixpoint scan (isNonZero : bool) (st : FixState) (point : Point.t) (k : nat)
    (wi : Z) (isContained : bool) : Scan :=
  match k with
  | 0 => Kept wi None
  | S j =>
      if contains (shape (nth j (fs_paths st) no_child)) point then
        let wj := nth j (fs_windings st) 0%Z in
        let counted := isNonZero && negb isContained in
        let wi := if counted then (wi + wj)%Z else wi in
        if counted && negb (wi =? 0)%Z && negb (wj =? 0)%Z then Excluded wi
        else if nth j (fs_excluded st) false
             then scan isNonZero st point j wi true
             else Kept wi (Some j)
      else scan isNonZero st point j wi isContained
  end.

Definition set_nth {A : Type} (i : nat) (x : A) (l : list A) : list A :=
  alter_nth (fun _ => x) i l.

(** Lines 1993-2032: the body of the loop for one [i]. *)
Definition fix_step (isNonZero : bool) (st : FixState) (i : nat) : FixState :=
  let path := nth i (fs_paths st) no_child in
  let point := interiorPoint (shape path) in
  match scan isNonZero st point i (nth i (fs_windings st) 0%Z) false with
  | Excluded wi =>
      mkFix (fs_paths st) (set_nth i wi (fs_windings st))
            (set_nth i true (fs_excluded st)) (fs_items st)
  | Kept wi container =>
      let value :=
        match container with
        | Some j => negb (clockwise (nth j (fs_paths st) no_child))
        | None => clockwise (nth 0 (fs_paths st) no_child)
        end in
      let path := setClockwise path value in
      mkFix (set_nth i path (fs_paths st)) (set_nth i wi (fs_windings st))
            (fs_excluded st) (fs_items st ++ [path])
  end.

(** Lines 1976-2036.  [isNonZero] is [this.getFillRule() === 'nonzero']. *)
Definition fixOrientation (isNonZero : bool) (paths : list Child)
  : list Child :=
  if Nat.ltb 1 (length paths) then
    let paths := js_sort by_area_descending paths in
    fs_items
      (fold_left (fix_step isNonZero) (seq 1 (length paths - 1))
         (mkFix paths
            (map (fun p => if clockwise p then 1%Z else (-1)%Z) paths)
            (repeat false (length paths))
            (firstn 1 paths)))
  else paths.

(** *** What the older pass does *)

Lemma reorient_rest_app cw rest : forall done,
  exists tail,
    reorient_rest cw done rest = done ++ tail /\
    Forall (fun c' => exists n, clockwise c' = Nat.even n && cw) tail.
Proof.
  induction rest as [|c r IH]; intros done; simpl.
  - exists []. split; [now rewrite app_nil_r | constructor].
  - destruct (IH (done ++ [setClockwise c (Nat.even (depth done c) && cw)]))
      as [tail [Heq Hall]].
    eexists (_ :: tail). split.
    + rewrite Heq, <- app_assoc. reflexivity.
    + constructor; [|exact Hall]. now exists (depth done c).
Qed.

(** With a counter-clockwise largest child, the older pass makes every other
    child counter-clockwise, whatever its depth. *)
Lemma reorient_ccw_first_all_ccw children first rest :
  js_sort by_area_descending children = first :: rest ->
  clockwise first = false ->
  exists tail,
    reorient children = first :: tail /\
    Forall (fun c' => clockwise c' = false) tail.
Proof.
  intros Hs Hccw. unfold reorient. rewrite Hs, Hccw.
  destruct (reorient_rest_app false rest [first]) as [tail [Heq Hall]].
  exists tail. split; [exact Heq|].
  eapply Forall_impl; [|exact Hall]. intros c' [n Hn].
  now rewrite Hn, andb_false_r.
Qed.

(** *** What the pass of [resolveCrossings] does under the even-odd rule *)

(** The nearest of the [k] largest paths that contains the point, and the
    number of them that contain it. *)
Fixpoint nearest (shapes : list nat) (pt : Point.t) (k : nat) : option nat :=
  match k with
  | 0 => None
  | S j => if contains (nth j shapes 0) pt then Some j else nearest shapes pt j
  end.

Fixpoint depth_below (shapes : list nat) (pt : Point.t) (k : nat) : nat :=
  match k with
  | 0 => 0
  | S j =>
      (if contains (nth j shapes 0) pt then 1 else 0) + depth_below shapes pt j
  end.

(** Containment is nested: a path that lies in a larger path lies in one
    more path than the nearest path it lies in. *)
Definition nested (shapes : list nat) : Prop :=
  forall i j,
    i < length shapes ->
    nearest shapes (interiorPoint (nth i shapes 0)) i = Some j ->
    depth_below shapes (interiorPoint (nth i shapes 0)) i
    = S (depth_below shapes (interiorPoint (nth j shapes 0)) j).

Lemma nearest_lt shapes pt k j : nearest shapes pt k = Some j -> j < k.
Proof.
  induction k as [|k IH]; simpl; [discriminate|].
  destruct (contains (nth k shapes 0) pt).
  - intros H. inversion H. lia.
  - intros H. apply IH in H. lia.
Qed.

Lemma nearest_none shapes pt k :
  nearest shapes pt k = None -> depth_below shapes pt k = 0.
Proof.
  induction k as [|k IH]; simpl; [reflexivity|].
  destruct (contains (nth k shapes 0) pt); [discriminate|]. exact IH.
Qed.

Lemma spec_clockwise_S d c :
  spec_clockwise (S d) c = negb (spec_clockwise d c).
Proof.
  unfold spec_clockwise. rewrite Nat.even_succ, <- Nat.negb_even.
  now destruct (Nat.even d), c.
Qed.

Lemma nth_set_nth {A : Type} (x d : A) i j l :
  nth j (set_nth i x l) d =
  if Nat.eqb i j && Nat.ltb j (length l) then x else nth j l d.
Proof.
  unfold set_nth. revert i j; induction l as [|y r IH]; intros [|i] [|j];
    simpl; try reflexivity.
  - now rewrite andb_false_r.
  - rewrite IH. reflexivity.
Qed.

Lemma length_set_nth {A : Type} (x : A) i l :
  length (set_nth i x l) = length l.
Proof. apply length_alter_nth. Qed.

Lemma firstn_set_nth {A : Type} (x : A) k l :
  k < length l -> firstn (S k) (set_nth k x l) = firstn k l ++ [x].
Proof.
  unfold set_nth. revert k; induction l as [|y r IH]; intros [|k] Hk;
    simpl in *; try lia.
  - reflexivity.
  - f_equal. apply IH. lia.
Qed.

Lemma map_shape_set_nth v i l :
  map shape (set_nth i (setClockwise (nth i l no_child) v) l) = map shape l.
Proof.
  unfold set_nth. revert i; induction l as [|y r IH]; intros [|i]; simpl;
    try reflexivity.
  f_equal. apply IH.
Qed.

Lemma nth_map_shape l j : nth j (map shape l) 0 = shape (nth j l no_child).
Proof. exact (map_nth shape l no_child j). Qed.

(** Under the even-odd rule nothing is excluded, and the inner loop finds
    the nearest larger path that contains the point. *)
Lemma scan_evenodd st pt : forall k wi isContained,
  (forall j, nth j (fs_excluded st) false = false) ->
  scan false st pt k wi isContained
  = Kept wi (nearest (map shape (fs_paths st)) pt k).
Proof.
  induction k as [|k IH]; intros wi ic Hex; simpl; [reflexivity|].
  rewrite nth_map_shape.
  destruct (contains (shape (nth k (fs_paths st) no_child)) pt).
  - now rewrite Hex.
  - now apply IH.
Qed.

(** The state of the loop before it handles the index [k]. *)
Record evenodd_inv (shapes : list nat) (cw0 : bool) (k : nat) (st : FixState)
  : Prop := mkInv {
  inv_shapes : map shape (fs_paths st) = shapes;
  inv_excluded : forall j, nth j (fs_excluded st) false = false;
  inv_items : fs_items st = firstn k (fs_paths st);
  inv_clockwise : forall i, i < k ->
    clockwise (nth i (fs_paths st) no_child)
    = spec_clockwise (depth_below shapes (interiorPoint (nth i shapes 0)) i)
                     cw0
}.

Lemma fix_step_evenodd shapes cw0 k st :
  nested shapes -> 1 <= k -> k < length shapes ->
  evenodd_inv shapes cw0 k st ->
  evenodd_inv shapes cw0 (S k) (fix_step false st k).
Proof.
  intros Hn Hk1 Hk [Hs He Hi Hc].
  assert (Hlen : length (fs_paths st) = length shapes)
    by (now rewrite <- Hs, length_map).
  unfold fix_step. rewrite (scan_evenodd st _ k _ false He), Hs.
  assert (Hpt : interiorPoint (shape (nth k (fs_paths st) no_child))
                = interiorPoint (nth k shapes 0))
    by (now rewrite <- nth_map_shape, Hs).
  rewrite Hpt.
  set (value := match nearest shapes (interiorPoint (nth k shapes 0)) k with
                | Some j => negb (clockwise (nth j (fs_paths st) no_child))
                | None => clockwise (nth 0 (fs_paths st) no_child)
                end).
  assert (Hv : value
               = spec_clockwise
                   (depth_below shapes (interiorPoint (nth k shapes 0)) k) cw0).
  { unfold value.
    destruct (nearest shapes (interiorPoint (nth k shapes 0)) k) as [j|] eqn:Hj.
    - rewrite (Hn k j Hk Hj), spec_clockwise_S.
      f_equal. apply Hc. eapply nearest_lt; eassumption.
    - rewrite (nearest_none _ _ _ Hj). apply (Hc 0). lia. }
  constructor; simpl.
  - rewrite map_shape_set_nth. exact Hs.
  - exact He.
  - rewrite Hi. symmetry. apply firstn_set_nth. lia.
  - intros i Hik. rewrite nth_set_nth.
    destruct (Nat.eqb_spec k i) as [<-|Hne]; simpl.
    + replace (Nat.ltb k (length (fs_paths st))) with true
        by (symmetry; apply Nat.ltb_lt; lia).
      simpl. exact Hv.
    + apply Hc. lia.
Qed.

Lemma fold_fix_step_evenodd shapes cw0 : forall count k st,
  nested shapes -> 1 <= k -> k + count <= length shapes ->
  evenodd_inv shapes cw0 k st ->
  evenodd_inv shapes cw0 (k + count)
    (fold_left (fix_step false) (seq k count) st).
Proof.
  induction count as [|count IH]; intros k st Hn Hk1 Hk Hinv; simpl.
  - now rewrite Nat.add_0_r.
  - replace (k + S count) with (S k + count) by lia.
    apply IH; [exact Hn | lia | lia |].
    apply fix_step_evenodd; [exact Hn | exact Hk1 | lia | exact Hinv].
Qed.

(** Under the even-odd rule, with nested containment, the pass keeps every
    path, in the order of the sort, leaves the largest as it is and sets
    every other path clockwise exactly when the evenness of its depth
    equals the orientation of the largest. *)
Lemma fixOrientation_evenodd_nested paths :
  1 < length paths ->
  nested (map shape (js_sort by_area_descending paths)) ->
  let sorted := js_sort by_area_descending paths in
  let result := fixOrientation false paths in
  map shape result = map shape sorted /\
  forall i, i < length sorted ->
    clockwise (nth i result no_child)
    = spec_clockwise
        (depth_below (map shape sorted)
           (interiorPoint (shape (nth i sorted no_child))) i)
        (clockwise (nth 0 sorted no_child)).
Proof.
  intros Hlen Hn sorted result. subst result. unfold fixOrientation.
  replace (Nat.ltb 1 (length paths)) with true
    by (symmetry; now apply Nat.ltb_lt).
  fold sorted.
  assert (Hls : length sorted = length paths) by apply length_js_sort.
  set (shapes := map shape sorted) in *.
  set (init := mkFix sorted _ _ _).
  assert (Hinit : evenodd_inv shapes (clockwise (nth 0 sorted no_child)) 1 init).
  { constructor; simpl; try reflexivity.
    - intros j. apply nth_repeat.
    - intros i Hi. assert (i = 0) by lia. subst i. simpl.
      unfold spec_clockwise. simpl. now destruct (clockwise _). }
  pose proof (fold_fix_step_evenodd shapes (clockwise (nth 0 sorted no_child))
                (length sorted - 1) 1 init Hn (le_n 1)) as Hfold.
  assert (Hsl : length shapes = length sorted) by apply length_map.
  destruct Hfold as [Hs He Hi Hc]; [lia | exact Hinit |].
  replace (1 + (length sorted - 1)) with (length sorted) in * by lia.
  set (final := fold_left (fix_step false) (seq 1 (length sorted - 1)) init)
    in *.
  assert (Hfl : length (fs_paths final) = length sorted)
    by (rewrite <- Hsl, <- Hs; symmetry; apply length_map).
  assert (Hitems : fs_items final = fs_paths final)
    by (rewrite Hi, <- Hfl; apply firstn_all).
  rewrite Hitems. split; [exact Hs|].
  intros i Hlt. rewrite (Hc i Hlt). unfold shapes at 2.
  now rewrite nth_map_shape.
Qed.

(** The pass never writes the area of a path. *)
Lemma map_boundsArea_set_nth v i l :
  map boundsArea (set_nth i (setClockwise (nth i l no_child) v) l)
  = map boundsArea l.
Proof.
  unfold set_nth. revert i; induction l as [|y r IH]; intros [|i]; simpl;
    try reflexivity.
  f_equal. apply IH.
Qed.

Lemma fix_step_areas isNonZero st i :
  map boundsArea (fs_paths (fix_step isNonZero st i))
  = map boundsArea (fs_paths st).
Proof.
  unfold fix_step.
  destruct (scan isNonZero st _ i _ false) as [wi|wi container];
    cbn [fs_paths]; [reflexivity|].
  apply map_boundsArea_set_nth.
Qed.

Lemma fold_fix_step_areas isNonZero : forall l st,
  map boundsArea (fs_paths (fold_left (fix_step isNonZero) l st))
  = map boundsArea (fs_paths st).
Proof.
  induction l as [|i l IH]; intros st; cbn [fold_left]; [reflexivity|].
  now rewrite IH, fix_step_areas.
Qed.

(** Under the even-odd rule, with nested containment, the paths come out
    with the areas of the sorted list, one for one. *)
Lemma fixOrientation_evenodd_areas paths :
  1 < length paths ->
  nested (map shape (js_sort by_area_descending paths)) ->
  map boundsArea (fixOrientation false paths)
  = map boundsArea (js_sort by_area_descending paths).
Proof.
  intros Hlen Hn. unfold fixOrientation.
  replace (Nat.ltb 1 (length paths)) with true
    by (symmetry; now apply Nat.ltb_lt).
  set (sorted := js_sort by_area_descending paths) in *.
  assert (Hls : length sorted = length paths) by apply length_js_sort.
  set (shapes := map shape sorted) in *.
  set (init := mkFix sorted _ _ _).
  assert (Hinit : evenodd_inv shapes (clockwise (nth 0 sorted no_child)) 1 init).
  { constructor; simpl; try reflexivity.
    - intros j. apply nth_repeat.
    - intros i Hi. assert (i = 0) by lia. subst i. simpl.
      unfold spec_clockwise. simpl. now destruct (clockwise _). }
  pose proof (fold_fix_step_evenodd shapes (clockwise (nth 0 sorted no_child))
                (length sorted - 1) 1 init Hn (le_n 1)) as Hfold.
  assert (Hsl : length shapes = length sorted) by apply length_map.
  destruct Hfold as [Hs He Hi Hc]; [lia | exact Hinit |].
  replace (1 + (length sorted - 1)) with (length sorted) in * by lia.
  set (final := fold_left (fix_step false) (seq 1 (length sorted - 1)) init)
    in *.
  assert (Hfl : length (fs_paths final) = length sorted)
    by (rewrite <- Hsl, <- Hs; symmetry; apply length_map).
  rewrite Hi, <- Hfl, firstn_all. unfold final.
  now rewrite fold_fix_step_areas.
Qed.

Lemma children_eq : forall l l' : list Child,
  map shape l = map shape l' ->
  map boundsArea l = map boundsArea l' ->
  map clockwise l = map clockwise l' ->
  l = l'.
Proof.
  induction l as [|[s a c] l IH]; intros [|[s' a' c'] l'] Hs Ha Hc;
    try discriminate; [reflexivity|].
  cbn in Hs, Ha, Hc. inversion Hs. inversion Ha. inversion Hc. subst.
  f_equal. now apply IH.
Qed.

(** The sort leaves the result of the pass in its order: it has the areas
    of the first sort, one for one. *)
Lemma fixOrientation_evenodd_sorted paths :
  differences_order paths ->
  1 < length paths ->
  nested (map shape (js_sort by_area_descending paths)) ->
  js_sort by_area_descending (fixOrientation false paths)
  = fixOrientation false paths.
Proof.
  intros Hd Hlen Hn. apply js_sort_fixed.
  apply (in_order_areas (js_sort by_area_descending paths)).
  - symmetry. now apply fixOrientation_evenodd_areas.
  - now apply js_sort_in_order.
Qed.

(** Running the pass on its own result changes nothing. *)
Lemma fixOrientation_evenodd_again paths :
  differences_order paths ->
  1 < length paths ->
  nested (map shape (js_sort by_area_descending paths)) ->
  let result := fixOrientation false paths in
  fixOrientation false result = result.
Proof.
  intros Hd Hlen Hn result.
  pose proof (fixOrientation_evenodd_sorted paths Hd Hlen Hn) as Hsorted.
  fold result in Hsorted.
  destruct (fixOrientation_evenodd_nested paths Hlen Hn) as [Hs Hc].
  fold result in Hs, Hc.
  set (sorted := js_sort by_area_descending paths) in *.
  assert (Hls : length sorted = length paths) by apply length_js_sort.
  assert (Hlr : length result = length sorted).
  { rewrite <- (length_map shape result), Hs. apply length_map. }
  assert (Hlen' : 1 < length result) by lia.
  assert (Hn' : nested (map shape (js_sort by_area_descending result)))
    by (now rewrite Hsorted, Hs).
  destruct (fixOrientation_evenodd_nested result Hlen' Hn') as [Hs' Hc'].
  pose proof (fixOrientation_evenodd_areas result Hlen' Hn') as Ha'.
  rewrite Hsorted in Hs', Hc', Ha'.
  apply children_eq; [exact Hs' | exact Ha' |].
  assert (Hl2 : length (fixOrientation false result) = length result).
  { rewrite <- (length_map shape (fixOrientation false result)), Hs'.
    apply length_map. }
  apply (nth_ext _ _ false false); [now rewrite !length_map|].
  intros i Hi. rewrite length_map, Hl2 in Hi.
  rewrite !(map_nth clockwise _ no_child).
  rewrite (Hc' i Hi), (Hc i) by lia.
  rewrite Hs, <- !nth_map_shape, Hs.
  f_equal. rewrite (Hc 0) by lia. simpl.
  unfold spec_clockwise. simpl. now destruct (clockwise _).
Qed.

(** X6.  Under the even-odd rule, when the areas of the bounds are numbers
    and the paths are nested, the pass of [resolveCrossings] keeps every
    path, in the order of the sort by the area of the bounds, and sets each
    path clockwise exactly when the evenness of the number of larger paths
    around its interior point equals the orientation of the largest path. *)
Theorem fixOrientation_parity_when_nested paths :
  areas_are_numbers paths ->
  1 < length paths ->
  nested (map shape (js_sort by_area_descending paths)) ->
  let sorted := js_sort by_area_descending paths in
  let result := fixOrientation false paths in
  map shape result = map shape sorted /\
  forall i, i < length sorted ->
    clockwise (nth i result no_child)
    = spec_clockwise
        (depth_below (map shape sorted)
           (interiorPoint (shape (nth i sorted no_child))) i)
        (clockwise (nth 0 sorted no_child)).
Proof. intros _. exact (fixOrientation_evenodd_nested paths). Qed.

(** X7.  Under the even-odd rule, when the areas of the bounds are numbers
    that the comparator orders and the paths are nested, the pass is
    idempotent: the sort leaves its result in the order it has, and run on
    that result the pass returns it unchanged. *)
Theorem fixOrientation_idempotent_when_nested paths :
  areas_are_numbers paths ->
  differences_order paths ->
  1 < length paths ->
  nested (map shape (js_sort by_area_descending paths)) ->
  let result := fixOrientation false paths in
  js_sort by_area_descending result = result /\
  fixOrientation false result = result.
Proof.
  intros _ Hd Hlen Hn result. split.
  - now apply fixOrientation_evenodd_sorted.
  - now apply fixOrientation_evenodd_again.
Qed.

(** *** The older pass, when the largest child runs clockwise *)

Lemma depth_below_app s1 s2 pt : forall k,
  k <= length s1 -> depth_below (s1 ++ s2) pt k = depth_below s1 pt k.
Proof.
  induction k as [|k IH]; intros Hk; [reflexivity|].
  cbn [depth_below]. rewrite app_nth1 by lia. rewrite IH by lia. reflexivity.
Qed.

Lemma depth_as_depth_below l c :
  depth l c = depth_below (map shape l) (interiorPoint (shape c)) (length l).
Proof.
  unfold depth. induction l as [|d l IH] using rev_ind; [reflexivity|].
  rewrite filter_app, !length_app, map_app. cbn [length map filter].
  rewrite Nat.add_1_r. cbn [depth_below].
  rewrite app_nth2 by (rewrite length_map; lia).
  rewrite length_map, Nat.sub_diag. cbn [nth].
  rewrite depth_below_app by (rewrite length_map; lia).
  rewrite IH.
  destruct (contains (shape d) (interiorPoint (shape c))); cbn [length]; lia.
Qed.

Lemma reorient_rest_spec cw : forall rest done,
  let result := reorient_rest cw done rest in
  map shape result = map shape (done ++ rest) /\
  firstn (length done) result = done /\
  forall k, k < length rest ->
    clockwise (nth (length done + k) result no_child)
    = Nat.even
        (depth_below (map shape (done ++ rest))
           (interiorPoint (shape (nth k rest no_child))) (length done + k))
      && cw.
Proof.
  cbv zeta. induction rest as [|c r IH]; intros done.
  - cbn [reorient_rest]. rewrite app_nil_r. repeat split.
    + apply firstn_all.
    + intros k Hk. cbn [length] in Hk. lia.
  - cbn [reorient_rest].
    set (c' := setClockwise c (Nat.even (depth done c) && cw)).
    destruct (IH (done ++ [c'])) as [Hs [Hf Hc]].
    assert (Hshapes : map shape ((done ++ [c']) ++ r)
                      = map shape (done ++ c :: r)).
    { rewrite <- app_assoc, !map_app. reflexivity. }
    rewrite Hshapes in Hs, Hc.
    rewrite length_app in Hf, Hc. cbn [length] in Hf, Hc.
    assert (Hf' : firstn (length done)
                    (reorient_rest cw (done ++ [c']) r) = done).
    { replace (length done)
        with (Nat.min (length done) (length done + 1)) at 1 by lia.
      rewrite <- firstn_firstn, Hf.
      rewrite firstn_app, Nat.sub_diag, firstn_all.
      cbn [firstn]. now rewrite app_nil_r. }
    repeat split; [exact Hs | exact Hf' | ].
    intros [|k] Hk.
    + rewrite Nat.add_0_r. cbn [nth].
        assert (Hn : nth (length done) (reorient_rest cw (done ++ [c']) r)
                       no_child = c').
        { rewrite <- (firstn_skipn (length done + 1)
                        (reorient_rest cw (done ++ [c']) r)).
          rewrite Hf. rewrite app_nth1 by (rewrite length_app; simpl; lia).
          rewrite app_nth2 by lia. now rewrite Nat.sub_diag. }
        rewrite Hn. unfold c'. cbn [clockwise setClockwise].
        rewrite depth_as_depth_below, map_app.
        rewrite depth_below_app by (rewrite length_map; lia).
        reflexivity.
    + cbn [length] in Hk. cbn [nth].
      replace (length done + S k) with (length done + 1 + k) by lia.
      apply Hc. lia.
Qed.

(** X8.  When the areas of the bounds are numbers and the largest child
    runs clockwise, the older [CompoundPath#reorient] keeps every child, in
    the order of the sort, and sets each child clockwise exactly when the
    number of larger children around its interior point is even: there the
    parity rule holds, whether the children are nested or not. *)
Theorem reorient_parity_when_largest_clockwise children :
  areas_are_numbers children ->
  clockwise (nth 0 (js_sort by_area_descending children) no_child) = true ->
  let sorted := js_sort by_area_descending children in
  let result := reorient children in
  map shape result = map shape sorted /\
  forall i, i < length sorted ->
    clockwise (nth i result no_child)
    = spec_clockwise
        (depth_below (map shape sorted)
           (interiorPoint (shape (nth i sorted no_child))) i)
        (clockwise (nth 0 sorted no_child)).
Proof.
  cbv zeta. intros _. unfold reorient.
  destruct (js_sort by_area_descending children) as [|first rest];
    [discriminate|].
  cbn [nth]. intros Hcw.
  destruct (reorient_rest_spec (clockwise first) rest [first])
    as [Hs [Hf Hc]].
  cbn [length app] in Hs, Hf, Hc.
  split; [exact Hs|].
  intros [|i] Hi.
  - destruct (reorient_rest (clockwise first) [first] rest) as [|x l];
      [discriminate|].
    cbn [firstn] in Hf. inversion Hf; subst. cbn [nth depth_below].
    unfold spec_clockwise. cbn. now destruct (clockwise first).
  - cbn [length] in Hi. cbn [nth].
    change (S i) with (1 + i). rewrite Hc by lia.
    rewrite Hcw. unfold spec_clockwise.
    now destruct (Nat.even _).
Qed.

(** *** The pass of [resolveCrossings] under either rule *)

Lemma scan_no_container isNonZero st pt : forall k wi isContained,
  nearest (map shape (fs_paths st)) pt k = None ->
  scan isNonZero st pt k wi isContained = Kept wi None.
Proof.
  induction k as [|k IH]; intros wi ic Hn; [reflexivity|].
  cbn [nearest] in Hn. cbn [scan]. rewrite nth_map_shape in Hn.
  destruct (contains (shape (nth k (fs_paths st) no_child)) pt);
    [discriminate|].
  now apply IH.
Qed.

Lemma nth_set_nth_other {A : Type} (x d : A) i j l :
  i <> j -> nth j (set_nth i x l) d = nth j l d.
Proof.
  intros Hne. rewrite nth_set_nth.
  destruct (Nat.eqb_spec i j); [contradiction | reflexivity].
Qed.

(** What one turn of the loop does to the paths and to the items. *)
Lemma fix_step_facts isNonZero sorted st k :
  1 <= k ->
  map shape (fs_paths st) = map shape sorted ->
  nth 0 (fs_paths st) no_child = nth 0 sorted no_child ->
  (forall j, k <= j -> nth j (fs_paths st) no_child = nth j sorted no_child) ->
  let st' := fix_step isNonZero st k in
  map shape (fs_paths st') = map shape sorted /\
  nth 0 (fs_paths st') no_child = nth 0 sorted no_child /\
  (forall j, S k <= j ->
     nth j (fs_paths st') no_child = nth j sorted no_child) /\
  ((fs_items st' = fs_items st /\
    nearest (map shape sorted)
      (interiorPoint (shape (nth k sorted no_child))) k <> None)
   \/ (exists v,
         fs_items st' = fs_items st ++ [setClockwise (nth k sorted no_child) v]
         /\ (nearest (map shape sorted)
               (interiorPoint (shape (nth k sorted no_child))) k = None ->
             v = clockwise (nth 0 sorted no_child)))).
Proof.
  cbv zeta. intros Hk Hs H0 Hrest. unfold fix_step.
  rewrite (Hrest k (le_n k)).
  set (pt := interiorPoint (shape (nth k sorted no_child))).
  destruct (scan isNonZero st pt k (nth k (fs_windings st) 0%Z) false)
    as [wi|wi container] eqn:Hscan; cbn [fs_paths fs_items].
  - repeat split; try assumption.
    + intros j Hj. apply Hrest. lia.
    + left. split; [reflexivity|]. intros Hnone.
      rewrite <- Hs in Hnone.
      rewrite (scan_no_container isNonZero st pt k _ false Hnone) in Hscan.
      discriminate.
  - repeat split.
    + rewrite <- (Hrest k (le_n k)). rewrite map_shape_set_nth. exact Hs.
    + rewrite nth_set_nth_other by lia. exact H0.
    + intros j Hj. rewrite nth_set_nth_other by lia. apply Hrest. lia.
    + right. eexists. split; [reflexivity|].
      intros Hnone. rewrite <- Hs in Hnone.
      rewrite (scan_no_container isNonZero st pt k _ false Hnone) in Hscan.
      inversion Hscan; subst. now rewrite H0.
Qed.

Lemma fold_fix_step_items isNonZero sorted : forall count k st,
  1 <= k ->
  map shape (fs_paths st) = map shape sorted ->
  nth 0 (fs_paths st) no_child = nth 0 sorted no_child ->
  (forall j, k <= j -> nth j (fs_paths st) no_child = nth j sorted no_child) ->
  exists more,
    fs_items (fold_left (fix_step isNonZero) (seq k count) st)
    = fs_items st ++ more /\
    length more <= count /\
    Forall (fun c => exists j v,
              k <= j < k + count /\
              c = setClockwise (nth j sorted no_child) v) more /\
    (forall j, k <= j < k + count ->
       nearest (map shape sorted)
         (interiorPoint (shape (nth j sorted no_child))) j = None ->
       In (setClockwise (nth j sorted no_child)
             (clockwise (nth 0 sorted no_child))) more).
Proof.
  induction count as [|count IH]; intros k st Hk Hs H0 Hrest.
  - exists []. cbn [seq fold_left]. rewrite app_nil_r.
    repeat split; [simpl; lia | constructor | intros j Hj; lia].
  - cbn [seq fold_left].
    destruct (fix_step_facts isNonZero sorted st k Hk Hs H0 Hrest)
      as [Hs1 [H01 [Hrest1 Hitems]]].
    destruct (IH (S k) (fix_step isNonZero st k) (le_S _ _ Hk) Hs1 H01 Hrest1)
      as [more [Hm [Hlen [Hall Hisl]]]].
    assert (Hall' : Forall (fun c => exists j v,
                       k <= j < k + S count /\
                       c = setClockwise (nth j sorted no_child) v) more).
    { eapply Forall_impl; [|exact Hall].
      intros c [j [v [Hj Hc]]]. exists j, v. split; [lia | exact Hc]. }
    destruct Hitems as [[Hsame Hnear]|[v [Happ Hv]]].
    + exists more. rewrite Hm, Hsame. repeat split; [lia | exact Hall' |].
      intros j Hj Hnone.
      destruct (Nat.eq_dec j k) as [->|Hne]; [contradiction|].
      apply Hisl; [lia | exact Hnone].
    + exists (setClockwise (nth k sorted no_child) v :: more).
      rewrite Hm, Happ, <- app_assoc. repeat split.
      * cbn [length]. lia.
      * constructor; [|exact Hall']. exists k, v. split; [lia | reflexivity].
      * intros j Hj Hnone.
        destruct (Nat.eq_dec j k) as [->|Hne].
        -- left. now rewrite (Hv Hnone).
        -- right. apply Hisl; [lia | exact Hnone].
Qed.

Lemma js_sort_single (c : Child) : js_sort by_area_descending [c] = [c].
Proof. reflexivity. Qed.

(** The pass seen from the sorted list. *)
Lemma fixOrientation_items isNonZero paths first rest :
  js_sort by_area_descending paths = first :: rest ->
  exists tail,
    fixOrientation isNonZero paths = first :: tail /\
    length tail <= length rest /\
    Forall (fun c => exists j v,
              1 <= j < S (length rest) /\
              c = setClockwise (nth j (first :: rest) no_child) v) tail /\
    (forall j, 1 <= j < S (length rest) ->
       nearest (map shape (first :: rest))
         (interiorPoint (shape (nth j (first :: rest) no_child))) j = None ->
       In (setClockwise (nth j (first :: rest) no_child) (clockwise first))
          tail).
Proof.
  intros Hsort. unfold fixOrientation.
  pose proof (length_js_sort by_area_descending paths) as Hlen.
  rewrite Hsort in Hlen. cbn [length] in Hlen.
  destruct (Nat.ltb_spec 1 (length paths)) as [Hlt|Hge].
  - rewrite Hsort. cbn [length]. rewrite Nat.sub_succ, Nat.sub_0_r.
    destruct (fold_fix_step_items isNonZero (first :: rest) (length rest) 1
                (mkFix (first :: rest)
                   (map (fun p => if clockwise p then 1%Z else (-1)%Z)
                      (first :: rest))
                   (repeat false (S (length rest)))
                   (firstn 1 (first :: rest)))
                (le_n 1) eq_refl eq_refl (fun j _ => eq_refl))
      as [more [Hm [Hl [Hall Hisl]]]].
    exists more. rewrite Hm. repeat split; assumption.
  - destruct paths as [|c [|c' l]]; cbn [length] in *; try lia.
    rewrite js_sort_single in Hsort. inversion Hsort; subst.
    exists [].
    repeat split; [simpl; lia | constructor | intros j Hj; cbn in Hj; lia].
Qed.

(** X9.  Under either fill rule, when the areas of the bounds are numbers,
    the pass of [resolveCrossings] returns the path with the largest bounds
    first and as it was; it returns no more paths than it was given, and
    each of the others is one of the smaller paths of the sort, with its
    orientation set. *)
Theorem fixOrientation_keeps_largest isNonZero paths first rest :
  areas_are_numbers paths ->
  js_sort by_area_descending paths = first :: rest ->
  exists tail,
    fixOrientation isNonZero paths = first :: tail /\
    length tail <= length rest /\
    Forall (fun c => exists r v, In r rest /\ c = setClockwise r v) tail.
Proof.
  intros _ Hsort.
  destruct (fixOrientation_items isNonZero paths first rest Hsort)
    as [tail [Hres [Hlen [Hall _]]]].
  exists tail. repeat split; [exact Hres | exact Hlen |].
  eapply Forall_impl; [|exact Hall].
  intros c [j [v [Hj Hc]]].
  destruct j as [|j]; [lia|]. cbn [nth] in Hc.
  exists (nth j rest no_child), v. split; [|exact Hc].
  apply nth_In. lia.
Qed.

(** X10.  Under either fill rule, when the areas of the bounds are numbers,
    a path whose interior point lies in none of the larger paths is kept and
    is given the orientation of the largest path. *)
Theorem fixOrientation_island_follows_largest isNonZero paths i :
  areas_are_numbers paths ->
  let sorted := js_sort by_area_descending paths in
  1 <= i < length sorted ->
  nearest (map shape sorted)
    (interiorPoint (shape (nth i sorted no_child))) i = None ->
  In (setClockwise (nth i sorted no_child)
        (clockwise (nth 0 sorted no_child)))
     (fixOrientation isNonZero paths).
Proof.
  cbv zeta. intros _ Hi Hnone.
  destruct (js_sort by_area_descending paths) as [|first rest] eqn:Hsort;
    [cbn [length] in Hi; lia|].
  destruct (fixOrientation_items isNonZero paths first rest Hsort)
    as [tail [Hres [_ [_ Hisl]]]].
  rewrite Hres. right. cbn [nth]. apply Hisl; [cbn [length] in Hi; lia|].
  exact Hnone.
Qed.

End Orientation.

(** *** A counter-clockwise outline with a hole *)

(** An outer path (shape 0, bounds area 100) that runs counter-clockwise, and
    a smaller path (shape 1, bounds area 25) inside it. *)
Definition outer : Child := mkChild 0 100 false.
Definition hole : Child := mkChild 1 25 true.

Definition inside_outer (s : nat) (p : Point.t) : bool := Nat.eqb s 0.
Definition center_of (s : nat) : Point.t := Point.mk 5 5.

(** C4, where the older pass leaves the claim.  The hole lies in one larger
    path, so its depth is odd and the claim, like the comment above the
    method ("the holes have opposite winding direction"), wants it
    clockwise; [counters % 2 === 0 && clockwise] makes it counter-clockwise,
    as the outer path.  The pass of [resolveCrossings] sets it clockwise. *)
Theorem reorient_ccw_outer_hole :
  map clockwise (reorient center_of inside_outer [hole; outer])
    = [false; false] /\
  depth center_of inside_outer [outer] hole = 1 /\
  spec_clockwise 1 (clockwise outer) = true /\
  map clockwise (fixOrientation center_of inside_outer false [hole; outer])
    = [false; true].
Proof. repeat split; vm_compute; reflexivity. Qed.

(** On the same two paths the pass of [resolveCrossings] changes nothing
    when it runs a second time. *)
Example fixOrientation_again_outer_hole :
  let once := fixOrientation center_of inside_outer false [hole; outer] in
  fixOrientation center_of inside_outer false once = once.
Proof. vm_compute. reflexivity. Qed.

(** *** The passes on two squares *)

(** The outer path running clockwise, and two paths of which neither lies
    in the other. *)
Definition outer_clockwise : Child := mkChild 0 100 true.

Definition apart (s : nat) (p : Point.t) : bool := false.

Lemma outer_hole_nested :
  nested center_of inside_outer
    (map shape (js_sort by_area_descending [hole; outer])).
Proof.
  change (map shape (js_sort by_area_descending [hole; outer]))
    with [0; 1].
  intros i j Hi Hn. destruct i as [|[|i]].
  - discriminate.
  - cbn in Hn. inversion Hn; subst. reflexivity.
  - cbn [length] in Hi. lia.
Qed.

Lemma outer_hole_numbers : areas_are_numbers [hole; outer].
Proof. repeat constructor. Qed.

Lemma outer_clockwise_hole_numbers :
  areas_are_numbers [hole; outer_clockwise].
Proof. repeat constructor. Qed.

Lemma outer_hole_ordered : differences_order [hole; outer].
Proof.
  intros a b [<-|[<-|[]]] [<-|[<-|[]]]; vm_compute; reflexivity.
Qed.

(** X6 on the counter-clockwise outline and its hole. *)
Lemma fixOrientation_parity_when_nested_witness :
  map shape (fixOrientation center_of inside_outer false [hole; outer])
  = map shape (js_sort by_area_descending [hole; outer]) /\
  forall i, i < length (js_sort by_area_descending [hole; outer]) ->
    clockwise
      (nth i (fixOrientation center_of inside_outer false [hole; outer])
         no_child)
    = spec_clockwise
        (depth_below inside_outer
           (map shape (js_sort by_area_descending [hole; outer]))
           (center_of
              (shape (nth i (js_sort by_area_descending [hole; outer])
                        no_child))) i)
        (clockwise (nth 0 (js_sort by_area_descending [hole; outer])
                      no_child)).
Proof.
  exact (fixOrientation_parity_when_nested center_of inside_outer
           [hole; outer] outer_hole_numbers (le_n 2) outer_hole_nested).
Defined.

(** X7 on the same two paths. *)
Lemma fixOrientation_idempotent_when_nested_witness :
  js_sort by_area_descending
    (fixOrientation center_of inside_outer false [hole; outer])
  = fixOrientation center_of inside_outer false [hole; outer] /\
  fixOrientation center_of inside_outer false
    (fixOrientation center_of inside_outer false [hole; outer])
  = fixOrientation center_of inside_outer false [hole; outer].
Proof.
  exact (fixOrientation_idempotent_when_nested center_of inside_outer
           [hole; outer] outer_hole_numbers outer_hole_ordered (le_n 2)
           outer_hole_nested).
Defined.

(** X8 on a clockwise outline and its hole: the hole keeps running the
    other way. *)
Lemma reorient_parity_when_largest_clockwise_witness :
  map shape (reorient center_of inside_outer [hole; outer_clockwise])
  = map shape (js_sort by_area_descending [hole; outer_clockwise]) /\
  forall i, i < length (js_sort by_area_descending [hole; outer_clockwise]) ->
    clockwise
      (nth i (reorient center_of inside_outer [hole; outer_clockwise])
         no_child)
    = spec_clockwise
        (depth_below inside_outer
           (map shape (js_sort by_area_descending [hole; outer_clockwise]))
           (center_of
              (shape (nth i (js_sort by_area_descending
                               [hole; outer_clockwise]) no_child))) i)
        (clockwise (nth 0 (js_sort by_area_descending [hole; outer_clockwise])
                      no_child)).
Proof.
  exact (reorient_parity_when_largest_clockwise center_of inside_outer
           [hole; outer_clockwise] outer_clockwise_hole_numbers eq_refl).
Defined.

(** X9 on the outline and its hole, under the non-zero rule. *)
Lemma fixOrientation_keeps_largest_witness :
  exists tail,
    fixOrientation center_of inside_outer true [hole; outer] = outer :: tail /\
    length tail <= length [hole] /\
    Forall (fun c => exists r v, In r [hole] /\ c = setClockwise r v) tail.
Proof.
  exact (fixOrientation_keeps_largest center_of inside_outer true
           [hole; outer] outer [hole] outer_hole_numbers eq_refl).
Defined.

(** X10 on two paths that lie apart: the smaller one is turned to run
    counter-clockwise, as the larger one does. *)
Lemma fixOrientation_island_follows_largest_witness :
  In (setClockwise hole false)
     (fixOrientation center_of apart true [hole; outer]).
Proof.
  exact (fixOrientation_island_follows_largest center_of apart true
           [hole; outer] 1 outer_hole_numbers (conj (le_n 1) (le_n 2))
           eq_refl).
Defined.

End Reorient.

(** ** JavaScript references and exceptions *)

(** A variable that holds an object, [null] or [undefined]. *)
Inductive JsRef (A : Type) : Type :=
| undefined
| null
| obj (a : A).

Arguments undefined {A}.
Arguments null {A}.
Arguments obj {A} a.

(** [!!r]. *)
Definition truthy {A : Type} (r : JsRef A) : bool :=
  match r with
  | obj _ => true
  | _ => false
  end.

(** [a === b] on references, given the identity test of the objects. *)
Definition ref_eqb {A : Type} (eqb : A -> A -> bool) (a b : JsRef A) : bool :=
  match a, b with
  | undefined, undefined => true
  | null, null => true
  | obj x, obj y => eqb x y
  | _, _ => false
  end.

(** What running a piece of code gives: a value, a thrown [TypeError] (a
    property read on [null] or [undefined]), or, for a model that counts its
    loop iterations, the count running out. *)
Inductive outcome (A : Type) : Type :=
| Ok (a : A)
| Throw
| OutOfFuel.

Arguments Ok {A} a.
Arguments Throw {A}.
Arguments OutOfFuel {A}.

Definition bind {A B : Type} (m : outcome A) (f : A -> outcome B)
  : outcome B :=
  match m with
  | Ok a => f a
  | Throw => Throw
  | OutOfFuel => OutOfFuel
  end.

Notation "x <- m ;; k" := (bind m (fun x => k))
  (at level 61, m at next level, right associativity).
Notation "' p <- m ;; k" := (bind m (fun x => let 'p := x in k))
  (at level 61, p pattern, m at next level, right associativity).

(** In a hypothesis [x <- m ;; k = r]: the cases of [m]. *)
Ltac bind_cases H :=
  match type of H with
  | bind ?m _ = _ =>
      let E := fresh "E" in
      destruct m eqn:E; cbn [bind] in H; cbv beta in H;
      [ | discriminate H | discriminate H ]
  end.

(** Reading through a reference that must hold an object. *)
Definition deref {A : Type} (o : option A) : outcome A :=
  match o with
  | Some a => Ok a
  | None => Throw
  end.

(** A run that does not exhaust its count of iterations. *)
Definition bounded {A : Type} (m : outcome A) : Prop := m <> OutOfFuel.

Lemma bounded_Ok {A : Type} (a : A) : bounded (Ok a).
Proof. discriminate. Qed.

Lemma bounded_Throw {A : Type} : bounded (@Throw A).
Proof. discriminate. Qed.

Lemma bounded_deref {A : Type} (o : option A) : bounded (deref o).
Proof. destruct o; discriminate. Qed.

Lemma bounded_bind {A B : Type} (m : outcome A) (f : A -> outcome B) :
  bounded m -> (forall a, bounded (f a)) -> bounded (bind m f).
Proof.
  intros Hm Hf. destruct m; simpl; [apply Hf | discriminate | now elim Hm].
Qed.

(** Splits a goal [bounded m] along the binds and the cases of [m]; [tac]
    closes the calls of functions that have a lemma of their own. *)
Ltac bounded_with tac :=
  repeat first
    [ apply bounded_Ok
    | apply bounded_Throw
    | apply bounded_deref
    | tac
    | apply bounded_bind; [|intros ?]
    | match goal with
      | |- bounded (match ?x with _ => _ end) => destruct x
      end ].

Lemma deref_Ok {A : Type} (o : option A) a : deref o = Ok a -> o = Some a.
Proof. destruct o; simpl; congruence. Qed.

(** ** The paths of one boolean operation, after division *)

Module Store.

(** A segment is named by the index of its path and its [_index] there. *)
Definition SegRef : Type := (nat * nat)%type.
Definition LocRef : Type := nat.

Definition seg_eqb (a b : SegRef) : bool :=
  Nat.eqb (fst a) (fst b) && Nat.eqb (snd a) (snd b).

Lemma seg_eqb_spec a b : reflect (a = b) (seg_eqb a b).
Proof.
  destruct a as [p i], b as [q j]. unfold seg_eqb. simpl.
  destruct (Nat.eqb_spec p q), (Nat.eqb_spec i j); simpl; constructor;
    congruence.
Qed.

(** The fields of a segment the engine reads and writes.  [_winding] is
    undefined until the propagator has run; [_visited] and [_contour] are
    only read as truth values. *)
Record Segment : Type := mkSegment {
  _point : Point.t;
  _handleIn : Point.t;
  _handleOut : Point.t;
  _visited : bool;
  _winding : option Z;
  _contour : bool;
  _intersection : JsRef LocRef
}.

(** An item is a path or a compound path. *)
Inductive ItemRef : Type :=
| PathItem (p : nat)
| CompoundItem (c : nat).

Definition item_eqb (a b : ItemRef) : bool :=
  match a, b with
  | PathItem p, PathItem q => Nat.eqb p q
  | CompoundItem c, CompoundItem d => Nat.eqb c d
  | _, _ => false
  end.

(** [_parent] is [Some c] when the parent is the compound path [c]. *)
Record Path : Type := mkPath {
  _segments : list Segment;
  _closed : bool;
  _overlapsOnly : bool;
  _validOverlapsOnly : bool;
  _parent : option nat
}.

(** A location of the intersection graph.  [_next_chain] lists the locations
    reached from this one by following [_next], in order: the chain is
    acyclic, an invariant that [linkIntersections] keeps. *)
Record Location : Type := mkLocation {
  _segment : JsRef SegRef;
  _next_chain : list LocRef;
  _overlap : bool
}.

Record t : Type := mk {
  paths : list Path;
  locations : list Location
}.

Definition get_path (st : t) (p : nat) : option Path := nth_error (paths st) p.

Definition get_segment (st : t) (s : SegRef) : option Segment :=
  match get_path st (fst s) with
  | Some path => nth_error (_segments path) (snd s)
  | None => None
  end.

Definition get_location (st : t) (l : LocRef) : option Location :=
  nth_error (locations st) l.

Definition alter_segments (f : list Segment -> list Segment) (path : Path)
  : Path :=
  mkPath (f (_segments path)) (_closed path) (_overlapsOnly path)
         (_validOverlapsOnly path) (_parent path).

(** [seg.field = value], as a function on the segment. *)
Definition alter_segment (f : Segment -> Segment) (s : SegRef) (st : t) : t :=
  mk (alter_nth (alter_segments (alter_nth f (snd s))) (fst s) (paths st))
     (locations st).

Definition mark_visited (seg : Segment) : Segment :=
  mkSegment (_point seg) (_handleIn seg) (_handleOut seg) true
            (_winding seg) (_contour seg) (_intersection seg).

(** [seg._visited = true]. *)
Definition set_visited (s : SegRef) (st : t) : t :=
  alter_segment mark_visited s st.

Definition assign_winding (winding : Z) (contour : bool) (seg : Segment)
  : Segment :=
  mkSegment (_point seg) (_handleIn seg) (_handleOut seg) (_visited seg)
            (Some winding) contour (_intersection seg).

(** Modelled from the spec: [segment.getNext()], which Segment.js (not under
    src/) defines: the following segment of the path, the first segment
    after the last one of a closed path, and null at the end of an open
    path (section 4.6, step 8). *)
Definition getNext (st : t) (s : SegRef) : option SegRef :=
  match get_path st (fst s) with
  | Some path =>
      if Nat.ltb (S (snd s)) (length (_segments path)) then
        Some (fst s, S (snd s))
      else if _closed path && Nat.ltb 0 (length (_segments path)) then
        Some (fst s, 0)
      else None
  | None => None
  end.

(** *** Reading and writing segments *)

Lemma get_segment_alter f s s' st :
  get_segment (alter_segment f s st) s' =
  if seg_eqb s s' then option_map f (get_segment st s') else get_segment st s'.
Proof.
  destruct s as [p i], s' as [q j].
  unfold get_segment, get_path, alter_segment, seg_eqb. simpl.
  rewrite nth_error_alter_nth.
  destruct (Nat.eqb_spec p q) as [->|Hpq]; simpl.
  - destruct (nth_error (paths st) q) as [path|]; simpl.
    + rewrite nth_error_alter_nth. now destruct (Nat.eqb i j).
    + now destruct (Nat.eqb i j).
  - reflexivity.
Qed.


End Store.

(** ** PathItem.Boolean.js: the operator tables *)

Inductive Operation : Type := unite | intersect | subtract | exclude.

(** [operator[winding]] for the table [operators[operation]] of lines
    1136-1141; an undefined winding is in no table. *)
Definition operator_lookup (operator : Operation) (winding : option Z) : bool :=
  match operator, winding with
  | unite, Some 1%Z => true
  | intersect, Some 2%Z => true
  | subtract, Some 1%Z => true
  | exclude, Some 1%Z => true
  | _, _ => false
  end.

(** [operator.unite] and the like: line 1175 sets [operator[operation] =
    true] on the table of the operation, and on no other. *)
Definition is_unite (o : Operation) : bool :=
  match o with unite => true | _ => false end.
Definition is_intersect (o : Operation) : bool :=
  match o with intersect => true | _ => false end.
Definition is_subtract (o : Operation) : bool :=
  match o with subtract => true | _ => false end.
Definition is_exclude (o : Operation) : bool :=
  match o with exclude => true | _ => false end.

(** ** PathItem.Boolean.js: [propagateWinding] *)

Module Propagate.

Import Store.

(** An entry of the local array [chain]; a curve is named by the segment it
    was asked from. *)
Record Entry : Type := mkEntry {
  e_segment : SegRef;
  e_curve : SegRef;
  e_length : float
}.

(** What lines 1581-1603 settle before the winding is computed. *)
Record Sampled : Type := mkSampled {
  s_chain : list Entry;
  s_point : Point.t;
  s_hor : bool;
  s_path : ItemRef
}.

Section PropagateWinding.

(** [segment.getCurve()], null when the segment has no curve. *)
Variable getCurve : SegRef -> option SegRef.
(** [curve.getLength()], [curve.getTimeAt(length)],
    [curve.getPointAtTime(t)] and [curve.getTangentAtTime(t).normalize().y]. *)
Variable getLength : SegRef -> float.
Variable getTimeAt : SegRef -> float -> float.
Variable getPointAtTime : SegRef -> float -> Point.t.
Variable tangentY : SegRef -> float -> float.
(** [item.getCurves()]. *)
Variable getCurves : ItemRef -> list Winding.Curve.
Variable solveCubic :
  Winding.Values -> nat -> float -> float -> float -> list float.
Variable getPoint : Winding.Values -> float -> Point.t.
Variable getMonoCurves : Winding.Values -> nat -> list Winding.Values.

(** [getWinding(point, curves, horizontal)] of lines 1491-1574. *)
Definition getWinding (point : Point.t) (curves : list Winding.Curve)
    (horizontal : bool) : Winding.Result :=
  Winding.getWinding solveCubic getPoint getMonoCurves point curves horizontal.

(** [item._getWinding(point, horizontal)] of lines 1830-1832. *)
Definition _getWinding (item : ItemRef) (point : Point.t) (horizontal : bool)
  : Z :=
  Winding.winding (getWinding point (getCurves item) horizontal).

(** Lines 1585-1591: the [do ... while] loop.  Every iteration reads a new
    segment of one path, so their number is bounded by its length. *)
Fixpoint collect (fuel : nat) (st : Store.t) (start segment : SegRef)
    (chain : list Entry) (totalLength : float)
  : outcome (list Entry * float) :=
  match fuel with
  | 0 => OutOfFuel
  | S fuel =>
      _ <- deref (get_segment st segment) ;;
      curve <- deref (getCurve segment) ;;
      let length := getLength curve in
      let chain := chain ++ [mkEntry segment curve length] in
      let totalLength := (totalLength + length)%float in
      match getNext st segment with
      | None => Ok (chain, totalLength)
      | Some next =>
          nseg <- deref (get_segment st next) ;;
          if truthy (_intersection nseg) || seg_eqb next start
          then Ok (chain, totalLength)
          else collect fuel st start next chain totalLength
      end
  end.

Definition path_length (st : Store.t) (p : nat) : nat :=
  match get_path st p with
  | Some path => length (_segments path)
  | None => 0
  end.

(** Lines 1594-1617: the entry that holds the middle of the chain, and the
    length left on its curve. *)
Fixpoint find_entry (chain : list Entry) (length : float)
  : option (Entry * float) :=
  match chain with
  | [] => None
  | entry :: rest =>
      if (length <=? e_length entry)%float then Some (entry, length)
      else find_entry rest (length - e_length entry)%float
  end.

(** Lines 1599-1605: [curve._path], or its parent when that is a compound
    path. *)
Definition owner (st : Store.t) (curve : SegRef) : outcome ItemRef :=
  path <- deref (get_path st (fst curve)) ;;
  Ok (match _parent path with
      | Some c => CompoundItem c
      | None => PathItem (fst curve)
      end).

(** Lines 1581-1605.  When no entry is found [winding] stays undefined and
    line 1621 throws. *)
Definition sample_chain (st : Store.t) (segment : SegRef) : outcome Sampled :=
  '(chain, totalLength) <-
    collect (S (path_length st (fst segment))) st segment segment [] 0 ;;
  '(entry, length) <- deref (find_entry chain (totalLength / 2)%float) ;;
  let curve := e_curve entry in
  let t := getTimeAt curve length in
  let pt := getPointAtTime curve t in
  let hor := (abs (tangentY curve t) <? 0.5)%float in
  path <- owner st curve ;;
  Ok (mkSampled chain pt hor path).

(** Lines 1609-1611: the chain is left out of a subtraction. *)
Definition omitted (operator : Operation) (path1 : ItemRef)
    (path2 : option ItemRef) (s : Sampled) : bool :=
  is_subtract operator
  && match path2 with
     | Some path2 =>
         (item_eqb (s_path s) path1
          && negb (_getWinding path2 (s_point s) (s_hor s) =? 0)%Z)
         || (item_eqb (s_path s) path2
             && (_getWinding path1 (s_point s) (s_hor s) =? 0)%Z)
     | None => false
     end.

(** Lines 1609-1613; [{ winding: 0 }] has no [contour]. *)
Definition chain_winding (operator : Operation) (path1 : ItemRef)
    (path2 : option ItemRef) (curves : list Winding.Curve) (s : Sampled)
  : Winding.Result :=
  if omitted operator path1 path2 s then Winding.mkResult 0 false
  else getWinding (s_point s) curves (s_hor s).

(** Lines 1619-1623. *)
Definition assign (w : Winding.Result) (chain : list Entry) (st : Store.t)
  : Store.t :=
  fold_left
    (fun st e =>
       alter_segment
         (assign_winding (Winding.winding w) (Winding.contour w))
         (e_segment e) st)
    (rev chain) st.

(** Lines 1576-1624. *)
Definition propagateWinding (st : Store.t) (segment : SegRef)
    (path1 : ItemRef) (path2 : option ItemRef) (curves : list Winding.Curve)
    (operator : Operation) : outcome Store.t :=
  s <- sample_chain st segment ;;
  Ok (assign (chain_winding operator path1 path2 curves s) (s_chain s) st).

(** *** The chain is collected within the bound *)

Lemma collect_in_bound st p i0 n :
  path_length st p = n ->
  i0 < n ->
  forall fuel i chain total,
    i < n ->
    (i0 <= i /\ n - 1 - i + i0 < fuel) \/ (i < i0 /\ i0 - 1 - i < fuel) ->
    collect fuel st (p, i0) (p, i) chain total <> OutOfFuel.
Proof.
  intros Hn Hi0. induction fuel as [|fuel IH]; intros i chain total Hi Hm.
  - lia.
  - simpl. destruct (get_segment st (p, i)) as [seg|]; simpl; [|discriminate].
    destruct (getCurve (p, i)) as [curve|]; simpl; [|discriminate].
    unfold getNext, path_length in *. simpl fst; simpl snd.
    destruct (get_path st p) as [path|]; [|discriminate].
    destruct (Nat.ltb_spec (S i) (length (_segments path))) as [Hlt|Hge].
    + destruct (get_segment st (p, S i)) as [nseg|]; simpl; [|discriminate].
      destruct (truthy (_intersection nseg)); simpl; [discriminate|].
      destruct (seg_eqb_spec (p, S i) (p, i0)) as [Heq|Hne]; [discriminate|].
      apply IH; [lia|].
      assert (S i <> i0) by congruence. lia.
    + destruct (_closed path && Nat.ltb 0 (length (_segments path)));
        [|discriminate].
      destruct (get_segment st (p, 0)) as [nseg|]; simpl; [|discriminate].
      destruct (truthy (_intersection nseg)); simpl; [discriminate|].
      destruct (seg_eqb_spec (p, 0) (p, i0)) as [Heq|Hne]; [discriminate|].
      apply IH; [lia|].
      assert (0 <> i0) by congruence. lia.
Qed.

(** The loop of lines 1585-1591 always ends: with a seed that is a segment
    of its path, within as many iterations as the path has segments. *)
Lemma sample_chain_in_bound st segment :
  sample_chain st segment <> OutOfFuel.
Proof.
  unfold sample_chain. destruct segment as [p i0].
  assert (Hc : collect (S (path_length st p)) st (p, i0) (p, i0) [] 0
               <> OutOfFuel).
  { destruct (get_segment st (p, i0)) as [seg|] eqn:Hseg.
    - assert (Hi0 : i0 < path_length st p).
      { unfold get_segment, path_length in *. simpl in Hseg.
        destruct (get_path st p); [|discriminate].
        apply nth_error_Some. congruence. }
      apply (collect_in_bound st p i0 (path_length st p) eq_refl Hi0);
        [exact Hi0 | lia].
    - simpl. rewrite Hseg. discriminate. }
  simpl fst.
  destruct (collect (S (path_length st p)) st (p, i0) (p, i0) [] 0)
    as [[chain total]| |]; simpl; [|discriminate|congruence].
  destruct (find_entry chain (total / 2)) as [[entry len]|]; simpl;
    [|discriminate].
  unfold owner.
  destruct (get_path st (fst (e_curve entry))); simpl; discriminate.
Qed.

(** Every segment of the collected chain is a segment of the store. *)
Lemma collect_segments_exist st start : forall fuel segment chain total res,
  Forall (fun e => get_segment st (e_segment e) <> None) chain ->
  collect fuel st start segment chain total = Ok res ->
  Forall (fun e => get_segment st (e_segment e) <> None) (fst res).
Proof.
  induction fuel as [|fuel IH]; intros segment chain total res Hall Hc.
  - discriminate.
  - simpl in Hc.
    destruct (get_segment st segment) as [seg|] eqn:Hseg; simpl in Hc;
      [|discriminate].
    destruct (getCurve segment) as [curve|]; simpl in Hc; [|discriminate].
    assert (Hall' : Forall (fun e => get_segment st (e_segment e) <> None)
                      (chain ++ [mkEntry segment curve (getLength curve)])).
    { apply Forall_app. split; [exact Hall|].
      constructor; [simpl; congruence | constructor]. }
    destruct (getNext st segment) as [next|].
    + destruct (get_segment st next) as [nseg|]; simpl in Hc; [|discriminate].
      destruct (truthy (_intersection nseg) || seg_eqb next start).
      * inversion Hc; subst. exact Hall'.
      * eapply IH; eassumption.
    + inversion Hc; subst. exact Hall'.
Qed.

(** *** The assignment reaches every segment of the chain *)

Definition assigned (w : Winding.Result) (st : Store.t) (s : SegRef) : Prop :=
  exists seg,
    get_segment st s = Some seg /\
    _winding seg = Some (Winding.winding w) /\
    _contour seg = Winding.contour w.

Definition assign_one (w : Winding.Result) (st : Store.t) (e : Entry)
  : Store.t :=
  alter_segment (assign_winding (Winding.winding w) (Winding.contour w))
                (e_segment e) st.

Lemma assign_one_here w st e :
  get_segment st (e_segment e) <> None ->
  assigned w (assign_one w st e) (e_segment e).
Proof.
  intros Hex. unfold assigned, assign_one. rewrite get_segment_alter.
  destruct (seg_eqb_spec (e_segment e) (e_segment e)) as [_|Hne]; [|easy].
  destruct (get_segment st (e_segment e)) as [seg|]; [|easy].
  eexists. repeat split.
Qed.

Lemma assign_one_keeps w st e s :
  assigned w st s -> assigned w (assign_one w st e) s.
Proof.
  intros [seg [Hs [Hw Hc]]]. unfold assigned, assign_one.
  rewrite get_segment_alter, Hs.
  destruct (seg_eqb (e_segment e) s); eexists; repeat split; eassumption.
Qed.

Lemma assign_one_exists w st e s :
  get_segment st s <> None -> get_segment (assign_one w st e) s <> None.
Proof.
  intros Hex. unfold assign_one. rewrite get_segment_alter.
  destruct (seg_eqb (e_segment e) s); [|exact Hex].
  now destruct (get_segment st s).
Qed.

Lemma fold_assign_keeps w l : forall st s,
  assigned w st s -> assigned w (fold_left (assign_one w) l st) s.
Proof.
  induction l as [|e l IH]; intros st s Hs; simpl; [exact Hs|].
  apply IH. now apply assign_one_keeps.
Qed.

Lemma fold_assign_all w l : forall st,
  Forall (fun e => get_segment st (e_segment e) <> None) l ->
  Forall (fun e => assigned w (fold_left (assign_one w) l st) (e_segment e)) l.
Proof.
  induction l as [|e l IH]; intros st Hall; simpl; [constructor|].
  inversion Hall as [|? ? He Hl]; subst. constructor.
  - apply fold_assign_keeps. now apply assign_one_here.
  - apply IH. eapply Forall_impl; [|exact Hl].
    intros e' He'. now apply assign_one_exists.
Qed.

Lemma assign_all w chain st :
  Forall (fun e => get_segment st (e_segment e) <> None) chain ->
  Forall (fun e => assigned w (assign w chain st) (e_segment e)) chain.
Proof.
  intros Hall. apply Forall_rev in Hall.
  apply (fold_assign_all w) in Hall. apply Forall_rev in Hall.
  now rewrite rev_involutive in Hall.
Qed.

Lemma sample_chain_segments_exist st segment s :
  sample_chain st segment = Ok s ->
  Forall (fun e => get_segment st (e_segment e) <> None) (s_chain s).
Proof.
  unfold sample_chain. intros Hs.
  destruct (collect (S (path_length st (fst segment))) st segment segment [] 0)
    as [[chain total]| |] eqn:Hc; simpl in Hs; try discriminate.
  destruct (find_entry chain (total / 2)) as [[entry len]|]; simpl in Hs;
    [|discriminate].
  destruct (owner st (e_curve entry)); simpl in Hs; try discriminate.
  inversion Hs; subst. simpl.
  apply (collect_segments_exist st segment _ segment [] 0%float
           (chain, total) (Forall_nil _) Hc).
Qed.

(** The chain starts with the seed. *)
Lemma collect_extends st start : forall fuel segment chain total res,
  collect fuel st start segment chain total = Ok res ->
  exists curve len tail, fst res = chain ++ mkEntry segment curve len :: tail.
Proof.
  induction fuel as [|fuel IH]; intros segment chain total res Hc.
  - discriminate.
  - simpl in Hc.
    destruct (get_segment st segment) as [seg|]; simpl in Hc; [|discriminate].
    destruct (getCurve segment) as [curve|]; simpl in Hc; [|discriminate].
    destruct (getNext st segment) as [next|].
    + destruct (get_segment st next) as [nseg|]; simpl in Hc; [|discriminate].
      destruct (truthy (_intersection nseg) || seg_eqb next start).
      * inversion Hc; subst. now exists curve, (getLength curve), [].
      * destruct (IH _ _ _ _ Hc) as [curve' [len' [tail Htail]]].
        exists curve, (getLength curve), (mkEntry next curve' len' :: tail).
        rewrite Htail, <- app_assoc. reflexivity.
    + inversion Hc; subst. now exists curve, (getLength curve), [].
Qed.

Lemma sample_chain_starts_at_seed st segment s :
  sample_chain st segment = Ok s ->
  exists curve len rest, s_chain s = mkEntry segment curve len :: rest.
Proof.
  unfold sample_chain. intros Hs.
  destruct (collect (S (path_length st (fst segment))) st segment segment [] 0)
    as [[chain total]| |] eqn:Hc; simpl in Hs; try discriminate.
  destruct (find_entry chain (total / 2)) as [[entry len]|]; simpl in Hs;
    [|discriminate].
  destruct (owner st (e_curve entry)); simpl in Hs; try discriminate.
  inversion Hs; subst. simpl.
  exact (collect_extends st segment _ segment [] 0%float (chain, total) Hc).
Qed.

(** *** Where the chain is sampled *)







(** *** What the propagator leaves behind *)

(** The segment has a winding that is not undefined. *)
Definition has_winding (st : Store.t) (s : SegRef) : Prop :=
  exists seg, get_segment st s = Some seg /\ _winding seg <> None.

Lemma assign_one_has_winding w st e s :
  has_winding st s -> has_winding (assign_one w st e) s.
Proof.
  intros [seg [Hs Hw]]. unfold has_winding, assign_one.
  rewrite get_segment_alter, Hs.
  destruct (seg_eqb (e_segment e) s); eexists; (split; [reflexivity|]);
    [discriminate | exact Hw].
Qed.

Lemma assign_has_winding w chain st s :
  has_winding st s -> has_winding (assign w chain st) s.
Proof.
  unfold assign. generalize (rev chain) as l. intros l. revert st.
  induction l as [|e l IH]; intros st Hs; [exact Hs|].
  cbn [fold_left]. apply IH. now apply (assign_one_has_winding w st e).
Qed.

(** Only the two winding fields of segments are written. *)
Definition same_but_windings (st st' : Store.t) : Prop :=
  locations st' = locations st /\
  (forall p, option_map (fun path => (_closed path, _overlapsOnly path,
                                      _validOverlapsOnly path, _parent path,
                                      length (_segments path)))
                        (get_path st' p)
             = option_map (fun path => (_closed path, _overlapsOnly path,
                                        _validOverlapsOnly path, _parent path,
                                        length (_segments path)))
                          (get_path st p)) /\
  (forall s, option_map (fun seg => (_point seg, _handleIn seg, _handleOut seg,
                                     _visited seg, _intersection seg))
                        (get_segment st' s)
             = option_map (fun seg => (_point seg, _handleIn seg,
                                       _handleOut seg, _visited seg,
                                       _intersection seg))
                          (get_segment st s)).

Lemma same_but_windings_refl st : same_but_windings st st.
Proof. repeat split. Qed.

Lemma same_but_windings_trans st1 st2 st3 :
  same_but_windings st1 st2 -> same_but_windings st2 st3 ->
  same_but_windings st1 st3.
Proof.
  intros [L1 [P1 S1]] [L2 [P2 S2]]. repeat split.
  - congruence.
  - intros p. now rewrite P2, P1.
  - intros s. now rewrite S2, S1.
Qed.

Lemma assign_one_same w st e : same_but_windings st (assign_one w st e).
Proof.
  unfold assign_one. repeat split.
  - intros p. unfold alter_segment, get_path. cbn [paths].
    rewrite nth_error_alter_nth.
    destruct (Nat.eqb (fst (e_segment e)) p); [|reflexivity].
    destruct (nth_error (paths st) p) as [path|]; [|reflexivity].
    cbn. now rewrite length_alter_nth.
  - intros s. rewrite get_segment_alter.
    destruct (seg_eqb (e_segment e) s); [|reflexivity].
    now destruct (get_segment st s).
Qed.

Lemma assign_same w chain st : same_but_windings st (assign w chain st).
Proof.
  unfold assign. generalize (rev chain) as l. intros l. revert st.
  induction l as [|e l IH]; intros st; [apply same_but_windings_refl|].
  cbn [fold_left].
  eapply same_but_windings_trans; [|apply IH].
  apply (assign_one_same w st e).
Qed.

(** A run of [propagateWinding] gives its seed a winding, takes none away,
    and writes nothing but windings. *)
Lemma propagateWinding_leaves st segment path1 path2 curves operator st' :
  propagateWinding st segment path1 path2 curves operator = Ok st' ->
  has_winding st' segment /\
  (forall s, has_winding st s -> has_winding st' s) /\
  same_but_windings st st'.
Proof.
  unfold propagateWinding. intros H. bind_cases H. rename a into s.
  inversion H; subst. clear H.
  set (w := chain_winding operator path1 path2 curves s).
  repeat split.
  - destruct (sample_chain_starts_at_seed st segment s E)
      as [curve [len [rest Hchain]]].
    pose proof (assign_all w (s_chain s) st
                  (sample_chain_segments_exist st segment s E)) as Hall.
    rewrite Forall_forall in Hall.
    destruct (Hall (mkEntry segment curve len)) as [seg [Hg [Hw _]]];
      [rewrite Hchain; now left|].
    cbn [e_segment] in Hg.
    exists seg. split; [exact Hg | congruence].
  - intros s0. apply assign_has_winding.
  - apply assign_same.
  - apply assign_same.
  - apply assign_same.
Qed.

End PropagateWinding.

End Propagate.

(** ** PathItem.Boolean.js: [tracePaths] *)

Module Trace.

Import Store.

(** [new Segment(point, handleIn, handleOut)]; a handle that is not given
    (undefined or null) is [None]. *)
Record NewSegment : Type := mkNewSegment {
  ns_point : Point.t;
  ns_handleIn : option Point.t;
  ns_handleOut : option Point.t
}.

(** A path of the result. *)
Record NewPath : Type := mkNewPath {
  np_segments : list NewSegment;
  np_closed : bool
}.

(** [path.clone(false)]. *)
Definition clone (path : Path) : NewPath :=
  mkNewPath
    (map (fun s => mkNewSegment (_point s) (Some (_handleIn s))
                     (Some (_handleOut s)))
         (_segments path))
    (_closed path).

(** The variables that one iteration of the inner loop hands to the next:
    [start] and [otherStart] of [tracePaths], and [path], [finished], [seg],
    [inter] and [handleIn] of the body of its outer loop. *)
Record Vars : Type := mkVars {
  v_start : JsRef SegRef;
  v_otherStart : JsRef SegRef;
  v_path : option (list NewSegment);
  v_finished : bool;
  v_seg : SegRef;
  v_inter : JsRef LocRef;
  v_handleIn : option Point.t
}.

(** What [tracePaths] leaves behind: the array [paths] it returns, the open
    paths it reported with [console.error], the store with its [_visited]
    marks, and [handleIn], a [var] that keeps its value from one iteration
    of the outer loop to the next. *)
Record Traced : Type := mkTraced {
  tr_paths : list NewPath;
  tr_errors : list NewPath;
  tr_store : Store.t;
  tr_handleIn : option Point.t
}.

(** How an iteration of the inner loop ends. *)
Inductive Step : Type :=
| Break (st : Store.t) (v : Vars)
| Continue (st : Store.t) (v : Vars).

(** A number as a truth value: neither zero nor NaN. *)
Definition number_truthy (a : float) : bool :=
  negb ((a =? 0)%float || is_nan a).

Section TracePaths.

(** [path.getArea()]; an open path is asked with [getArea(true)], that is
    as if it were closed. *)
Variable getArea : NewPath -> float.
(** [Numerical.isZero]. *)
Variable isZero : float -> bool.
(** [Base.equals(path1._segments, path2._segments)], by the indices of the
    two paths. *)
Variable Base_equals : Store.t -> nat -> nat -> bool.
(** The argument [operator]; undefined when [resolveCrossings] calls. *)
Variable operator : option Operation.

(** Lines 1641-1650. *)
Definition isValid (st : Store.t) (seg : JsRef SegRef) (excludeContour : bool)
  : outcome bool :=
  match seg with
  | obj s =>
      segr <- deref (get_segment st s) ;;
      Ok (negb (_visited segr)
          && match operator with
             | None => true
             | Some op =>
                 operator_lookup op (_winding segr)
                 || (negb excludeContour && is_unite op && _contour segr)
             end)
  | _ => Ok false
  end.

(** Lines 1652-1654. *)
Definition isStart (v : Vars) (seg : JsRef SegRef) : bool :=
  ref_eqb seg_eqb seg (v_start v) || ref_eqb seg_eqb seg (v_otherStart v).

Definition next_ref (st : Store.t) (s : SegRef) : JsRef SegRef :=
  match getNext st s with
  | Some n => obj n
  | None => null
  end.

(** Lines 1663-1676: whether the entry [inter] of the chain is a match. *)
Definition is_best (st : Store.t) (v : Vars) (exclude : SegRef)
    (inter : LocRef) : outcome bool :=
  loc <- deref (get_location st inter) ;;
  match _segment loc with
  | obj seg =>
      segr <- deref (get_segment st seg) ;;
      let nextSeg := next_ref st seg in
      if negb (seg_eqb seg exclude) then
        if isStart v (obj seg) || isStart v nextSeg then Ok true
        else if _visited segr then Ok false
        else
          match nextSeg with
          | obj n =>
              nsegr <- deref (get_segment st n) ;;
              if _visited nsegr then Ok false
              else
                match operator with
                | None => Ok true
                | Some _ =>
                    valid <- isValid st (obj seg) false ;;
                    if negb valid then Ok false
                    else
                      validNext <- isValid st nextSeg false ;;
                      if validNext then Ok true
                      else
                        match _intersection nsegr with
                        | obj nextInter =>
                            nloc <- deref (get_location st nextInter) ;;
                            isValid st (_segment nloc) false
                        | _ => Ok false
                        end
                end
          | _ => Throw
          end
      else Ok false
  | _ => Throw
  end.

(** Lines 1662-1681: the loop along the chain. *)
Fixpoint first_best (st : Store.t) (v : Vars) (exclude : SegRef)
    (chain : list LocRef) : outcome (option LocRef) :=
  match chain with
  | [] => Ok None
  | inter :: rest =>
      best <- is_best st v exclude inter ;;
      if best then Ok (Some inter) else first_best st v exclude rest
  end.

(** Lines 1659-1682. *)
Definition findBestIntersection (st : Store.t) (v : Vars) (inter : LocRef)
    (exclude : SegRef) : outcome (option LocRef) :=
  loc <- deref (get_location st inter) ;;
  match _next_chain loc with
  | [] => Ok (Some inter)
  | chain => first_best st v exclude (inter :: chain)
  end.

(** Lines 1725-1727: the intersection picked, and its segment [other]. *)
Definition pick (st : Store.t) (v : Vars)
  : outcome (JsRef LocRef * JsRef SegRef) :=
  match v_inter v with
  | obj i =>
      best <- findBestIntersection st v i (v_seg v) ;;
      let inter := match best with Some b => b | None => i end in
      loc <- deref (get_location st inter) ;;
      Ok (obj inter, _segment loc)
  | undefined => Ok (undefined, undefined)
  | null => Ok (null, null)
  end.

Definition marks_on_switch : bool :=
  match operator with
  | Some op => is_intersect op || is_subtract op
  | None => false
  end.

(** Lines 1728-1749: the segment the tracer goes on with, and whether the
    path is finished. *)
Definition switch (st : Store.t) (v : Vars) (other : JsRef SegRef)
  : outcome (Store.t * SegRef * bool) :=
  let seg := v_seg v in
  if isStart v (obj seg) then Ok (st, seg, true)
  else
    match other with
    | obj o =>
        if isStart v other then Ok (st, o, true)
        else
          validSeg <- isValid st (obj seg) true ;;
          validOther <- isValid st other validSeg ;;
          if validOther then
            Ok (if marks_on_switch then set_visited seg st else st, o, false)
          else Ok (st, seg, false)
    | _ => Ok (st, seg, false)
    end.

(** Lines 1722-1782: one iteration of [while (true)]. *)
Definition iteration (st : Store.t) (v : Vars) : outcome Step :=
  '(inter, other) <- pick st v ;;
  '(st, seg, finished) <- switch st v other ;;
  segr <- deref (get_segment st seg) ;;
  if finished || _visited segr then
    Ok (Break (set_visited seg st)
          (mkVars (v_start v) (v_otherStart v) (v_path v) finished seg inter
                  (v_handleIn v)))
  else
    path <- deref (get_path st (fst seg)) ;;
    valid <- isValid st (obj seg) false ;;
    if _validOverlapsOnly path && negb valid then
      Ok (Break st
            (mkVars (v_start v) (v_otherStart v) (v_path v) finished seg inter
                    (v_handleIn v)))
    else
      let '(segments, start, otherStart) :=
        match v_path v with
        | Some segments => (segments, v_start v, v_otherStart v)
        | None => ([], obj seg, other)
        end in
      let next := getNext st seg in
      let added :=
        mkNewSegment (_point segr) (v_handleIn v)
          (match next with Some _ => Some (_handleOut segr) | None => None end) in
      let st := set_visited seg st in
      let seg' := match next with Some n => n | None => (fst seg, 0) end in
      handleIn <-
        match next with
        | Some n => nsegr <- deref (get_segment st n) ;; Ok (Some (_handleIn nsegr))
        | None => Ok None
        end ;;
      segr' <- deref (get_segment st seg') ;;
      Ok (Continue st
            (mkVars start otherStart (Some (segments ++ [added])) finished seg'
                    (_intersection segr') handleIn)).

(** [while (true)].  Every iteration that does not break marks a segment
    that was not visited, so their number is bounded by the segments. *)
Fixpoint trace_loop (fuel : nat) (st : Store.t) (v : Vars)
  : outcome (Store.t * Vars) :=
  match fuel with
  | 0 => OutOfFuel
  | S fuel =>
      step <- iteration st v ;;
      match step with
      | Break st v => Ok (st, v)
      | Continue st v => trace_loop fuel st v
      end
  end.

Definition unvisited_segment (s : Segment) : nat :=
  if _visited s then 0 else 1.

Definition unvisited_in (path : Path) : nat :=
  list_sum (map unvisited_segment (_segments path)).

(** The number of segments that are not visited. *)
Definition unvisited (st : Store.t) : nat :=
  list_sum (map unvisited_in (paths st)).

(** [path.firstSegment.setHandleIn(handleIn)]. *)
Definition set_first_handleIn (segments : list NewSegment)
    (handleIn : option Point.t) : list NewSegment :=
  match segments with
  | first :: rest =>
      mkNewSegment (ns_point first) handleIn (ns_handleOut first) :: rest
  | [] => []
  end.

(** Lines 1783-1814: what becomes of the path when the inner loop is left.
    Returns the path pushed to [paths] and the path reported, if any. *)
Definition conclude (v : Vars) : outcome (option NewPath * option NewPath) :=
  if v_finished v then
    match v_path v with
    | Some (first :: rest) =>
        let path :=
          mkNewPath (set_first_handleIn (first :: rest) (v_handleIn v)) true in
        if Nat.ltb 8 (length (np_segments path)) || negb (isZero (getArea path))
        then Ok (Some path, None)
        else Ok (None, None)
    | _ => Throw
    end
  else
    match v_path v with
    | Some segments =>
        let area := getArea (mkNewPath segments true) in
        if (Numerical.GEOMETRIC_EPSILON <=? abs area)%float
        then Ok (None, Some (mkNewPath segments false))
        else Ok (None, None)
    | None => Ok (None, None)
    end.

(** [segments1[j]._visited = segments2[j]._visited = true] for every [j]
    below [segments1.length]. *)
Fixpoint mark_both (p1 p2 : nat) (j count : nat) (st : Store.t)
  : outcome Store.t :=
  match count with
  | 0 => Ok st
  | S count =>
      _ <- deref (get_segment st (p2, j)) ;;
      mark_both p1 p2 (S j) count
        (set_visited (p1, j) (set_visited (p2, j) st))
  end.

(** Lines 1693-1710: two paths that overlap all along. *)
Definition overlapping (st : Store.t) (paths : list NewPath) (seg : SegRef)
    (inter : JsRef LocRef) : outcome (Store.t * list NewPath) :=
  segr <- deref (get_segment st seg) ;;
  path1 <- deref (get_path st (fst seg)) ;;
  if negb (_visited segr) && _overlapsOnly path1 then
    match inter with
    | obj i =>
        loc <- deref (get_location st i) ;;
        match _segment loc with
        | obj other =>
            _ <- deref (get_path st (fst other)) ;;
            if Base_equals st (fst seg) (fst other) then
              match operator with
              | Some op =>
                  let paths :=
                    if (is_unite op || is_intersect op)
                       && number_truthy (getArea (clone path1))
                    then paths ++ [clone path1] else paths in
                  st <- mark_both (fst seg) (fst other) 0
                          (length (_segments path1)) st ;;
                  Ok (st, paths)
              | None => Throw
              end
            else Ok (st, paths)
        | _ => Throw
        end
    | _ => Throw
    end
  else Ok (st, paths).

(** Lines 1718-1720: the segment is no start of a path. *)
Definition skipped (st : Store.t) (seg : SegRef) (inter : JsRef LocRef)
  : outcome bool :=
  valid <- isValid st (obj seg) true ;;
  if negb valid then Ok true
  else
    path <- deref (get_path st (fst seg)) ;;
    if negb (_validOverlapsOnly path) then
      match inter with
      | obj i => loc <- deref (get_location st i) ;; Ok (_overlap loc)
      | _ => Ok false
      end
    else Ok false.

Definition push {A : Type} (l : list A) (x : option A) : list A :=
  match x with
  | Some a => l ++ [a]
  | None => l
  end.

(** Lines 1685-1814: the body of the outer loop for [seg = segments[i]]. *)
Definition trace_from (tr : Traced) (seg : SegRef) : outcome Traced :=
  let st := tr_store tr in
  segr <- deref (get_segment st seg) ;;
  let inter := _intersection segr in
  '(st, paths) <- overlapping st (tr_paths tr) seg inter ;;
  skip <- skipped st seg inter ;;
  if skip then Ok (mkTraced paths (tr_errors tr) st (tr_handleIn tr))
  else
    '(st, v) <-
      trace_loop (S (unvisited st)) st
        (mkVars null null None false seg inter (tr_handleIn tr)) ;;
    '(pushed, reported) <- conclude v ;;
    Ok (mkTraced (push paths pushed) (push (tr_errors tr) reported) st
                 (v_handleIn v)).

Fixpoint trace_all (tr : Traced) (segments : list SegRef) : outcome Traced :=
  match segments with
  | [] => Ok tr
  | seg :: rest => tr <- trace_from tr seg ;; trace_all tr rest
  end.

(** Lines 1636-1817. *)
Definition tracePaths (st : Store.t) (segments : list SegRef)
  : outcome Traced :=
  trace_all (mkTraced [] [] st None) segments.

(** *** The inner loop ends *)

Lemma unvisited_set_visited s st :
  unvisited (set_visited s st)
  + match get_segment st s with
    | Some seg => unvisited_segment seg
    | None => 0
    end
  = unvisited st.
Proof.
  destruct s as [p i]. unfold unvisited, set_visited, alter_segment. simpl.
  pose proof (list_sum_alter_nth unvisited_in
                (alter_segments (alter_nth mark_visited i)) p (paths st)) as H.
  unfold get_segment, get_path. simpl.
  destruct (nth_error (paths st) p) as [path|]; [|lia].
  pose proof (list_sum_alter_nth unvisited_segment mark_visited i
                (_segments path)) as H'.
  assert (E1 : unvisited_in (alter_segments (alter_nth mark_visited i) path)
               = list_sum (map unvisited_segment
                             (alter_nth mark_visited i (_segments path))))
    by reflexivity.
  assert (E2 : unvisited_in path
               = list_sum (map unvisited_segment (_segments path)))
    by reflexivity.
  destruct (nth_error (_segments path) i) as [seg|].
  - assert (E3 : unvisited_segment (mark_visited seg) = 0) by reflexivity.
    lia.
  - lia.
Qed.

Lemma unvisited_set_visited_le s st :
  unvisited (set_visited s st) <= unvisited st.
Proof. pose proof (unvisited_set_visited s st). lia. Qed.

Lemma unvisited_set_visited_lt s st seg :
  get_segment st s = Some seg -> _visited seg = false ->
  unvisited (set_visited s st) < unvisited st.
Proof.
  intros Hs Hv. pose proof (unvisited_set_visited s st) as H.
  rewrite Hs in H. unfold unvisited_segment in H. rewrite Hv in H. lia.
Qed.

Lemma switch_unvisited st v other st' seg fin :
  switch st v other = Ok (st', seg, fin) -> unvisited st' <= unvisited st.
Proof.
  unfold switch. intros H.
  destruct (isStart v (obj (v_seg v))); [inversion H; subst; lia|].
  destruct other as [| |o]; try (inversion H; subst; lia).
  destruct (isStart v (obj o)); [inversion H; subst; lia|].
  bind_cases H. bind_cases H.
  match type of H with (if ?b then _ else _) = _ => destruct b end;
    [|inversion H; subst; lia].
  destruct marks_on_switch; inversion H; subst;
    [apply unvisited_set_visited_le | lia].
Qed.

(** An iteration that does not leave the loop has one segment less to
    visit. *)
Lemma iteration_continue_decreases st v st' v' :
  iteration st v = Ok (Continue st' v') -> unvisited st' < unvisited st.
Proof.
  unfold iteration. intros H.
  bind_cases H. destruct a as [inter other].
  bind_cases H. destruct a as [[st1 seg] fin].
  apply switch_unvisited in E0.
  bind_cases H. rename a into segr.
  destruct (_visited segr) eqn:Hvis.
  { rewrite orb_true_r in H. discriminate. }
  rewrite orb_false_r in H. destruct fin; [discriminate|].
  bind_cases H. rename a into path.
  bind_cases H. rename a into valid.
  destruct (_validOverlapsOnly path && negb valid); [discriminate|].
  destruct (match v_path v with
            | Some segments => (segments, v_start v, v_otherStart v)
            | None => ([], obj seg, other)
            end) as [[segments start] otherStart].
  assert (Hlt : unvisited (set_visited seg st1) < unvisited st1)
    by (eapply unvisited_set_visited_lt; [apply deref_Ok|]; eassumption).
  bind_cases H. bind_cases H.
  inversion H; subst. lia.
Qed.

Lemma isValid_bounded st seg excludeContour :
  bounded (isValid st seg excludeContour).
Proof. unfold isValid. bounded_with fail. Qed.

Lemma is_best_bounded st v exclude inter :
  bounded (is_best st v exclude inter).
Proof. unfold is_best. bounded_with ltac:(apply isValid_bounded). Qed.

Lemma first_best_bounded st v exclude chain :
  bounded (first_best st v exclude chain).
Proof.
  induction chain as [|inter rest IH]; cbn [first_best].
  - apply bounded_Ok.
  - bounded_with ltac:(first [apply is_best_bounded | exact IH]).
Qed.

Lemma pick_bounded st v : bounded (pick st v).
Proof.
  unfold pick, findBestIntersection.
  bounded_with ltac:(apply first_best_bounded).
Qed.

Lemma switch_bounded st v other : bounded (switch st v other).
Proof. unfold switch. bounded_with ltac:(apply isValid_bounded). Qed.

Lemma iteration_bounded st v : bounded (iteration st v).
Proof.
  unfold iteration.
  bounded_with ltac:(first [ apply pick_bounded | apply switch_bounded
                           | apply isValid_bounded ]).
Qed.

(** The inner loop ends within the bound it is given: as many iterations as
    there are segments left to visit, and one more to break. *)
Lemma trace_loop_bounded : forall fuel st v,
  unvisited st < fuel -> bounded (trace_loop fuel st v).
Proof.
  induction fuel as [|fuel IH]; intros st v Hlt; [lia|]. cbn [trace_loop].
  pose proof (iteration_bounded st v) as Hb.
  destruct (iteration st v) as [[st' v'|st' v']| |] eqn:Hit; cbn [bind];
    [apply bounded_Ok | | apply bounded_Throw | now elim Hb].
  apply IH. apply iteration_continue_decreases in Hit. lia.
Qed.

(** *** What reaches the result *)

(** A path pushed after the inner loop: closed, and either of more than
    eight segments or of an area that [isZero] rejects. *)
Definition traced_ok (p : NewPath) : Prop :=
  np_closed p = true /\
  (8 < length (np_segments p) \/ isZero (getArea p) = false).

(** A path reported with [console.error]: open, and of an area of at least
    [GEOMETRIC_EPSILON] when closed. *)
Definition reported_ok (p : NewPath) : Prop :=
  np_closed p = false /\
  (Numerical.GEOMETRIC_EPSILON <=? abs (getArea (mkNewPath (np_segments p) true)))%float
  = true.

Lemma conclude_spec v pushed reported :
  conclude v = Ok (pushed, reported) ->
  (forall p, pushed = Some p -> v_finished v = true /\ traced_ok p) /\
  (forall q, reported = Some q -> v_finished v = false /\ reported_ok q).
Proof.
  unfold conclude. intros H.
  destruct (v_finished v).
  - destruct (v_path v) as [[|first rest]|]; try discriminate.
    match type of H with
    | (if ?c then _ else _) = _ => destruct c eqn:Hc
    end; inversion H; subst; (split; [|discriminate]); [|discriminate].
    intros p Hp. inversion Hp; subst. split; [reflexivity|].
    split; [reflexivity|].
    apply orb_true_iff in Hc. destruct Hc as [Hc|Hc].
    + left. now apply Nat.ltb_lt in Hc.
    + right. now apply negb_true_iff in Hc.
  - destruct (v_path v) as [segments|].
    + match type of H with
      | (if ?c then _ else _) = _ => destruct c eqn:Hc
      end; inversion H; subst; (split; [discriminate|]); [|discriminate].
      intros q Hq. inversion Hq; subst. repeat split. exact Hc.
    + inversion H; subst. split; discriminate.
Qed.

(** An unfinished path is never pushed; it is reported exactly when the
    magnitude of its area reaches [GEOMETRIC_EPSILON]. *)
Lemma conclude_unfinished v segments :
  v_finished v = false -> v_path v = Some segments ->
  conclude v =
  Ok (None,
      if (Numerical.GEOMETRIC_EPSILON
          <=? abs (getArea (mkNewPath segments true)))%float
      then Some (mkNewPath segments false) else None).
Proof.
  intros Hf Hp. unfold conclude. rewrite Hf, Hp.
  now destruct (Numerical.GEOMETRIC_EPSILON
                <=? abs (getArea (mkNewPath segments true)))%float.
Qed.

Lemma mark_both_bounded p1 p2 : forall count j st,
  bounded (mark_both p1 p2 j count st).
Proof.
  induction count as [|count IH]; intros j st; cbn [mark_both].
  - apply bounded_Ok.
  - bounded_with ltac:(apply IH).
Qed.

Lemma overlapping_bounded st paths seg inter :
  bounded (overlapping st paths seg inter).
Proof. unfold overlapping. bounded_with ltac:(apply mark_both_bounded). Qed.

Lemma skipped_bounded st seg inter : bounded (skipped st seg inter).
Proof. unfold skipped. bounded_with ltac:(apply isValid_bounded). Qed.

Lemma conclude_bounded v : bounded (conclude v).
Proof. unfold conclude. bounded_with fail. Qed.

Lemma trace_from_bounded tr seg : bounded (trace_from tr seg).
Proof.
  unfold trace_from.
  bounded_with ltac:(first [ apply overlapping_bounded | apply skipped_bounded
                           | apply conclude_bounded
                           | apply trace_loop_bounded; lia ]).
Qed.

Lemma push_good {P : NewPath -> Prop} l x :
  Forall P l -> (forall p, x = Some p -> P p) -> Forall P (push l x).
Proof.
  intros Hl Hx. destruct x as [p|]; simpl; [|exact Hl].
  apply Forall_app. split; [exact Hl|]. constructor; [now apply Hx|constructor].
Qed.

(** *** Switching at a crossing under exclude *)

Lemma operator_lookup_exclude w :
  operator_lookup exclude w = true <-> w = Some 1%Z.
Proof.
  split; [|now intros ->].
  destruct w as [[|[p|p|]|p]|]; simpl; congruence.
Qed.

(** Lines 1728-1749 under exclude, on any store.  A segment is valid
    exactly when it is not visited and its winding is 1.  The tracer ends
    the path when it stands on a start segment; otherwise it switches to the
    partner segment when that is a start segment (and ends the path) or when
    it is valid; otherwise it stays on its segment.  No segment is marked on
    the way. *)
Lemma switch_under_exclude st v o segr osegr :
  operator = Some exclude ->
  get_segment st (v_seg v) = Some segr ->
  get_segment st o = Some osegr ->
  switch st v (obj o) =
    Ok (st,
        if isStart v (obj (v_seg v)) then v_seg v
        else if isStart v (obj o)
                || (negb (_visited osegr)
                    && operator_lookup exclude (_winding osegr))
             then o else v_seg v,
        isStart v (obj (v_seg v)) || isStart v (obj o)) /\
  (forall excludeContour,
     isValid st (obj o) excludeContour =
     Ok (negb (_visited osegr) && operator_lookup exclude (_winding osegr))).
Proof.
  intros Hop Hseg Ho.
  assert (Hv : forall s sr ec, get_segment st s = Some sr ->
             isValid st (obj s) ec =
             Ok (negb (_visited sr) && operator_lookup exclude (_winding sr))).
  { intros s sr ec Hs. unfold isValid. rewrite Hs, Hop. cbn [deref bind].
    cbn [is_unite]. now rewrite andb_false_r, andb_false_l, orb_false_r. }
  split; [|intros ec; now apply Hv].
  unfold switch.
  destruct (isStart v (obj (v_seg v))); [reflexivity|].
  destruct (isStart v (obj o)); [reflexivity|].
  rewrite (Hv _ _ true Hseg). cbn [bind]. rewrite (Hv _ _ _ Ho). cbn [bind].
  unfold marks_on_switch. rewrite Hop. cbn [is_intersect is_subtract orb].
  now destruct (negb (_visited osegr)
                && operator_lookup exclude (_winding osegr)).
Qed.

(** *** What the tracer writes *)

Definition unmark (seg : Segment) : Segment :=
  mkSegment (_point seg) (_handleIn seg) (_handleOut seg) false
            (_winding seg) (_contour seg) (_intersection seg).

(** The store with every [_visited] mark taken off. *)
Definition unmarked (st : Store.t) : Store.t :=
  Store.mk (map (alter_segments (map unmark)) (paths st)) (locations st).

Definition visited_in (st : Store.t) (s : SegRef) : Prop :=
  exists seg, get_segment st s = Some seg /\ _visited seg = true.

(** From [st] to [st'] nothing was written but [_visited] marks, and none
    was taken off. *)
Definition marks_only (st st' : Store.t) : Prop :=
  unmarked st' = unmarked st /\ forall s, visited_in st s -> visited_in st' s.

Lemma map_alter_nth_same {A B : Type} (f : A -> B) (g : A -> A) i l :
  (forall x, f (g x) = f x) -> map f (alter_nth g i l) = map f l.
Proof.
  intros Hfg. revert i. induction l as [|x l IH]; intros [|i]; simpl;
    try reflexivity.
  - now rewrite Hfg.
  - now rewrite IH.
Qed.

Lemma unmarked_set_visited s st : unmarked (set_visited s st) = unmarked st.
Proof.
  unfold unmarked, set_visited, alter_segment. cbn [paths locations].
  f_equal. apply map_alter_nth_same. intros path.
  unfold alter_segments. cbn. f_equal.
  now apply map_alter_nth_same.
Qed.

Lemma visited_in_set_visited s' st s :
  visited_in st s -> visited_in (set_visited s' st) s.
Proof.
  intros [seg [Hs Hv]]. unfold visited_in, set_visited.
  rewrite get_segment_alter, Hs.
  destruct (seg_eqb s' s); eexists; (split; [reflexivity|]);
    [reflexivity | exact Hv].
Qed.

Lemma marks_only_refl st : marks_only st st.
Proof. split; [reflexivity | auto]. Qed.

Lemma marks_only_trans st1 st2 st3 :
  marks_only st1 st2 -> marks_only st2 st3 -> marks_only st1 st3.
Proof.
  intros [H1 V1] [H2 V2]. split; [congruence | auto].
Qed.

Lemma marks_only_set_visited s st : marks_only st (set_visited s st).
Proof.
  split; [apply unmarked_set_visited | apply visited_in_set_visited].
Qed.

Lemma switch_marks_only st v other st' seg fin :
  switch st v other = Ok (st', seg, fin) -> marks_only st st'.
Proof.
  unfold switch. intros H.
  destruct (isStart v (obj (v_seg v)));
    [inversion H; subst; apply marks_only_refl|].
  destruct other as [| |o];
    try (inversion H; subst; apply marks_only_refl).
  destruct (isStart v (obj o)); [inversion H; subst; apply marks_only_refl|].
  bind_cases H. bind_cases H.
  match type of H with (if ?b then _ else _) = _ => destruct b end;
    [|inversion H; subst; apply marks_only_refl].
  destruct marks_on_switch; inversion H; subst;
    [apply marks_only_set_visited | apply marks_only_refl].
Qed.

Definition path_length (v : Vars) : nat :=
  match v_path v with
  | Some segments => length segments
  | None => 0
  end.

(** One turn of the inner loop: it writes marks only; when it goes on it
    has added one segment to the path. *)
Lemma iteration_step st v step :
  iteration st v = Ok step ->
  match step with
  | Break st' v' => marks_only st st' /\ path_length v' = path_length v
  | Continue st' v' =>
      marks_only st st' /\ path_length v' = S (path_length v)
  end.
Proof.
  unfold iteration. intros H.
  bind_cases H. destruct a as [inter other].
  bind_cases H. destruct a as [[st1 seg] fin].
  apply switch_marks_only in E0.
  bind_cases H. rename a into segr.
  destruct (fin || _visited segr).
  { inversion H; subst. split; [|reflexivity].
    eapply marks_only_trans; [exact E0 | apply marks_only_set_visited]. }
  bind_cases H. rename a into path.
  bind_cases H. rename a into valid.
  destruct (_validOverlapsOnly path && negb valid).
  { inversion H; subst. split; [exact E0 | reflexivity]. }
  unfold path_length.
  destruct (v_path v) as [segments|];
    bind_cases H; bind_cases H; inversion H; subst; cbn [v_path];
    (split; [eapply marks_only_trans;
               [exact E0 | apply marks_only_set_visited]
            | try rewrite length_app; simpl; lia]).
Qed.

Lemma trace_loop_conserves : forall fuel st v st' v',
  trace_loop fuel st v = Ok (st', v') ->
  marks_only st st' /\
  path_length v' + unvisited st' <= path_length v + unvisited st.
Proof.
  induction fuel as [|fuel IH]; intros st v st' v' H; [discriminate|].
  cbn [trace_loop] in H. bind_cases H.
  pose proof (iteration_step st v a E) as Hstep.
  destruct a as [st1 v1|st1 v1].
  - inversion H; subst. destruct Hstep as [Hm Hp]. split; [exact Hm|].
    assert (unvisited st' <= unvisited st).
    { unfold iteration in E.
      bind_cases E. destruct a as [inter other].
      bind_cases E. destruct a as [[st2 seg] fin].
      apply switch_unvisited in E1.
      bind_cases E.
      destruct (fin || _visited a).
      - inversion E; subst.
        pose proof (unvisited_set_visited_le seg st2). lia.
      - bind_cases E. bind_cases E.
        destruct (_validOverlapsOnly a0 && negb a1).
        + inversion E; subst. lia.
        + destruct (match v_path v with
                    | Some segments => (segments, v_start v, v_otherStart v)
                    | None => ([], obj seg, other)
                    end) as [[segments start] otherStart].
          bind_cases E. bind_cases E. discriminate. }
    lia.
  - destruct Hstep as [Hm Hp].
    apply iteration_continue_decreases in E.
    destruct (IH _ _ _ _ H) as [Hm' Hle].
    split; [eapply marks_only_trans; eassumption | lia].
Qed.

Lemma mark_both_marks_only p1 p2 : forall count j st st',
  mark_both p1 p2 j count st = Ok st' -> marks_only st st'.
Proof.
  induction count as [|count IH]; intros j st st' H; cbn [mark_both] in H.
  - inversion H; subst. apply marks_only_refl.
  - bind_cases H. apply IH in H.
    eapply marks_only_trans; [|exact H].
    eapply marks_only_trans; apply marks_only_set_visited.
Qed.

Lemma overlapping_marks_only st paths seg inter st' paths' :
  overlapping st paths seg inter = Ok (st', paths') -> marks_only st st'.
Proof.
  unfold overlapping. intros H.
  bind_cases H. rename a into segr. bind_cases H. rename a into path1.
  destruct (negb (_visited segr) && _overlapsOnly path1);
    [|inversion H; subst; apply marks_only_refl].
  destruct inter as [| |i]; try discriminate.
  bind_cases H. rename a into loc.
  destruct (_segment loc) as [| |other]; try discriminate.
  bind_cases H.
  destruct (Base_equals st (fst seg) (fst other));
    [|inversion H; subst; apply marks_only_refl].
  destruct operator as [op|]; [|discriminate].
  bind_cases H. inversion H; subst.
  eapply mark_both_marks_only; eassumption.
Qed.

Lemma trace_from_marks_only tr seg tr' :
  trace_from tr seg = Ok tr' -> marks_only (tr_store tr) (tr_store tr').
Proof.
  unfold trace_from. intros H.
  bind_cases H. bind_cases H. destruct a0 as [st paths].
  apply overlapping_marks_only in E0.
  bind_cases H. destruct a0.
  - inversion H; subst. exact E0.
  - bind_cases H. destruct a0 as [st1 v].
    bind_cases H. destruct a0 as [pushed reported].
    inversion H; subst. cbn [tr_store].
    apply trace_loop_conserves in E2. destruct E2 as [Hm _].
    eapply marks_only_trans; eassumption.
Qed.

Lemma trace_all_marks_only segments : forall tr tr',
  trace_all tr segments = Ok tr' -> marks_only (tr_store tr) (tr_store tr').
Proof.
  induction segments as [|seg rest IH]; intros tr tr' H; cbn [trace_all] in H.
  - inversion H; subst. apply marks_only_refl.
  - bind_cases H. apply trace_from_marks_only in E. apply IH in H.
    eapply marks_only_trans; eassumption.
Qed.

(** X11.  [tracePaths] writes nothing into the segments and paths it is
    given but [_visited] marks, and it only ever sets them: but for the
    marks the store is as it was, and a segment that was visited before is
    visited after. *)
Theorem tracePaths_only_sets_marks st segments tr :
  tracePaths st segments = Ok tr ->
  unmarked (tr_store tr) = unmarked st /\
  forall s, visited_in st s -> visited_in (tr_store tr) s.
Proof.
  intros H. exact (trace_all_marks_only segments _ _ H).
Qed.

(** *** What reaches the result, and what does not *)

(** [seg._intersection._segment]. *)
Definition intersection_segment (st : Store.t) (seg : SegRef)
  : option SegRef :=
  match get_segment st seg with
  | Some segr =>
      match _intersection segr with
      | obj i =>
          match get_location st i with
          | Some loc =>
              match _segment loc with
              | obj other => Some other
              | _ => None
              end
          | None => None
          end
      | _ => None
      end
  | None => None
  end.

(** A path pushed for two operand paths that coincide, in a run on the
    store [st0] and the array [segments]: under unite or intersect, the
    clone of the path of a segment of the array, as that path is in [st0],
    when the path is marked [_overlapsOnly], [Base.equals] finds its
    segments equal to those of the path of the segment's intersection (in
    the store of that moment, which differs from [st0] in [_visited] marks
    only), and its area is not zero. *)
Definition cloned_ok (st0 : Store.t) (segments : list SegRef) (p : NewPath)
  : Prop :=
  exists op seg path1 st other,
    operator = Some op /\ is_unite op || is_intersect op = true /\
    In seg segments /\
    get_path st0 (fst seg) = Some path1 /\
    _overlapsOnly path1 = true /\
    p = clone path1 /\
    number_truthy (getArea p) = true /\
    marks_only st0 st /\
    intersection_segment st seg = Some other /\
    Base_equals st (fst seg) (fst other) = true.

Definition emitted_ok (st0 : Store.t) (segments : list SegRef) (p : NewPath)
  : Prop :=
  traced_ok p \/ cloned_ok st0 segments p.

(** What the inner loop, left with the variables [v], makes of the arrays
    [paths] and [errors] (lines 1783-1814). *)
Definition concluded (v : Vars) (paths errors paths' errors' : list NewPath)
  : Prop :=
  if v_finished v then
    errors' = errors /\
    exists first rest,
      v_path v = Some (first :: rest) /\
      let path :=
        mkNewPath (set_first_handleIn (first :: rest) (v_handleIn v)) true in
      paths' = if Nat.ltb 8 (length (np_segments path))
                  || negb (isZero (getArea path))
               then paths ++ [path] else paths
  else
    paths' = paths /\
    errors' = match v_path v with
              | Some partial =>
                  if (Numerical.GEOMETRIC_EPSILON
                      <=? abs (getArea (mkNewPath partial true)))%float
                  then errors ++ [mkNewPath partial false]
                  else errors
              | None => errors
              end.

(** One turn of the outer loop (lines 1685-1814), from the inner loop it
    runs. *)
Definition seed_outcome (tr : Traced) (seg : SegRef) (tr' : Traced) : Prop :=
  exists segr st paths,
    get_segment (tr_store tr) seg = Some segr /\
    overlapping (tr_store tr) (tr_paths tr) seg (_intersection segr)
      = Ok (st, paths) /\
    ((skipped st seg (_intersection segr) = Ok true /\
      tr_paths tr' = paths /\ tr_errors tr' = tr_errors tr)
     \/
     (skipped st seg (_intersection segr) = Ok false /\
      exists st1 v,
        trace_loop (S (unvisited st)) st
          (mkVars null null None false seg (_intersection segr)
                  (tr_handleIn tr))
          = Ok (st1, v) /\
        concluded v paths (tr_errors tr) (tr_paths tr') (tr_errors tr'))).

Lemma conclude_concluded v pushed reported paths errors :
  conclude v = Ok (pushed, reported) ->
  concluded v paths errors (push paths pushed) (push errors reported).
Proof.
  unfold conclude, concluded. intros H.
  destruct (v_finished v).
  - destruct (v_path v) as [[|first rest]|]; try discriminate.
    match type of H with
    | (if ?c then _ else _) = _ => destruct c eqn:Hc
    end; inversion H; subst; cbn [push];
      (split; [reflexivity|]); exists first, rest;
      (split; [reflexivity|]); cbv zeta; now rewrite Hc.
  - destruct (v_path v) as [partial|].
    + match type of H with
      | (if ?c then _ else _) = _ => destruct c eqn:Hc
      end; inversion H; subst; cbn [push]; now split.
    + inversion H; subst. now split.
Qed.

Lemma trace_from_outcome tr seg tr' :
  trace_from tr seg = Ok tr' -> seed_outcome tr seg tr'.
Proof.
  unfold trace_from, seed_outcome. intros H.
  bind_cases H. rename a into segr. apply deref_Ok in E.
  bind_cases H. destruct a as [st paths].
  exists segr, st, paths. split; [exact E|]. split; [exact E0|].
  bind_cases H. destruct a.
  - inversion H; subst. left. now repeat split.
  - right. split; [first [exact E1 | reflexivity]|].
    bind_cases H. destruct a as [st1 v].
    bind_cases H. destruct a as [pushed reported].
    inversion H; subst. exists st1, v.
    split; [first [exact E2 | reflexivity]|].
    cbn [tr_paths tr_errors]. now apply conclude_concluded.
Qed.

(** The marks apart, a path is in the store as it was. *)
Lemma marks_only_path st0 st p path1 :
  marks_only st0 st ->
  get_path st p = Some path1 ->
  exists path0,
    get_path st0 p = Some path0 /\
    clone path0 = clone path1 /\
    _overlapsOnly path0 = _overlapsOnly path1.
Proof.
  intros [Hu _] Hp. unfold unmarked in Hu.
  assert (Hn : nth_error (map (alter_segments (map unmark)) (paths st)) p
               = nth_error (map (alter_segments (map unmark)) (paths st0)) p)
    by (inversion Hu as [[Hpaths Hlocs]]; now rewrite Hpaths).
  rewrite !nth_error_map in Hn. unfold get_path in *. rewrite Hp in Hn.
  destruct (nth_error (paths st0) p) as [path0|]; cbn in Hn; [|discriminate].
  exists path0. split; [reflexivity|].
  inversion Hn as [[Hs Hc Ho Hv Hpar]]. split; [|now rewrite Ho].
  unfold clone. rewrite Hc. f_equal.
  assert (Hg : forall l,
             map (fun s => mkNewSegment (_point s) (Some (_handleIn s))
                             (Some (_handleOut s))) l
             = map (fun s => mkNewSegment (_point s) (Some (_handleIn s))
                               (Some (_handleOut s))) (map unmark l)).
  { intros l. rewrite map_map. reflexivity. }
  now rewrite (Hg (_segments path0)), (Hg (_segments path1)), Hs.
Qed.

Lemma overlapping_emits st0 segments st paths seg segr st' paths' :
  overlapping st paths seg (_intersection segr) = Ok (st', paths') ->
  marks_only st0 st ->
  In seg segments ->
  get_segment st seg = Some segr ->
  Forall (emitted_ok st0 segments) paths ->
  Forall (emitted_ok st0 segments) paths'.
Proof.
  unfold overlapping. intros H Hm Hin Hseg Hall.
  rewrite Hseg in H. cbn [deref bind] in H.
  bind_cases H. rename a into path1. apply deref_Ok in E.
  destruct (negb (_visited segr) && _overlapsOnly path1) eqn:Hov;
    [|inversion H; subst; exact Hall].
  apply andb_true_iff in Hov. destruct Hov as [_ Hov].
  destruct (_intersection segr) as [| |i] eqn:Hi; try discriminate.
  bind_cases H. rename a into loc. apply deref_Ok in E0.
  destruct (_segment loc) as [| |other] eqn:Hother; try discriminate.
  bind_cases H.
  destruct (Base_equals st (fst seg) (fst other)) eqn:Heq;
    [|inversion H; subst; exact Hall].
  destruct operator as [op|] eqn:Hop; [|discriminate].
  bind_cases H. inversion H; subst.
  destruct ((is_unite op || is_intersect op)
            && number_truthy (getArea (clone path1))) eqn:Hc; [|exact Hall].
  apply andb_true_iff in Hc. destruct Hc as [Hu Ha].
  apply Forall_app. split; [exact Hall|].
  constructor; [|constructor]. right.
  destruct (marks_only_path st0 st (fst seg) path1 Hm E)
    as [path0 [Hp0 [Hclone Ho0]]].
  exists op, seg, path0, st, other.
  split; [first [exact Hop | reflexivity]|]. split; [exact Hu|].
  split; [exact Hin|]. split; [exact Hp0|]. split; [congruence|].
  split; [now rewrite Hclone|]. split; [exact Ha|].
  split; [exact Hm|].
  split; [|exact Heq].
  unfold intersection_segment. now rewrite Hseg, Hi, E0, Hother.
Qed.

(** What holds of the arrays all along a run on [st0] and [segments]. *)
Definition good (st0 : Store.t) (segments : list SegRef) (tr : Traced)
  : Prop :=
  marks_only st0 (tr_store tr) /\
  Forall (emitted_ok st0 segments) (tr_paths tr) /\
  Forall reported_ok (tr_errors tr).

Lemma trace_from_good st0 segments tr seg tr' :
  In seg segments ->
  trace_from tr seg = Ok tr' -> good st0 segments tr -> good st0 segments tr'.
Proof.
  intros Hin H [Hm [Hp He]]. split.
  { eapply marks_only_trans; [exact Hm|].
    now apply (trace_from_marks_only tr seg). }
  unfold trace_from in H.
  bind_cases H. rename a into segr. apply deref_Ok in E.
  bind_cases H. destruct a as [st paths].
  apply (overlapping_emits st0 segments) in E0; try assumption.
  bind_cases H. destruct a.
  - inversion H; subst. split; assumption.
  - bind_cases H. destruct a as [st1 v].
    bind_cases H. destruct a as [pushed reported].
    inversion H; subst. apply conclude_spec in E3. destruct E3 as [Hpu Hre].
    split; cbn [tr_paths tr_errors]; apply push_good; try assumption.
    + intros p Hpp. left. now apply Hpu.
    + intros q Hq. now apply Hre.
Qed.

Lemma trace_all_good st0 segments : forall rest tr,
  (forall s, In s rest -> In s segments) ->
  good st0 segments tr ->
  match trace_all tr rest with
  | Ok tr' => good st0 segments tr'
  | Throw => True
  | OutOfFuel => False
  end.
Proof.
  induction rest as [|seg rest IH]; intros tr Hsub Hg; cbn [trace_all].
  - exact Hg.
  - pose proof (trace_from_bounded tr seg) as Hb.
    destruct (trace_from tr seg) as [tr1| |] eqn:Hf; cbn [bind];
      [|exact I|now elim Hb].
    apply IH; [intros s Hs; apply Hsub; now right|].
    eapply trace_from_good; [apply Hsub; now left | eassumption | exact Hg].
Qed.

(** C3, as the code has it.  [tracePaths] always comes to an end.  Every
    path it returns was either traced to its end, and then it is closed and
    has more than eight segments or an area that [Numerical.isZero]
    rejects (no comparison with [GEOMETRIC_EPSILON] is made for it), or it
    is the clone of an operand path of the store, the path of a segment of
    the array that is marked [_overlapsOnly] and that [Base.equals] finds
    equal to the path of the segment's intersection, pushed under unite and
    intersect when its area is not zero; the clone is closed or open as the
    operand path is.  Every path it reports is open and of an area of at
    least [GEOMETRIC_EPSILON].  And in every turn of the outer loop: when
    the inner loop ends with the path finished, nothing is reported and
    the closed path is pushed if it has more than eight segments or an
    area that is not zero; when it ends with the path not finished,
    nothing is pushed, and the open path is reported exactly when the
    magnitude of its area is at least [GEOMETRIC_EPSILON], and dropped in
    silence otherwise. *)
Theorem tracePaths_emits_finished_paths st segments :
  match tracePaths st segments with
  | Ok tr =>
      Forall (emitted_ok st segments) (tr_paths tr) /\
      Forall reported_ok (tr_errors tr)
  | Throw => True
  | OutOfFuel => False
  end /\
  (forall path1, np_closed (clone path1) = _closed path1) /\
  (forall tr seg tr', trace_from tr seg = Ok tr' -> seed_outcome tr seg tr').
Proof.
  split; [|split; [reflexivity | apply trace_from_outcome]].
  pose proof (trace_all_good st segments segments (mkTraced [] [] st None)
                (fun s Hs => Hs)) as H.
  unfold tracePaths.
  destruct (trace_all (mkTraced [] [] st None) segments) as [tr| |];
    [|exact I|].
  - apply H. split; [apply marks_only_refl | split; constructor].
  - apply H. split; [apply marks_only_refl | split; constructor].
Qed.

(** *** Every segment is used once *)

(** No path of the store is marked as made of overlaps only. *)
Definition none_coincide (st : Store.t) : Prop :=
  forall p path, get_path st p = Some path -> _overlapsOnly path = false.

Lemma none_coincide_marks_only st st' :
  marks_only st st' -> none_coincide st -> none_coincide st'.
Proof.
  intros [Hu _] Hn p path' Hp.
  assert (Hnth : nth_error (paths (unmarked st')) p
                 = Some (alter_segments (map unmark) path')).
  { unfold unmarked. cbn [paths]. rewrite nth_error_map.
    unfold get_path in Hp. now rewrite Hp. }
  rewrite Hu in Hnth. unfold unmarked in Hnth. cbn [paths] in Hnth.
  rewrite nth_error_map in Hnth.
  destruct (nth_error (paths st) p) as [path|] eqn:Hpath; [|discriminate].
  cbn [option_map] in Hnth.
  assert (Heq : _overlapsOnly (alter_segments (map unmark) path)
                = _overlapsOnly (alter_segments (map unmark) path'))
    by congruence.
  cbn in Heq. rewrite <- Heq. exact (Hn p path Hpath).
Qed.

(** The segments of the paths returned and of the paths reported. *)
Definition traced_segments (tr : Traced) : nat :=
  list_sum (map (fun p => length (np_segments p)) (tr_paths tr))
  + list_sum (map (fun p => length (np_segments p)) (tr_errors tr)).

Lemma list_sum_push (l : list NewPath) x :
  list_sum (map (fun p => length (np_segments p)) (push l x))
  = list_sum (map (fun p => length (np_segments p)) l)
    + match x with Some p => length (np_segments p) | None => 0 end.
Proof.
  destruct x as [p|]; cbn [push]; [|lia].
  rewrite map_app, list_sum_app. simpl. lia.
Qed.

Lemma length_set_first_handleIn segments handleIn :
  length (set_first_handleIn segments handleIn) = length segments.
Proof. now destruct segments. Qed.

Lemma conclude_lengths v pushed reported :
  conclude v = Ok (pushed, reported) ->
  match pushed with Some p => length (np_segments p) | None => 0 end
  + match reported with Some p => length (np_segments p) | None => 0 end
  <= path_length v.
Proof.
  unfold conclude, path_length. intros H.
  destruct (v_finished v).
  - destruct (v_path v) as [[|first rest]|]; try discriminate.
    match type of H with
    | (if ?c then _ else _) = _ => destruct c
    end; inversion H; subst; cbn [np_segments]; simpl; lia.
  - destruct (v_path v) as [segments|].
    + match type of H with
      | (if ?c then _ else _) = _ => destruct c
      end; inversion H; subst; cbn [np_segments]; simpl; lia.
    + inversion H; subst. lia.
Qed.

Lemma overlapping_none_coincide st paths seg inter :
  none_coincide st ->
  overlapping st paths seg inter = Ok (st, paths)
  \/ overlapping st paths seg inter = Throw.
Proof.
  intros Hn. unfold overlapping.
  destruct (get_segment st seg) as [segr|]; cbn [deref bind]; [|now right].
  destruct (get_path st (fst seg)) as [path1|] eqn:Hp; cbn [deref bind];
    [|now right].
  rewrite (Hn _ _ Hp), andb_false_r. now left.
Qed.

Lemma trace_from_conserves tr seg tr' :
  none_coincide (tr_store tr) ->
  trace_from tr seg = Ok tr' ->
  traced_segments tr' + unvisited (tr_store tr')
  <= traced_segments tr + unvisited (tr_store tr).
Proof.
  intros Hn. unfold trace_from. intros H.
  bind_cases H.
  destruct (overlapping_none_coincide (tr_store tr) (tr_paths tr) seg
              (_intersection a) Hn) as [Ho|Ho]; rewrite Ho in H;
    cbn [bind] in H; [|discriminate].
  bind_cases H. destruct a0.
  - inversion H; subst. unfold traced_segments.
    cbn [tr_paths tr_errors tr_store]. lia.
  - bind_cases H. destruct a0 as [st1 v].
    bind_cases H. destruct a0 as [pushed reported].
    inversion H; subst.
    apply trace_loop_conserves in E1. destruct E1 as [_ Hle].
    apply conclude_lengths in E2.
    unfold path_length in Hle at 2. cbn [v_path] in Hle.
    unfold traced_segments. cbn [tr_paths tr_errors tr_store].
    rewrite !list_sum_push. lia.
Qed.

Lemma trace_all_conserves segments : forall tr tr',
  none_coincide (tr_store tr) ->
  trace_all tr segments = Ok tr' ->
  traced_segments tr' + unvisited (tr_store tr')
  <= traced_segments tr + unvisited (tr_store tr).
Proof.
  induction segments as [|seg rest IH]; intros tr tr' Hn H;
    cbn [trace_all] in H.
  - inversion H; subst. lia.
  - bind_cases H.
    pose proof (trace_from_conserves tr seg a Hn E) as H1.
    apply trace_from_marks_only in E.
    pose proof (IH a tr' (none_coincide_marks_only _ _ E Hn) H). lia.
Qed.

(** X12.  When no path is made of overlaps only, the paths [tracePaths]
    returns and reports have together no more segments than it has marked:
    every segment of a traced path was taken from a segment not visited
    before, and no segment is taken twice. *)
Theorem tracePaths_uses_segments_once st segments tr :
  none_coincide st ->
  tracePaths st segments = Ok tr ->
  traced_segments tr + unvisited (tr_store tr) <= unvisited st.
Proof.
  intros Hn H.
  exact (trace_all_conserves segments (mkTraced [] [] st None) tr Hn H).
Qed.

(** *** Nothing left to trace *)

(** X13.  When every segment it is given has been visited, [tracePaths]
    returns no path, reports none and leaves the store as it is. *)
Theorem tracePaths_all_visited st segments :
  Forall (visited_in st) segments ->
  tracePaths st segments = Ok (mkTraced [] [] st None).
Proof.
  unfold tracePaths. intros Hall.
  assert (H : forall tr0, tr_store tr0 = st -> trace_all tr0 segments = Ok tr0).
  { induction Hall as [|seg rest [segr [Hseg Hvis]] _ IH]; intros tr0 Hst;
      [reflexivity|].
    cbn [trace_all].
    assert (Hfrom : trace_from tr0 seg = Ok tr0).
    { unfold trace_from, overlapping, skipped, isValid.
      rewrite Hst, Hseg. cbn [deref bind].
      assert (Hp : exists path, get_path st (fst seg) = Some path).
      { unfold get_segment in Hseg.
        destruct (get_path st (fst seg)) as [path|]; [|discriminate].
        now exists path. }
      destruct Hp as [path Hp]. rewrite Hp. cbn [deref bind].
      rewrite Hvis. cbn [negb andb bind]. rewrite Hseg. cbn [deref bind].
      rewrite Hvis. cbn [negb andb bind]. rewrite <- Hst.
      now destruct tr0. }
    rewrite Hfrom. cbn [bind]. now apply IH. }
  now apply H.
Qed.

(** *** Which intersection is picked *)

(** The entry of a chain that [findBestIntersection] takes: its segment is
    not the excluded one, and it leads back to a start segment, or neither
    it nor the segment after it has been visited. *)
Definition worth_taking (st : Store.t) (v : Vars) (exclude : SegRef)
    (inter : LocRef) : Prop :=
  exists loc seg segr,
    get_location st inter = Some loc /\
    _segment loc = obj seg /\
    get_segment st seg = Some segr /\
    seg <> exclude /\
    (isStart v (obj seg) || isStart v (next_ref st seg) = true
     \/ (_visited segr = false /\
         exists n nsegr,
           getNext st seg = Some n /\
           get_segment st n = Some nsegr /\
           _visited nsegr = false)).

Lemma is_best_worth_taking st v exclude inter :
  is_best st v exclude inter = Ok true -> worth_taking st v exclude inter.
Proof.
  unfold is_best, worth_taking. intros H.
  bind_cases H. rename a into loc. apply deref_Ok in E.
  destruct (_segment loc) as [| |seg] eqn:Hseg; try discriminate.
  bind_cases H. rename a into segr. apply deref_Ok in E0.
  destruct (seg_eqb_spec seg exclude) as [Heq|Hne]; [discriminate|].
  cbn [negb] in H.
  exists loc, seg, segr. repeat split; try assumption.
  destruct (isStart v (obj seg) || isStart v (next_ref st seg));
    [now left|].
  right. destruct (_visited segr); [discriminate|].
  split; [reflexivity|].
  unfold next_ref in H. destruct (getNext st seg) as [n|]; [|discriminate].
  bind_cases H. rename a into nsegr. apply deref_Ok in E1.
  destruct (_visited nsegr) eqn:Hn; [discriminate|].
  exists n, nsegr. repeat split; assumption.
Qed.

Lemma first_best_member st v exclude : forall chain b,
  first_best st v exclude chain = Ok (Some b) ->
  In b chain /\ worth_taking st v exclude b.
Proof.
  induction chain as [|inter rest IH]; intros b H; cbn [first_best] in H;
    [discriminate|].
  bind_cases H. destruct a.
  - inversion H; subst. split; [now left|].
    now apply is_best_worth_taking.
  - destruct (IH b H) as [Hin Hw]. split; [now right | exact Hw].
Qed.

(** X14.  The intersection [findBestIntersection] returns is the one it
    was given or one of those linked behind it.  When others are linked
    behind, the one returned is never on the excluded segment, and it leads
    back to a start segment or neither its segment nor the next one has
    been visited. *)
Theorem findBestIntersection_picks_from_chain st v inter exclude loc b :
  get_location st inter = Some loc ->
  findBestIntersection st v inter exclude = Ok (Some b) ->
  (b = inter \/ In b (_next_chain loc)) /\
  (_next_chain loc <> [] -> worth_taking st v exclude b).
Proof.
  unfold findBestIntersection. intros Hloc H.
  rewrite Hloc in H. cbn [deref bind] in H.
  destruct (_next_chain loc) as [|next chain] eqn:Hchain.
  - inversion H; subst. split; [now left | congruence].
  - apply first_best_member in H. destruct H as [Hin Hw].
    split; [|intros _; exact Hw].
    destruct Hin as [<-|Hin]; [now left | now right].
Qed.

End TracePaths.

End Trace.

(** ** Two overlapping squares, and a speck *)

Module Scenario.

Import Store Trace.

Open Scope float_scope.

(** A segment without handles that no pass has touched yet. *)
Definition corner (x y : float) (inter : JsRef LocRef) : Segment :=
  mkSegment (Point.mk x y) (Point.mk 0 0) (Point.mk 0 0) false None false
            inter.

(** *** Straight curves along the axes

    The curve primitives of Curve.js are not under src/.  The paths of this
    section have no handles and all their curves run along an axis, for
    which the primitives are the following. *)

Definition point_of (st : Store.t) (s : SegRef) : Point.t :=
  match get_segment st s with
  | Some seg => _point seg
  | None => Point.mk nan nan
  end.

Definition end_of (st : Store.t) (s : SegRef) : Point.t :=
  match getNext st s with
  | Some n => point_of st n
  | None => point_of st s
  end.

Definition dx (st : Store.t) (c : SegRef) : float :=
  Point.x (end_of st c) - Point.x (point_of st c).
Definition dy (st : Store.t) (c : SegRef) : float :=
  Point.y (end_of st c) - Point.y (point_of st c).

(** [curve.getLength()]. *)
Definition edge_length (st : Store.t) (c : SegRef) : float :=
  abs (dx st c) + abs (dy st c).
(** [curve.getTimeAt(length)]. *)
Definition edge_timeAt (st : Store.t) (c : SegRef) (len : float) : float :=
  len / edge_length st c.
(** [curve.getPointAtTime(t)]. *)
Definition edge_pointAt (st : Store.t) (c : SegRef) (t : float) : Point.t :=
  Point.mk (Point.x (point_of st c) + t * dx st c)
           (Point.y (point_of st c) + t * dy st c).
(** [curve.getTangentAtTime(t).normalize().y]. *)
Definition edge_tangentY (st : Store.t) (c : SegRef) (t : float) : float :=
  dy st c / edge_length st c.

Definition edges (st : Store.t) (p : nat) : list Winding.Values :=
  match get_path st p with
  | Some path =>
      map (fun i =>
             let a := point_of st (p, i) in
             let b := end_of st (p, i) in
             Winding.line (Point.x a) (Point.y a) (Point.x b) (Point.y b))
          (seq 0 (length (_segments path)))
  | None => []
  end.

(** [item.getCurves()] for a closed path; [cw] is [isClockwise()]. *)
Definition item_curves (st : Store.t) (cw : nat -> bool) (item : ItemRef)
  : list Winding.Curve :=
  match item with
  | PathItem p => Winding.Path_getCurves p (cw p) true (edges st p)
  | CompoundItem _ => []
  end.

Definition no_roots
  : Winding.Values -> nat -> float -> float -> float -> list float :=
  fun _ _ _ _ _ => [].
Definition no_point : Winding.Values -> float -> Point.t :=
  fun _ _ => Point.mk 0 0.

(** *** The squares, divided at their two crossings

    The square (0,0)-(100,100) runs clockwise; the square (50,50)-(150,150)
    has been reversed, as [computeBoolean] does for subtract and exclude.
    They cross at (100,50) and (50,100).  Segment 2 of either path's
    crossing holds the location whose segment is on the other path. *)
Definition squareA : Path :=
  mkPath [ corner 0 0 undefined; corner 100 0 undefined;
           corner 100 50 (obj 0%nat); corner 100 100 undefined;
           corner 50 100 (obj 2%nat); corner 0 100 undefined ]
         true false false None.

Definition squareB : Path :=
  mkPath [ corner 50 150 undefined; corner 150 150 undefined;
           corner 150 50 undefined; corner 100 50 (obj 1%nat);
           corner 50 50 undefined; corner 50 100 (obj 3%nat) ]
         true false false None.

Definition crossing_locations : list Location :=
  [ mkLocation (obj (1, 3)%nat) [] false; mkLocation (obj (0, 2)%nat) [] false;
    mkLocation (obj (1, 5)%nat) [] false; mkLocation (obj (0, 4)%nat) [] false ].

Definition squares : Store.t := Store.mk [squareA; squareB] crossing_locations.

Definition clockwise (p : nat) : bool := Nat.eqb p 0.

(** The array [curves] of [computeBoolean], and its arrays [segments] and
    [crossings] (by their segments). *)
Definition all_curves : list Winding.Curve :=
  item_curves squares clockwise (PathItem 0)
  ++ item_curves squares clockwise (PathItem 1).

Definition all_segments : list SegRef :=
  map (fun i => (0, i)%nat) (seq 0 6) ++ map (fun i => (1, i)%nat) (seq 0 6).

Definition crossing_segments : list SegRef :=
  [ (0, 2); (1, 3); (0, 4); (1, 5) ]%nat.

Definition propagate (operator : Operation) (st : Store.t) (seg : SegRef)
  : outcome Store.t :=
  Propagate.propagateWinding (fun s => Some s) (edge_length squares)
    (edge_timeAt squares) (edge_pointAt squares) (edge_tangentY squares)
    (item_curves squares clockwise) no_roots no_point
    Winding.straight_getMonoCurves st seg (PathItem 0) (Some (PathItem 1))
    all_curves operator.

(** Lines 1217-1227 of [computeBoolean]: first the chains that start in a
    crossing, then every segment whose winding is still undefined. *)
Fixpoint propagate_all (operator : Operation) (pending : bool)
    (st : Store.t) (l : list SegRef) : outcome Store.t :=
  match l with
  | [] => Ok st
  | s :: r =>
      seg <- deref (get_segment st s) ;;
      if pending && match _winding seg with Some _ => true | None => false end
      then propagate_all operator pending st r
      else st <- propagate operator st s ;; propagate_all operator pending st r
  end.

Definition with_windings (operator : Operation) : outcome Store.t :=
  st <- propagate_all operator false squares crossing_segments ;;
  propagate_all operator true st all_segments.

Definition windings_of (st : Store.t) : list (option Z) :=
  map (fun s => match get_segment st s with
                | Some seg => _winding seg
                | None => None
                end) all_segments.

(** The area of a path without handles (the shoelace sum), for
    [Path#getArea]. *)
Fixpoint shoelace (first : Point.t) (l : list Point.t) : float :=
  match l with
  | [] => 0
  | a :: r =>
      let b := match r with b :: _ => b | [] => first end in
      (Point.x a * Point.y b - Point.x b * Point.y a) + shoelace first r
  end.

Definition polygon_area (p : NewPath) : float :=
  match map ns_point (np_segments p) with
  | [] => 0
  | first :: rest => shoelace first (first :: rest) / 2
  end.

(** For [Numerical.isZero] (Numerical.js is not under src/): the numbers
    within 1e-12 of zero. *)
Definition isZero (x : float) : bool := (-1e-12 <=? x) && (x <=? 1e-12).

Definition never_equal (st : Store.t) (p1 p2 : nat) : bool := false.

Definition trace (operator : Operation) : outcome Traced :=
  st <- with_windings operator ;;
  tracePaths polygon_area isZero never_equal (Some operator) st all_segments.

Definition outlines (r : outcome Traced) : list (list Point.t * bool) :=
  match r with
  | Ok tr => map (fun p => (map ns_point (np_segments p), np_closed p))
                 (tr_paths tr)
  | _ => []
  end.

Definition P (x y : float) : Point.t := Point.mk x y.

(** Subtracting: the chain of the first square that lies in the second and
    the chain of the second that lies outside the first get the winding 0,
    and one L-shaped path of six segments is traced. *)
Example subtract_squares :
  option_map windings_of
    (match with_windings subtract with Ok st => Some st | _ => None end)
  = Some [ Some 1; Some 1; Some 0; Some 0; Some 1; Some 1;
           Some 0; Some 0; Some 0; Some 1; Some 1; Some 0 ]%Z /\
  outlines (trace subtract)
  = [ ([P 0 0; P 100 0; P 100 50; P 50 50; P 50 100; P 0 100], true) ].
Proof. split; vm_compute; reflexivity. Qed.

(** Excluding: every segment gets the winding 1 and two L-shaped paths are
    traced. *)
Example exclude_squares :
  option_map windings_of
    (match with_windings exclude with Ok st => Some st | _ => None end)
  = Some (repeat (Some 1%Z) 12) /\
  outlines (trace exclude)
  = [ ([P 0 0; P 100 0; P 100 50; P 50 50; P 50 100; P 0 100], true);
      ([P 100 50; P 100 100; P 50 100; P 50 150; P 150 150; P 150 50], true) ].
Proof. split; vm_compute; reflexivity. Qed.

(** *** The chain of the first square inside the second, subtracting *)







(** *** Excluding: a crossing at which the tracer stays *)

(** The squares with the windings the propagator gives under exclude. *)
Definition squares_excluding : Store.t :=
  match with_windings exclude with
  | Ok st => st
  | _ => squares
  end.

(** The state of [tracePaths] once its outer loop has handled the first two
    segments, and so has traced the first path. *)
Definition after_first_path : Traced :=
  match
    trace_all polygon_area isZero never_equal (Some exclude)
      (mkTraced [] [] squares_excluding None) [ (0, 0); (0, 1) ]%nat
  with
  | Ok tr => tr
  | _ => mkTraced [] [] squares None
  end.


Definition crossing_here : Segment :=
  mkSegment (P 100 50) (P 0 0) (P 0 0) false (Some 1%Z) false (obj 0%nat).

Definition crossing_partner : Segment :=
  mkSegment (P 100 50) (P 0 0) (P 0 0) true (Some 1%Z) false (obj 1%nat).

Lemma at_crossing_segments :
  get_segment (tr_store after_first_path) (0, 2)%nat = Some crossing_here /\
  get_segment (tr_store after_first_path) (1, 3)%nat = Some crossing_partner.
Proof. split; vm_compute; reflexivity. Qed.


(** *** A speck: a closed path of nine segments and hardly any area *)

(** 2^-16, about 1.5e-5. *)
Definition u : float := 1 / 65536.

Definition dot (x y : float) : Segment :=
  mkSegment (Point.mk (x * u) (y * u)) (Point.mk 0 0) (Point.mk 0 0) false
            (Some 1%Z) false undefined.

(** A convex polygon of nine corners, no three of them on a line, eight
    units high; its area is below 50 square units, that is below 1.2e-8.
    Its segments have the winding 1, as when it is united with a path far
    away. *)
Definition speck_corners : list Segment :=
  [ dot 1 0; dot 3 0; dot 5 1; dot 6 3; dot 6 5; dot 5 7; dot 3 8; dot 1 7;
    dot 0 4 ].

Definition speck : Store.t :=
  Store.mk [ mkPath speck_corners true false false None ] [].

Definition speck_segments : list SegRef := map (fun i => (0, i)%nat) (seq 0 9).

Definition speck_traced : NewPath :=
  mkNewPath
    (map (fun s => mkNewSegment (_point s) (Some (Point.mk 0 0))
                                (Some (Point.mk 0 0)))
         speck_corners)
    true.

(** Uniting: the speck is traced to its end and returned, closed and of nine
    segments, and the magnitude of its area is below [GEOMETRIC_EPSILON]. *)
Lemma tiny_path_counterexample :
  option_map tr_paths
    (match tracePaths polygon_area isZero never_equal (Some unite)
             speck speck_segments with
     | Ok tr => Some tr
     | _ => None
     end)
  = Some [speck_traced] /\
  np_closed speck_traced = true /\
  length (np_segments speck_traced) = 9%nat /\
  (abs (polygon_area speck_traced) <? Numerical.GEOMETRIC_EPSILON) = true /\
  (abs (polygon_area speck_traced) <? 1.2e-8) = true.
Proof. repeat split; vm_compute; reflexivity. Qed.

(** *** The whole trace under exclude, and a second one *)

Definition traced_excluding : Traced :=
  match
    tracePaths polygon_area isZero never_equal (Some exclude)
      squares_excluding all_segments
  with
  | Ok tr => tr
  | _ => mkTraced [] [] squares None
  end.

Lemma traced_excluding_run :
  tracePaths polygon_area isZero never_equal (Some exclude)
    squares_excluding all_segments
  = Ok traced_excluding.
Proof. vm_compute. reflexivity. Qed.

Lemma squares_none_coincide : none_coincide squares_excluding.
Proof.
  intros p path Hp. destruct p as [|[|p]];
    vm_compute in Hp; inversion Hp; subst; try reflexivity.
  destruct p; discriminate.
Qed.

(** X11 on the two squares. *)
Lemma tracePaths_only_sets_marks_witness :
  unmarked (tr_store traced_excluding) = unmarked squares_excluding /\
  forall s, visited_in squares_excluding s ->
            visited_in (tr_store traced_excluding) s.
Proof.
  exact (tracePaths_only_sets_marks polygon_area isZero never_equal
           (Some exclude) squares_excluding all_segments traced_excluding
           traced_excluding_run).
Defined.

(** X12 on the two squares: twelve segments, twelve traced. *)
Lemma tracePaths_uses_segments_once_witness :
  traced_segments traced_excluding + unvisited (tr_store traced_excluding)
  <= unvisited squares_excluding.
Proof.
  exact (tracePaths_uses_segments_once polygon_area isZero never_equal
           (Some exclude) squares_excluding all_segments traced_excluding
           squares_none_coincide traced_excluding_run).
Defined.

Lemma traced_excluding_all_visited :
  Forall (visited_in (tr_store traced_excluding)) all_segments.
Proof.
  repeat (constructor;
          [eexists; split; vm_compute; reflexivity|]).
  constructor.
Qed.

(** X13 on the two squares: tracing them a second time gives nothing. *)
Lemma tracePaths_all_visited_witness :
  tracePaths polygon_area isZero never_equal (Some exclude)
    (tr_store traced_excluding) all_segments
  = Ok (mkTraced [] [] (tr_store traced_excluding) None).
Proof.
  exact (tracePaths_all_visited polygon_area isZero never_equal
           (Some exclude) (tr_store traced_excluding) all_segments
           traced_excluding_all_visited).
Defined.

(** The squares with a second intersection linked behind the one at
    (100,50). *)
Definition squares_linked : Store.t :=
  Store.mk [squareA; squareB]
    [ mkLocation (obj (1, 3)%nat) [2%nat] false;
      mkLocation (obj (0, 2)%nat) [] false;
      mkLocation (obj (1, 5)%nat) [] false;
      mkLocation (obj (0, 4)%nat) [] false ].

(** X14 there, for a tracer that stands on (100,50) of the first square. *)
Lemma findBestIntersection_picks_from_chain_witness :
  (0%nat = 0%nat \/ In 0%nat [2%nat]) /\
  ([2%nat] <> [] ->
   worth_taking squares_linked
     (mkVars null null None false (0, 2)%nat (obj 0%nat) None)
     (0, 2)%nat 0%nat).
Proof.
  exact (findBestIntersection_picks_from_chain None squares_linked
           (mkVars null null None false (0, 2)%nat (obj 0%nat) None)
           0%nat (0, 2)%nat
           (mkLocation (obj (1, 3)%nat) [2%nat] false) 0%nat
           eq_refl eq_refl).
Defined.

End Scenario.

(** ** Tracing under exclude: switching at crossings

    [computeBoolean] gives its two operands opposite orientations for
    exclude (lines 1187-1189), and the propagator then gives the winding 1
    to every segment of the two squares of the scenario, inside the other
    square or outside of it.  The tracer has no branch for exclude (lines
    1722-1756): it switches at a crossing when the partner segment is a
    start segment or valid, and with every winding 1 a segment is valid
    when it is not visited.  This section shows that on operands in general
    position the partner is never visited when the tracer comes to a
    crossing with a path begun, unless the path ends there. *)

Module Exclude.

Import Store Trace.

(** *** Operands in general position *)


Definition is_empty {A : Type} (l : list A) : bool :=
  match l with
  | [] => true
  | _ => false
  end.

(** A segment with an intersection is a crossing of two paths: its location
    has no further location linked to it and is no overlap, the segment of
    the location is on another path and has a location that leads back, and
    the segment is not the first one of its path. *)
Definition crossing_ok (st : Store.t) (s : SegRef) (segr : Segment) : bool :=
  match _intersection segr with
  | obj i =>
      match get_location st i with
      | Some loc =>
          is_empty (_next_chain loc) && negb (_overlap loc)
          && match _segment loc with
             | obj o =>
                 negb (Nat.eqb (fst o) (fst s)) && negb (Nat.eqb (snd s) 0)
                 && match intersection_segment st o with
                    | Some back => seg_eqb back s
                    | None => false
                    end
             | _ => false
             end
      | None => false
      end
  | _ => true
  end.

(** [operators.exclude[seg._winding]] (line 1140). *)
Definition winding_is_one (segr : Segment) : bool :=
  match _winding segr with
  | Some 1%Z => true
  | _ => false
  end.

(** A segment as the tracer is to find it: not visited, of winding 1, and a
    crossing if it has an intersection. *)
Definition segment_ok (st : Store.t) (s : SegRef) (segr : Segment) : bool :=
  negb (_visited segr) && winding_is_one segr && crossing_ok st s segr.

(** A closed path that is not made of overlaps, with such segments. *)
Definition path_ok (st : Store.t) (p : nat) (path : Path) : bool :=
  _closed path && negb (_overlapsOnly path) && negb (_validOverlapsOnly path)
  && forallb (fun i => match nth_error (_segments path) i with
                       | Some segr => segment_ok st (p, i) segr
                       | None => true
                       end)
             (seq 0 (length (_segments path))).

(** The condition on the store handed to [tracePaths]; it can be
    computed. *)
Definition general_position (st : Store.t) : bool :=
  forallb (fun p => match get_path st p with
                    | Some path => path_ok st p path
                    | None => true
                    end)
          (seq 0 (length (paths st))).


(** The segment the tracer leaves a segment on when it switches at every
    crossing: the partner at a crossing, the segment itself elsewhere. *)
Definition leave (st : Store.t) (s : SegRef) : SegRef :=
  match intersection_segment st s with
  | Some o => o
  | None => s
  end.

(** [path._segments.length]. *)
Definition segments_in (st : Store.t) (p : nat) : nat :=
  match get_path st p with
  | Some path => length (_segments path)
  | None => 0
  end.

(** The segment that [getNext] leaves for [s], on a closed path. *)
Definition before (st : Store.t) (s : SegRef) : SegRef :=
  (fst s, match snd s with
          | 0 => segments_in st (fst s) - 1
          | S i => i
          end).



(** The states of the inner loop of [tracePaths st0 segments]: the state in
    which the loop is entered for a segment of the array, and the state
    every iteration that does not leave the loop hands to the next. *)
Section Reached.

Variable getArea : NewPath -> float.
Variable isZero : float -> bool.
Variable Base_equals : Store.t -> nat -> nat -> bool.
Variable operator : option Operation.


End Reached.







Section GeneralPosition.

Variable getArea : NewPath -> float.
Variable isZero : float -> bool.
Variable Base_equals : Store.t -> nat -> nat -> bool.

Variable st0 : Store.t.
Hypothesis GP : general_position st0 = true.

Lemma gp_path p path :
  get_path st0 p = Some path -> path_ok st0 p path = true.
Proof.
  intros Hp. unfold general_position in GP.
  rewrite forallb_forall in GP.
  assert (Hin : In p (seq 0 (length (paths st0)))).
  { apply in_seq. split; [lia|]. simpl.
    apply nth_error_Some. unfold get_path in Hp. congruence. }
  specialize (GP p Hin). now rewrite Hp in GP.
Qed.

Lemma gp_segment s segr :
  get_segment st0 s = Some segr ->
  exists path,
    get_path st0 (fst s) = Some path /\
    nth_error (_segments path) (snd s) = Some segr /\
    _closed path = true /\ _overlapsOnly path = false /\
    _validOverlapsOnly path = false /\
    _visited segr = false /\ _winding segr = Some 1%Z /\
    crossing_ok st0 s segr = true.
Proof.
  intros Hs. unfold get_segment in Hs.
  destruct (get_path st0 (fst s)) as [path|] eqn:Hp; [|discriminate].
  exists path. split; [reflexivity|]. split; [exact Hs|].
  pose proof (gp_path _ _ Hp) as Hok. unfold path_ok in Hok.
  apply andb_true_iff in Hok. destruct Hok as [Hok Hall].
  apply andb_true_iff in Hok. destruct Hok as [Hok Hvalid].
  apply andb_true_iff in Hok. destruct Hok as [Hclosed Hover].
  rewrite forallb_forall in Hall.
  assert (Hin : In (snd s) (seq 0 (length (_segments path)))).
  { apply in_seq. split; [lia|]. simpl. apply nth_error_Some. congruence. }
  specialize (Hall _ Hin). rewrite Hs in Hall. unfold segment_ok in Hall.
  apply andb_true_iff in Hall. destruct Hall as [Hall Hcross].
  apply andb_true_iff in Hall. destruct Hall as [Hvis Hwind].
  destruct s as [p i]. simpl in *.
  repeat split; try assumption.
  - now destruct (_overlapsOnly path).
  - now destruct (_validOverlapsOnly path).
  - now destruct (_visited segr).
  - unfold winding_is_one in Hwind.
    destruct (_winding segr) as [[|[q|q|]|q]|]; congruence.
Qed.


(** *** Crossings come in pairs *)

(** [s] names a segment of the store. *)
Definition valid (s : SegRef) : Prop :=
  exists segr, get_segment st0 s = Some segr.

Lemma crossing_pair s o :
  intersection_segment st0 s = Some o ->
  exists segr i loc,
    get_segment st0 s = Some segr /\ _intersection segr = obj i /\
    get_location st0 i = Some loc /\ _segment loc = obj o /\
    _next_chain loc = [] /\ _overlap loc = false /\
    fst o <> fst s /\ snd s <> 0 /\
    intersection_segment st0 o = Some s.
Proof.
  intros H. unfold intersection_segment in H.
  destruct (get_segment st0 s) as [segr|] eqn:Hs; [|discriminate].
  destruct (gp_segment s segr Hs)
    as [path [_ [_ [_ [_ [_ [_ [_ Hc]]]]]]]].
  unfold crossing_ok in Hc.
  destruct (_intersection segr) as [| |i] eqn:Hi; try discriminate.
  destruct (get_location st0 i) as [loc|] eqn:Hl; [|discriminate].
  destruct (_segment loc) as [| |o'] eqn:Ho; try discriminate.
  injection H as <-.
  apply andb_true_iff in Hc. destruct Hc as [Hc Hpair].
  apply andb_true_iff in Hc. destruct Hc as [Hchain Hover].
  apply andb_true_iff in Hpair. destruct Hpair as [Hpair Hback].
  apply andb_true_iff in Hpair. destruct Hpair as [Hfst Hsnd].
  exists segr, i, loc. repeat split; try assumption; try reflexivity.
  - now destruct (_next_chain loc).
  - now destruct (_overlap loc).
  - apply negb_true_iff in Hfst. now apply Nat.eqb_neq in Hfst.
  - apply negb_true_iff in Hsnd. now apply Nat.eqb_neq in Hsnd.
  - destruct (intersection_segment st0 o') as [back|]; [|discriminate].
    destruct (seg_eqb_spec back s); congruence.
Qed.

Lemma no_crossing s segr :
  get_segment st0 s = Some segr ->
  intersection_segment st0 s = None ->
  _intersection segr = undefined \/ _intersection segr = null.
Proof.
  intros Hs H. unfold intersection_segment in H. rewrite Hs in H.
  destruct (gp_segment s segr Hs)
    as [path [_ [_ [_ [_ [_ [_ [_ Hc]]]]]]]].
  unfold crossing_ok in Hc.
  destruct (_intersection segr) as [| |i]; [now left|now right|].
  destruct (get_location st0 i) as [loc|]; [|discriminate].
  destruct (_segment loc) as [| |o]; try discriminate H;
    apply andb_true_iff in Hc; destruct Hc as [_ Hc]; discriminate.
Qed.







(** *** Around a closed path *)





(** A crossing leaves to another path. *)
Lemma leave_other_path s :
  leave st0 s <> s -> fst (leave st0 s) <> fst s /\ snd s <> 0.
Proof.
  unfold leave. destruct (intersection_segment st0 s) as [o|] eqn:H.
  - intros _. destruct (crossing_pair s o H)
      as [segr [i [loc [_ [_ [_ [_ [_ [_ [Hf [Hz _]]]]]]]]]]]. now split.
  - congruence.
Qed.

(** *** The store with some segments marked *)













(** *** One iteration of the inner loop *)









(** *** What the marks look like while a path is traced *)















(** *** The whole trace *)














End GeneralPosition.

(** *** The two squares *)


















End Exclude.

(** ** PathItem.Boolean.js: [computeBoolean] and an open first operand *)

Module OpenBoolean.

Section ComputeBoolean.

(** A path item; [hasChildren] is [!!item._children] (a compound path) and
    [isClosed] is [item._closed]. *)
Variable Item : Type.
Variable hasChildren : Item -> bool.
Variable isClosed : Item -> bool.
(** A crossing, as [getCrossings] returns it. *)
Variable Crossing : Type.
(** [preparePath(path, resolve)]. *)
Variable preparePath : Item -> bool -> Item.
(** [_path1.getCrossings(_path2)]. *)
Variable getCrossings : Item -> Item -> list Crossing.
(** [crossing.split()] on what is left of [_path1]: the path as it is left,
    and the path split off, or null. *)
Variable split : Item -> Crossing -> Item * option Item.
(** [_path2.contains(path.getPointAt(path.getLength() / 2))]. *)
Variable midpointInside : Item -> Item -> bool.
(** [path.getFirstSegment().setHandleIn(0, 0)] and
    [path.getLastSegment().setHandleOut(0, 0)]. *)
Variable clearFirstHandleIn : Item -> Item.
Variable clearLastHandleOut : Item -> Item.

(** What a boolean operation returns. *)
Inductive Result : Type :=
| Null
| Group (paths : list Item)
| Closed (item : Item).

(** Lines 1179-1241: the route for a first operand that is closed, whose
    parts are [Propagate.propagateWinding] and [Trace.tracePaths]. *)
Variable closedBoolean : Item -> option Item -> Operation -> Item.

(** Lines 1257-1264. *)
Definition addPath (sub : bool) (_path2 : Item) (paths : list Item)
    (path : Item) : list Item * bool :=
  if xorb (midpointInside _path2 path) sub then (path :: paths, true)
  else (paths, false).

(** Lines 1268-1279, over the crossings from the last to the first. *)
Fixpoint split_at (sub : bool) (_path2 : Item) (crossings : list Crossing)
    (_path1 : Item) (paths : list Item) : Item * list Item :=
  match crossings with
  | [] => (_path1, paths)
  | crossing :: rest =>
      let '(_path1, piece) := split _path1 crossing in
      match piece with
      | Some path =>
          let '(paths, added) := addPath sub _path2 paths path in
          let paths :=
            match paths with
            | p :: ps => if added then clearFirstHandleIn p :: ps else paths
            | [] => paths
            end in
          split_at sub _path2 rest (clearLastHandleOut _path1) paths
      | None => split_at sub _path2 rest _path1 paths
      end
  end.

(** Lines 1251-1282: the paths of the group returned. *)
Definition open_paths (path1 path2 : Item) (operator : Operation)
  : list Item :=
  let _path1 := preparePath path1 false in
  let _path2 := preparePath path2 false in
  let crossings := getCrossings _path1 _path2 in
  let sub := is_subtract operator in
  let '(_path1, paths) := split_at sub _path2 (rev crossings) _path1 [] in
  fst (addPath sub _path2 paths _path1).

(** Lines 1244-1283. *)
Definition computeOpenBoolean (path1 : Item) (path2 : option Item)
    (operator : Operation) : Result :=
  match path2 with
  | None => Null
  | Some path2 =>
      if (negb (hasChildren path2) && negb (isClosed path2))
         || (negb (is_subtract operator) && negb (is_intersect operator))
      then Null
      else Group (open_paths path1 path2 operator)
  end.

(** Lines 1170-1242. *)
Definition computeBoolean (path1 : Item) (path2 : option Item)
    (operation : Operation) : Result :=
  if negb (hasChildren path1) && negb (isClosed path1)
  then computeOpenBoolean path1 path2 operation
  else Closed (closedBoolean path1 path2 operation).

(** C7.  With a first operand that is an open path, subtract and intersect
    against a second operand that is closed (a compound path counts as
    closed) return the group computed by the open-path route; every other
    combination returns null. *)
Theorem computeBoolean_open_first_operand path1 path2 operation :
  hasChildren path1 = false ->
  isClosed path1 = false ->
  computeBoolean path1 path2 operation =
  match path2 with
  | Some path2 =>
      if (is_subtract operation || is_intersect operation)
         && (hasChildren path2 || isClosed path2)
      then Group (open_paths path1 path2 operation)
      else Null
  | None => Null
  end.
Proof.
  intros Hc Ho. unfold computeBoolean, computeOpenBoolean.
  rewrite Hc, Ho. simpl.
  destruct path2 as [path2|]; [|reflexivity].
  destruct (hasChildren path2), (isClosed path2), operation; reflexivity.
Qed.

(** *** Subtract and intersect share out the pieces *)

(** The pieces split off the first operand, in the order of the loop, and
    what is left of it: both are the same whatever the operator. *)
Fixpoint split_pieces (crossings : list Crossing) (_path1 : Item)
  : Item * list Item :=
  match crossings with
  | [] => (_path1, [])
  | crossing :: rest =>
      let '(_path1, piece) := split _path1 crossing in
      match piece with
      | Some path =>
          let '(remaining, pieces) :=
            split_pieces rest (clearLastHandleOut _path1) in
          (remaining, path :: pieces)
      | None => split_pieces rest _path1
      end
  end.

(** The pieces whose middle is on the side the operator asks for. *)
Definition kept (sub : bool) (_path2 : Item) (pieces : list Item) : nat :=
  length (filter (fun piece => xorb (midpointInside _path2 piece) sub) pieces).

Lemma split_at_pieces sub _path2 : forall crossings _path1 paths,
  fst (split_at sub _path2 crossings _path1 paths)
  = fst (split_pieces crossings _path1) /\
  length (snd (split_at sub _path2 crossings _path1 paths))
  = length paths + kept sub _path2 (snd (split_pieces crossings _path1)).
Proof.
  unfold kept.
  induction crossings as [|crossing rest IH]; intros _path1 paths;
    cbn [split_at split_pieces].
  - cbn. split; [reflexivity | lia].
  - destruct (split _path1 crossing) as [p1 [path|]]; [|apply IH].
    unfold addPath.
    destruct (split_pieces rest (clearLastHandleOut p1))
      as [remaining pieces] eqn:Hsp.
    cbn [fst snd filter].
    destruct (xorb (midpointInside _path2 path) sub).
    + destruct (IH (clearLastHandleOut p1) (clearFirstHandleIn path :: paths))
        as [Hf Hl].
      rewrite Hsp in Hf, Hl. cbn [fst snd] in Hf, Hl.
      split; [exact Hf|]. rewrite Hl. cbn [length]. lia.
    + destruct (IH (clearLastHandleOut p1) paths) as [Hf Hl].
      rewrite Hsp in Hf, Hl. cbn [fst snd] in Hf, Hl.
      assert (Hsame : match paths with
                      | [] => paths
                      | p :: ps => if false then clearFirstHandleIn p :: ps
                                   else paths
                      end = paths) by (now destruct paths).
      rewrite Hsame. split; [exact Hf | exact Hl].
Qed.

Lemma kept_either _path2 pieces :
  kept true _path2 pieces + kept false _path2 pieces = length pieces.
Proof.
  unfold kept. induction pieces as [|piece rest IH]; [reflexivity|].
  cbn [filter].
  destruct (midpointInside _path2 piece); cbn [xorb negb length]; lia.
Qed.

(** X15.  For an open first operand, subtracting and intersecting the same
    second operand share out the pieces of the first: every piece split off
    at a crossing, and what is left at the end, goes to exactly one of the
    two results, so the two groups have together as many paths as there are
    pieces. *)
Theorem open_paths_share_out_pieces path1 path2 :
  length (open_paths path1 path2 subtract)
  + length (open_paths path1 path2 intersect)
  = S (length
         (snd (split_pieces
                 (rev (getCrossings (preparePath path1 false)
                         (preparePath path2 false)))
                 (preparePath path1 false)))).
Proof.
  unfold open_paths. cbn [is_subtract].
  set (p1 := preparePath path1 false). set (p2 := preparePath path2 false).
  set (crossings := rev (getCrossings p1 p2)).
  destruct (split_at_pieces true p2 crossings p1 []) as [Hft Hlt].
  destruct (split_at_pieces false p2 crossings p1 []) as [Hff Hlf].
  destruct (split_at true p2 crossings p1 []) as [lt pt].
  destruct (split_at false p2 crossings p1 []) as [lf pf].
  cbn [fst snd length] in *.
  pose proof (kept_either p2 (snd (split_pieces crossings p1))) as Hk.
  unfold addPath. rewrite Hft, Hff.
  destruct (midpointInside p2 (fst (split_pieces crossings p1)));
    cbn [xorb negb fst length]; lia.
Qed.

End ComputeBoolean.

(** An item told by two flags: whether it is a compound path, and whether
    it is closed. *)
Definition Flags : Type := (bool * bool)%type.

Definition open_path : Flags := (false, false).
Definition closed_path : Flags := (false, true).

(** An open path that a closed path contains and does not cross: the
    intersection is the open path, and unite is not supported. *)
Lemma computeBoolean_open_first_operand_witness :
  computeBoolean Flags fst snd unit (fun p _ => p) (fun _ _ => [])
    (fun p _ => (p, None)) (fun _ _ => true) (fun p => p) (fun p => p)
    (fun p _ _ => p) open_path (Some closed_path) intersect
  = Group Flags [open_path] /\
  computeBoolean Flags fst snd unit (fun p _ => p) (fun _ _ => [])
    (fun p _ => (p, None)) (fun _ _ => true) (fun p => p) (fun p => p)
    (fun p _ _ => p) open_path (Some closed_path) unite
  = Null Flags.
Proof.
  split.
  - exact (computeBoolean_open_first_operand Flags fst snd unit
             (fun p _ => p) (fun _ _ => []) (fun p _ => (p, None))
             (fun _ _ => true) (fun p => p) (fun p => p) (fun p _ _ => p)
             open_path (Some closed_path) intersect eq_refl eq_refl).
  - exact (computeBoolean_open_first_operand Flags fst snd unit
             (fun p _ => p) (fun _ _ => []) (fun p _ => (p, None))
             (fun _ _ => true) (fun p => p) (fun p => p) (fun p _ _ => p)
             open_path (Some closed_path) unite eq_refl eq_refl).
Defined.

End OpenBoolean.

(** ** Tool.js: the drag distances and the mouse events *)

Module Tool.

(** The [type] of an event; [_handleEvent] looks at the four mouse types
    and does nothing for any other. *)
Inductive EventType : Type :=
| mousedown
| mouseup
| mousedrag
| mousemove
| other_type.

Definition is_mousemove (type : EventType) : bool :=
  match type with
  | mousemove => true
  | _ => false
  end.

Section Events.

(** Points are objects of Point.js, which is not under src/; the tool calls
    the five methods below.  A field of the tool that holds a point is
    undefined until the first event has set it. *)
Variable Pt : Type.
(** [point.subtract(this._point)]. *)
Variable subtract : Pt -> option Pt -> Pt.
(** [vector.getLength()]. *)
Variable getLength : Pt -> float.
(** [vector.normalize(maxDistance)]. *)
Variable normalize : Pt -> float -> Pt.
(** [this._point.add(vector)]. *)
Variable add : Pt -> Pt -> Pt.
(** [point.equals(this._point)]. *)
Variable equals : Pt -> option Pt -> bool.

(** The fields of a tool that the code of this file reads and writes.  A
    distance is a number, null or undefined; the code tells the last two
    apart nowhere ([!= null], [==]). *)
Record t : Type := mk {
  _minDistance : option float;
  _maxDistance : option float;
  _point : option Pt;
  _lastPoint : option Pt;
  _downPoint : option Pt;
  _count : nat;
  _downCount : nat;
  _firstMove : bool
}.

Definition with_minDistance (d : option float) (tool : t) : t :=
  mk d (_maxDistance tool) (_point tool) (_lastPoint tool) (_downPoint tool)
     (_count tool) (_downCount tool) (_firstMove tool).

Definition with_maxDistance (d : option float) (tool : t) : t :=
  mk (_minDistance tool) d (_point tool) (_lastPoint tool) (_downPoint tool)
     (_count tool) (_downCount tool) (_firstMove tool).

Definition with_firstMove (b : bool) (tool : t) : t :=
  mk (_minDistance tool) (_maxDistance tool) (_point tool) (_lastPoint tool)
     (_downPoint tool) (_count tool) (_downCount tool) b.

(** Lines 88-94. *)
Definition setMinDistance (minDistance : option float) (tool : t) : t :=
  let tool := with_minDistance minDistance tool in
  match minDistance, _maxDistance tool with
  | Some a, Some b =>
      if (b <? a)%float then with_maxDistance minDistance tool else tool
  | _, _ => tool
  end.

(** Lines 107-113. *)
Definition setMaxDistance (maxDistance : option float) (tool : t) : t :=
  let tool := with_maxDistance maxDistance tool in
  match _minDistance tool, maxDistance with
  | Some a, Some b =>
      if (b <? a)%float then with_minDistance maxDistance tool else tool
  | _, _ => tool
  end.

(** [a == b] on two distances. *)
Definition loosely_equal (a b : option float) : bool :=
  match a, b with
  | Some x, Some y => (x =? y)%float
  | None, None => true
  | _, _ => false
  end.

(** Lines 120-123. *)
Definition getFixedDistance (tool : t) : option float :=
  if loosely_equal (_minDistance tool) (_maxDistance tool)
  then _minDistance tool else None.

(** Lines 125-127. *)
Definition setFixedDistance (distance : option float) (tool : t) : t :=
  with_maxDistance distance (with_minDistance distance tool).

(** Lines 281-322.  Returns what the method returns, and the tool as the
    method leaves it. *)
Definition _updateEvent (type : EventType) (point : Pt)
    (minDistance maxDistance : option float)
    (start needsChange matchMaxDistance : bool) (tool : t)
  : outcome (bool * t) :=
  checked <-
    (if negb start then
       moved <-
         match minDistance, maxDistance with
         | None, None => Ok (Some point)
         | _, _ =>
             let minDist := match minDistance with Some d => d | None => 0%float end in
             let vector := subtract point (_point tool) in
             let distance := getLength vector in
             if (distance <? minDist)%float then Ok None
             else
               match maxDistance with
               | Some maxD =>
                   if negb (maxD =? 0)%float then
                     if (maxD <? distance)%float then
                       this_point <- deref (_point tool) ;;
                       Ok (Some (add this_point (normalize vector maxD)))
                     else if matchMaxDistance then Ok None
                     else Ok (Some point)
                   else Ok (Some point)
               | None => Ok (Some point)
               end
         end ;;
       match moved with
       | Some point =>
           if needsChange && equals point (_point tool) then Ok None
           else Ok (Some point)
       | None => Ok None
       end
     else Ok (Some point)) ;;
  match checked with
  | None => Ok (false, tool)
  | Some point =>
      let lastPoint :=
        if start && is_mousemove type then Some point else _point tool in
      let '(lastPoint, downPoint, downCount) :=
        match type with
        | mousedown => (_downPoint tool, Some point, S (_downCount tool))
        | mouseup => (_downPoint tool, _downPoint tool, _downCount tool)
        | _ => (lastPoint, _downPoint tool, _downCount tool)
        end in
      Ok (true,
          mk (_minDistance tool) (_maxDistance tool) (Some point) lastPoint
             downPoint (if start then 0 else S (_count tool)) downCount
             (_firstMove tool))
  end.

(** [this.responds(type)]: whether a handler of that type is installed; the
    handlers are taken not to install or remove handlers while they run. *)
Variable responds : EventType -> bool.
(** [tool.emit(type, new ToolEvent(tool, type, event))]: the handlers run;
    they see the tool and may write its fields. *)
Variable call_handlers : EventType -> t -> t * bool.

(** The tool, the local variable [called], and the calls of [tool.emit]
    made so far, each with the tool as the handlers found it. *)
Record Run : Type := mkRun {
  r_tool : t;
  r_called : bool;
  r_emitted : list (EventType * t)
}.

(** The local function [emit] of lines 332-335. *)
Definition emit (type : EventType) (run : Run) : Run :=
  if responds type then
    let '(tool, handled) := call_handlers type (r_tool run) in
    mkRun tool (handled || r_called run)
          (r_emitted run ++ [(type, r_tool run)])
  else run.

Definition set_tool (tool : t) (run : Run) : Run :=
  mkRun tool (r_called run) (r_emitted run).

(** Lines 366-375: the loop that mouse moves and drags share. *)
Fixpoint move_loop (fuel : nat) (type : EventType) (drag : bool) (point : Pt)
    (needsChange matchMaxDistance : bool) (run : Run) : outcome Run :=
  match fuel with
  | 0 => OutOfFuel
  | S fuel =>
      let tool := r_tool run in
      '(updated, tool) <-
        _updateEvent type point (_minDistance tool) (_maxDistance tool)
          (negb drag && _firstMove tool) needsChange matchMaxDistance tool ;;
      if updated then
        let run := emit type (set_tool tool run) in
        if drag then move_loop fuel type drag point true true run
        else
          move_loop fuel type drag point needsChange matchMaxDistance
            (set_tool (with_firstMove false (r_tool run)) run)
      else Ok (set_tool tool run)
  end.

(** Lines 324-381.  Returns the run; [_handleEvent] returns its [called]. *)
Definition _handleEvent (fuel : nat) (type : EventType) (point : Pt)
    (tool : t) : outcome Run :=
  let run := mkRun tool false [] in
  match type with
  | mousedown =>
      '(_, tool) <- _updateEvent type point None None true false false tool ;;
      Ok (emit type (set_tool tool run))
  | mouseup =>
      '(_, tool) <-
        _updateEvent type point None (_maxDistance tool) false false false
          tool ;;
      let run := emit type (set_tool tool run) in
      '(_, tool) <-
        _updateEvent type point None None true false false (r_tool run) ;;
      Ok (set_tool (with_firstMove true tool) run)
  | mousedrag =>
      let drag := responds mousedrag in
      let type := if drag then mousedrag else mousemove in
      move_loop fuel type drag point (negb drag) false run
  | mousemove => move_loop fuel mousemove false point true false run
  | other_type => Ok run
  end.

(** *** The two distances *)

(** The minimum is not above the maximum, where both are set. *)
Definition ordered (tool : t) : Prop :=
  match _minDistance tool, _maxDistance tool with
  | Some a, Some b => (b <? a)%float = false
  | _, _ => True
  end.

(** X16.  Each of the two setters stores the distance it is given and
    leaves the minimum not above the maximum, whatever the two were before:
    where needed it moves the other bound to the new value. *)
Theorem setters_keep_distances_ordered d tool :
  (_minDistance (setMinDistance d tool) = d
   /\ ordered (setMinDistance d tool)) /\
  (_maxDistance (setMaxDistance d tool) = d
   /\ ordered (setMaxDistance d tool)).
Proof.
  destruct tool as [mn mx pt lp dp c dc fm].
  unfold setMinDistance, setMaxDistance, ordered.
  destruct d as [a|], mn as [m|], mx as [x|]; cbn;
    repeat match goal with
           | |- context [if ?b then _ else _] => destruct b eqn:?
           end;
    cbn; repeat split; auto using ltb_irrefl.
Qed.

(** X17.  Setting the minimum and then the maximum to the same distance, or
    the maximum and then the minimum, leaves the tool as [setFixedDistance]
    with that distance does. *)
Theorem setting_both_distances_fixes_distance d tool :
  setMaxDistance d (setMinDistance d tool) = setFixedDistance d tool /\
  setMinDistance d (setMaxDistance d tool) = setFixedDistance d tool.
Proof.
  destruct tool as [mn mx pt lp dp c dc fm].
  unfold setMinDistance, setMaxDistance, setFixedDistance.
  destruct d as [a|], mn as [m|], mx as [x|]; cbn;
    repeat match goal with
           | |- context [if ?b then _ else _] => destruct b eqn:?
           end;
    cbn; try rewrite ltb_irrefl; split; reflexivity.
Qed.

(** *** Mouse events *)

(** X18.  When a mouse-up has been handled, the tool stands at the point of
    the event with its count at 0 and its first-move flag set, and its last
    point is the point of the last mouse-down, whatever the distances are
    and whatever the handlers do to the tool. *)
Theorem mouseup_resets_tool fuel point tool run :
  _handleEvent fuel mouseup point tool = Ok run ->
  _point (r_tool run) = Some point /\
  _count (r_tool run) = 0 /\
  _firstMove (r_tool run) = true /\
  _lastPoint (r_tool run) = _downPoint (r_tool run).
Proof.
  unfold _handleEvent. intros H.
  bind_cases H. destruct a as [updated tool1].
  cbn [_updateEvent negb bind] in H.
  inversion H; subst. cbn. repeat split.
Qed.

(** The handlers leave the fields of the tool alone. *)
Definition handlers_only_look : Prop :=
  forall type tool, fst (call_handlers type tool) = tool.

Lemma emit_only_looks type run :
  handlers_only_look ->
  r_tool (emit type run) = r_tool run /\
  r_emitted (emit type run)
  = r_emitted run ++ (if responds type then [(type, r_tool run)] else []).
Proof.
  intros Hh. unfold emit. destruct (responds type);
    [|now rewrite app_nil_r].
  pose proof (Hh type (r_tool run)) as Hf.
  destruct (call_handlers type (r_tool run)) as [tool' handled].
  cbn in *. now subst.
Qed.

(** The tool after an update of a move or a drag that was accepted. *)
Definition moved_to (point : Pt) (start : bool) (tool : t) : t :=
  mk (_minDistance tool) (_maxDistance tool) (Some point)
     (if start then Some point else _point tool) (_downPoint tool)
     (if start then 0 else S (_count tool)) (_downCount tool)
     (_firstMove tool).

(** With no distance set an update asks only whether the point changed. *)
Lemma _updateEvent_mousemove point start needsChange matchMaxDistance tool :
  _updateEvent mousemove point None None start needsChange matchMaxDistance
    tool
  = if negb start && needsChange && equals point (_point tool)
    then Ok (false, tool)
    else Ok (true, moved_to point start tool).
Proof.
  unfold _updateEvent, moved_to.
  destruct start; cbn [negb andb bind]; [reflexivity|].
  destruct (needsChange && equals point (_point tool)); reflexivity.
Qed.

Lemma _updateEvent_mousedrag point needsChange matchMaxDistance tool :
  _updateEvent mousedrag point None None false needsChange matchMaxDistance
    tool
  = if needsChange && equals point (_point tool)
    then Ok (false, tool)
    else Ok (true, moved_to point false tool).
Proof.
  unfold _updateEvent, moved_to. cbn [negb andb bind].
  destruct (needsChange && equals point (_point tool)); reflexivity.
Qed.

Lemma move_loop_turn fuel type drag point needsChange matchMaxDistance run :
  move_loop (S fuel) type drag point needsChange matchMaxDistance run
  = '(updated, tool) <-
      _updateEvent type point (_minDistance (r_tool run))
        (_maxDistance (r_tool run))
        (negb drag && _firstMove (r_tool run)) needsChange matchMaxDistance
        (r_tool run) ;;
    if updated then
      let run := emit type (set_tool tool run) in
      if drag then move_loop fuel type drag point true true run
      else
        move_loop fuel type drag point needsChange matchMaxDistance
          (set_tool (with_firstMove false (r_tool run)) run)
    else Ok (set_tool tool run).
Proof. reflexivity. Qed.

(** X19.  With no distance set and handlers that leave the tool alone, a
    mouse move is handled within two turns of the loop and calls the
    handlers at most once: not at all when the tool has moved before and
    the point is the one it stands at, and otherwise once, with the tool
    at the new point. *)
Theorem mousemove_emits_at_most_once fuel point tool :
  _minDistance tool = None ->
  _maxDistance tool = None ->
  handlers_only_look ->
  equals point (Some point) = true ->
  exists run,
    _handleEvent (S (S fuel)) mousemove point tool = Ok run /\
    if negb (_firstMove tool) && equals point (_point tool)
    then run = mkRun tool false []
    else
      r_tool run
      = with_firstMove false (moved_to point (_firstMove tool) tool) /\
      r_emitted run
      = if responds mousemove
        then [(mousemove, moved_to point (_firstMove tool) tool)]
        else [].
Proof.
  intros Hmin Hmax Hh Heq. unfold _handleEvent.
  rewrite move_loop_turn. cbn [r_tool negb andb]. rewrite Hmin, Hmax.
  rewrite _updateEvent_mousemove, andb_true_r.
  destruct (negb (_firstMove tool) && equals point (_point tool));
    cbn [bind].
  - eexists. split; reflexivity.
  - set (tool1 := moved_to point (_firstMove tool) tool).
    destruct (emit_only_looks mousemove
                (set_tool tool1 (mkRun tool false [])) Hh) as [Ht He].
    cbn [set_tool r_tool r_emitted r_called app] in Ht, He.
    cbn [set_tool r_tool r_emitted r_called]. cbv zeta.
    set (run1 := emit mousemove _) in *.
    rewrite move_loop_turn. cbn [set_tool r_tool negb andb]. rewrite Ht.
    change (_minDistance (with_firstMove false tool1))
      with (_minDistance tool).
    change (_maxDistance (with_firstMove false tool1))
      with (_maxDistance tool).
    rewrite Hmin, Hmax, _updateEvent_mousemove.
    change (_firstMove (with_firstMove false tool1)) with false.
    change (_point (with_firstMove false tool1)) with (Some point).
    cbn [negb andb]. rewrite Heq. cbn [bind].
    eexists. split; [reflexivity|].
    cbn [set_tool r_tool r_emitted]. split; [reflexivity | exact He].
Qed.

(** X20.  With a drag handler installed, no distance set and handlers that
    leave the tool alone, a mouse drag is handled within two turns of the
    loop and calls the drag handlers exactly once, with the tool at the
    point of the event, also when the mouse has not moved. *)
Theorem mousedrag_emits_once fuel point tool :
  responds mousedrag = true ->
  _minDistance tool = None ->
  _maxDistance tool = None ->
  handlers_only_look ->
  equals point (Some point) = true ->
  exists run,
    _handleEvent (S (S fuel)) mousedrag point tool = Ok run /\
    r_tool run = moved_to point false tool /\
    r_emitted run = [(mousedrag, moved_to point false tool)].
Proof.
  intros Hr Hmin Hmax Hh Heq. unfold _handleEvent. rewrite Hr.
  rewrite move_loop_turn. cbn [r_tool negb andb]. rewrite Hmin, Hmax.
  rewrite _updateEvent_mousedrag. cbn [andb bind].
  set (tool1 := moved_to point false tool).
  destruct (emit_only_looks mousedrag
              (set_tool tool1 (mkRun tool false [])) Hh) as [Ht He].
  rewrite Hr in He.
  cbn [set_tool r_tool r_emitted r_called app] in Ht, He.
  cbn [set_tool r_tool r_emitted r_called]. cbv zeta.
  set (run1 := emit mousedrag _) in *.
  rewrite move_loop_turn. cbn [negb andb]. rewrite Ht.
  change (_minDistance tool1) with (_minDistance tool).
  change (_maxDistance tool1) with (_maxDistance tool).
  rewrite Hmin, Hmax, _updateEvent_mousedrag.
  change (_point tool1) with (Some point).
  cbn [andb]. rewrite Heq. cbn [bind].
  eexists. split; [reflexivity|].
  cbn [set_tool r_tool r_emitted]. split; [reflexivity | exact He].
Qed.

(** X21.  A mouse move, once the first move has been made, or a drag with a
    drag handler installed, that ends closer to the point the tool stands
    at than the minimum distance calls no handler and leaves the tool as it
    was. *)
Theorem move_below_minDistance_is_dropped fuel point tool d :
  _minDistance tool = Some d ->
  (getLength (subtract point (_point tool)) <? d)%float = true ->
  (_firstMove tool = false ->
   _handleEvent (S fuel) mousemove point tool = Ok (mkRun tool false [])) /\
  (responds mousedrag = true ->
   _handleEvent (S fuel) mousedrag point tool = Ok (mkRun tool false [])).
Proof.
  intros Hmin Hlt.
  assert (Hrej : forall type needsChange matchMaxDistance,
            _updateEvent type point (Some d) (_maxDistance tool) false
              needsChange matchMaxDistance tool = Ok (false, tool)).
  { intros type nc mm. unfold _updateEvent. cbn [negb].
    rewrite Hlt. reflexivity. }
  split.
  - intros Hfm. unfold _handleEvent. cbn [move_loop r_tool].
    rewrite Hmin, Hfm. cbn [negb andb]. rewrite Hrej. reflexivity.
  - intros Hr. unfold _handleEvent. rewrite Hr. cbn [move_loop r_tool].
    rewrite Hmin. cbn [negb andb]. rewrite Hrej. reflexivity.
Qed.

End Events.

(** *** A tool on points of the plane *)

(** The five methods for points given by their coordinates, an undefined
    point counting as the origin. *)
Definition or_origin (p : option Point.t) : Point.t :=
  match p with
  | Some q => q
  | None => Point.mk 0 0
  end.

Definition plain_subtract (p : Point.t) (q : option Point.t) : Point.t :=
  Point.mk (Point.x p - Point.x (or_origin q))
           (Point.y p - Point.y (or_origin q)).

Definition plain_getLength (p : Point.t) : float :=
  sqrt (Point.x p * Point.x p + Point.y p * Point.y p).

Definition plain_normalize (p : Point.t) (length : float) : Point.t :=
  Point.mk (Point.x p * (length / plain_getLength p))
           (Point.y p * (length / plain_getLength p)).

Definition plain_add (p q : Point.t) : Point.t :=
  Point.mk (Point.x p + Point.x q) (Point.y p + Point.y q).

Definition plain_equals (p : Point.t) (q : option Point.t) : bool :=
  match q with
  | Some r => (Point.x p =? Point.x r)%float && (Point.y p =? Point.y r)%float
  | None => false
  end.

(** Every type has a handler, and the handlers only look. *)
Definition all_respond (type : EventType) : bool := true.
Definition looking (type : EventType) (tool : t Point.t)
  : t Point.t * bool := (tool, true).

(** A tool as [initialize] leaves it, and one that has made its first move
    to the origin and asks for drags of at least 10. *)
Definition fresh_tool : t Point.t := mk Point.t None None None None None 0 0 true.

Definition settled_tool : t Point.t :=
  mk Point.t (Some 10%float) None (Some (Point.mk 0 0)) None None 1 0 false.

Definition handle (fuel : nat) (type : EventType) (point : Point.t)
    (tool : t Point.t) : outcome (Run Point.t) :=
  _handleEvent Point.t plain_subtract plain_getLength plain_normalize
    plain_add plain_equals all_respond looking fuel type point tool.

Definition after_mouseup : Run Point.t :=
  match handle 0 mouseup (Point.mk 3 4) fresh_tool with
  | Ok run => run
  | _ => mkRun Point.t fresh_tool false []
  end.

Lemma after_mouseup_run :
  handle 0 mouseup (Point.mk 3 4) fresh_tool = Ok after_mouseup.
Proof. vm_compute. reflexivity. Qed.

(** X18 on a fresh tool. *)
Lemma mouseup_resets_tool_witness :
  _point Point.t (r_tool Point.t after_mouseup) = Some (Point.mk 3 4) /\
  _count Point.t (r_tool Point.t after_mouseup) = 0 /\
  _firstMove Point.t (r_tool Point.t after_mouseup) = true /\
  _lastPoint Point.t (r_tool Point.t after_mouseup)
  = _downPoint Point.t (r_tool Point.t after_mouseup).
Proof.
  exact (mouseup_resets_tool Point.t plain_subtract plain_getLength
           plain_normalize plain_add plain_equals all_respond looking
           0 (Point.mk 3 4) fresh_tool after_mouseup after_mouseup_run).
Defined.

(** X19 on a fresh tool: its first move calls the handlers once. *)
Lemma mousemove_emits_at_most_once_witness :
  exists run,
    handle 2 mousemove (Point.mk 3 4) fresh_tool = Ok run /\
    r_tool Point.t run
    = with_firstMove Point.t false
        (moved_to Point.t (Point.mk 3 4) true fresh_tool) /\
    r_emitted Point.t run
    = [(mousemove, moved_to Point.t (Point.mk 3 4) true fresh_tool)].
Proof.
  exact (mousemove_emits_at_most_once Point.t plain_subtract plain_getLength
           plain_normalize plain_add plain_equals all_respond looking
           0 (Point.mk 3 4) fresh_tool eq_refl eq_refl
           (fun type tool => eq_refl) eq_refl).
Defined.

(** X20 on a fresh tool. *)
Lemma mousedrag_emits_once_witness :
  exists run,
    handle 2 mousedrag (Point.mk 3 4) fresh_tool = Ok run /\
    r_tool Point.t run = moved_to Point.t (Point.mk 3 4) false fresh_tool /\
    r_emitted Point.t run
    = [(mousedrag, moved_to Point.t (Point.mk 3 4) false fresh_tool)].
Proof.
  exact (mousedrag_emits_once Point.t plain_subtract plain_getLength
           plain_normalize plain_add plain_equals all_respond looking
           0 (Point.mk 3 4) fresh_tool eq_refl eq_refl eq_refl
           (fun type tool => eq_refl) eq_refl).
Defined.

(** X21 on the tool that asks for 10: a move to (3,4), at the distance 5,
    is dropped. *)
Lemma move_below_minDistance_is_dropped_witness :
  (_firstMove Point.t settled_tool = false ->
   handle 1 mousemove (Point.mk 3 4) settled_tool
   = Ok (mkRun Point.t settled_tool false [])) /\
  (all_respond mousedrag = true ->
   handle 1 mousedrag (Point.mk 3 4) settled_tool
   = Ok (mkRun Point.t settled_tool false [])).
Proof.
  exact (move_below_minDistance_is_dropped Point.t plain_subtract
           plain_getLength plain_normalize plain_add plain_equals
           all_respond looking 0 (Point.mk 3 4) settled_tool 10%float
           eq_refl eq_refl).
Defined.

End Tool.

(** ** PathItem.Boolean.js: [computeBoolean], from the divided paths to the
    trace *)

Module ClosedBoolean.

Import Store.

(** [path._overlapsOnly = a; path._validOverlapsOnly = b]. *)
Definition set_flags (overlapsOnly validOverlapsOnly : bool) (path : Path)
  : Path :=
  mkPath (_segments path) (_closed path) overlapsOnly validOverlapsOnly
         (_parent path).

Definition alter_path (f : Path -> Path) (p : nat) (st : Store.t) : Store.t :=
  Store.mk (alter_nth f p (paths st)) (locations st).

(** [path._segments], as references. *)
Definition segments_of (st : Store.t) (p : nat) : list SegRef :=
  match get_path st p with
  | Some path => map (fun i => (p, i)) (seq 0 (length (_segments path)))
  | None => []
  end.

(** The local variables [segments] and [curves], and the store. *)
Record Collected : Type := mkCollected {
  c_store : Store.t;
  c_segments : list SegRef;
  c_curves : list Winding.Curve
}.

Section ComputeBoolean.

Variable getCurve : SegRef -> option SegRef.
Variable getLength : SegRef -> float.
Variable getTimeAt : SegRef -> float -> float.
Variable getPointAtTime : SegRef -> float -> Point.t.
Variable tangentY : SegRef -> float -> float.
Variable getCurves : ItemRef -> list Winding.Curve.
Variable solveCubic :
  Winding.Values -> nat -> float -> float -> float -> list float.
Variable getPoint : Winding.Values -> float -> Point.t.
Variable getMonoCurves : Winding.Values -> nat -> list Winding.Values.
Variable getArea : Trace.NewPath -> float.
Variable isZero : float -> bool.
Variable Base_equals : Store.t -> nat -> nat -> bool.

(** The table [operators[operation]], and the two prepared operands. *)
Variable operator : Operation.
Variable _path1 : ItemRef.
Variable _path2 : option ItemRef.

(** Lines 1200-1209: the local function [collect], over the indices of the
    paths. *)
Fixpoint collect (children : list nat) (c : Collected) : Collected :=
  match children with
  | [] => c
  | p :: rest =>
      collect rest
        (mkCollected
           (alter_path (set_flags true true) p (c_store c))
           (c_segments c ++ segments_of (c_store c) p)
           (c_curves c ++ getCurves (PathItem p)))
  end.

Definition propagate (curves : list Winding.Curve) (st : Store.t)
    (segment : SegRef) : outcome Store.t :=
  Propagate.propagateWinding getCurve getLength getTimeAt getPointAtTime
    tangentY getCurves solveCubic getPoint getMonoCurves st segment _path1
    _path2 curves operator.

(** Lines 1217-1220: the chains that start in a crossing. *)
Fixpoint propagate_crossings (curves : list Winding.Curve)
    (crossings : list LocRef) (st : Store.t) : outcome Store.t :=
  match crossings with
  | [] => Ok st
  | crossing :: rest =>
      loc <- deref (get_location st crossing) ;;
      match _segment loc with
      | obj segment =>
          st <- propagate curves st segment ;;
          propagate_crossings curves rest st
      | _ => Throw
      end
  end.

(** [inter && inter._overlap]. *)
Definition overlaps (st : Store.t) (inter : JsRef LocRef) : outcome bool :=
  match inter with
  | obj i => loc <- deref (get_location st i) ;; Ok (_overlap loc)
  | _ => Ok false
  end.

(** Lines 1223-1238: the body of the loop over [segments]. *)
Definition settle (curves : list Winding.Curve) (st : Store.t)
    (segment : SegRef) : outcome Store.t :=
  segr <- deref (get_segment st segment) ;;
  st <- match _winding segr with
        | None => propagate curves st segment
        | Some _ => Ok st
        end ;;
  overlap <- overlaps st (_intersection segr) ;;
  if negb overlap then
    segr <- deref (get_segment st segment) ;;
    Ok (alter_path
          (fun path =>
             set_flags false
               (if operator_lookup operator (_winding segr) then false
                else _validOverlapsOnly path)
               path)
          (fst segment) st)
  else Ok st.

Fixpoint settle_all (curves : list Winding.Curve) (segments : list SegRef)
    (st : Store.t) : outcome Store.t :=
  match segments with
  | [] => Ok st
  | segment :: rest =>
      st <- settle curves st segment ;; settle_all curves rest st
  end.

(** Lines 1195-1239: all of [computeBoolean] between the division of the
    paths and the trace.  [children1] and [children2] are
    [_path1._children || [_path1]] and the same of [_path2]. *)
Definition prepare (children1 children2 : list nat) (crossings : list LocRef)
    (st : Store.t) : outcome (Store.t * list SegRef) :=
  let c := collect children1 (mkCollected st [] []) in
  let c := match _path2 with
           | Some _ => collect children2 c
           | None => c
           end in
  st <- propagate_crossings (c_curves c) crossings (c_store c) ;;
  st <- settle_all (c_curves c) (c_segments c) st ;;
  Ok (st, c_segments c).

(** Lines 1195-1241: the paths traced, before [createResult]. *)
Definition computeBoolean (children1 children2 : list nat)
    (crossings : list LocRef) (st : Store.t) : outcome Trace.Traced :=
  '(st, segments) <- prepare children1 children2 crossings st ;;
  Trace.tracePaths getArea isZero Base_equals (Some operator) st segments.

(** *** Every segment gets a winding *)

Lemma get_segment_alter_path f p st s :
  (forall path, _segments (f path) = _segments path) ->
  get_segment (alter_path f p st) s = get_segment st s.
Proof.
  intros Hf. unfold get_segment, get_path, alter_path. cbn [paths].
  rewrite nth_error_alter_nth.
  destruct (Nat.eqb p (fst s)); [|reflexivity].
  destruct (nth_error (paths st) (fst s)) as [path|]; [|reflexivity].
  cbn. now rewrite Hf.
Qed.

Lemma has_winding_alter_path f p st s :
  (forall path, _segments (f path) = _segments path) ->
  Propagate.has_winding st s -> Propagate.has_winding (alter_path f p st) s.
Proof.
  intros Hf [seg [Hs Hw]]. exists seg.
  now rewrite get_segment_alter_path.
Qed.

Lemma settle_has_winding curves st segment st' :
  settle curves st segment = Ok st' ->
  Propagate.has_winding st' segment /\
  (forall s, Propagate.has_winding st s -> Propagate.has_winding st' s).
Proof.
  unfold settle. intros H. bind_cases H. rename a into segr.
  apply deref_Ok in E.
  assert (Hst : exists st1,
             match _winding segr with
             | Some _ => Ok st
             | None => propagate curves st segment
             end = Ok st1 /\
             Propagate.has_winding st1 segment /\
             (forall s, Propagate.has_winding st s ->
                        Propagate.has_winding st1 s)).
  { destruct (_winding segr) as [w|] eqn:Hw.
    - exists st. repeat split; [|auto].
      exists segr. split; [exact E | congruence].
    - destruct (propagate curves st segment) as [st1| |] eqn:Hp;
        try discriminate.
      exists st1. split; [reflexivity|].
      apply Propagate.propagateWinding_leaves in Hp.
      destruct Hp as [Hseed [Hkeep _]]. split; assumption. }
  destruct Hst as [st1 [Hrun [Hseed Hkeep]]]. rewrite Hrun in H.
  cbn [bind] in H. bind_cases H. rename a into overlap.
  destruct (negb overlap).
  - bind_cases H. inversion H; subst. split.
    + now apply has_winding_alter_path.
    + intros s Hs. apply has_winding_alter_path; [reflexivity | auto].
  - inversion H; subst. split; assumption.
Qed.

Lemma settle_all_has_winding curves : forall segments st st',
  settle_all curves segments st = Ok st' ->
  Forall (Propagate.has_winding st') segments /\
  (forall s, Propagate.has_winding st s -> Propagate.has_winding st' s).
Proof.
  induction segments as [|segment rest IH]; intros st st' H;
    cbn [settle_all] in H.
  - inversion H; subst. split; [constructor | auto].
  - bind_cases H. apply settle_has_winding in E. destruct E as [Hseed Hkeep].
    destruct (IH _ _ H) as [Hall Hkeep']. split.
    + constructor; [now apply Hkeep' | exact Hall].
    + intros s Hs. auto.
Qed.

(** X22.  When [computeBoolean] has propagated the windings without an
    exception, every segment of the array it hands to [tracePaths] has a
    winding that is not undefined: the tracer never looks up the operator
    table with an undefined winding. *)
Theorem prepare_settles_windings children1 children2 crossings st st'
    segments :
  prepare children1 children2 crossings st = Ok (st', segments) ->
  Forall (Propagate.has_winding st') segments.
Proof.
  unfold prepare. intros H. bind_cases H. bind_cases H.
  inversion H; subst.
  now apply settle_all_has_winding in E0.
Qed.

(** *** Which paths are marked as made of overlaps only *)

(** [inter && inter._overlap] for the intersection of a segment. *)
Definition is_overlap (st : Store.t) (s : SegRef) : bool :=
  match get_segment st s with
  | Some segr =>
      match _intersection segr with
      | obj i =>
          match get_location st i with
          | Some loc => _overlap loc
          | None => false
          end
      | _ => false
      end
  | None => false
  end.

(** The locations and the intersections of the segments are the same. *)
Definition same_links (st st' : Store.t) : Prop :=
  locations st' = locations st /\
  forall s, option_map _intersection (get_segment st' s)
            = option_map _intersection (get_segment st s).

Definition overlapsOnly_of (st : Store.t) (p : nat) : option bool :=
  option_map _overlapsOnly (get_path st p).

Lemma same_links_refl st : same_links st st.
Proof. now split. Qed.

Lemma same_links_trans st1 st2 st3 :
  same_links st1 st2 -> same_links st2 st3 -> same_links st1 st3.
Proof.
  intros [L1 S1] [L2 S2]. split; [congruence|].
  intros s. now rewrite S2, S1.
Qed.

Lemma is_overlap_same_links st st' s :
  same_links st st' -> is_overlap st' s = is_overlap st s.
Proof.
  intros [Hl Hs]. unfold is_overlap, get_location. specialize (Hs s).
  destruct (get_segment st' s) as [a|], (get_segment st s) as [b|];
    cbn in Hs; try discriminate; [|reflexivity].
  inversion Hs as [Hi]. now rewrite Hi, Hl.
Qed.

Lemma same_but_windings_links st st' :
  Propagate.same_but_windings st st' ->
  same_links st st' /\
  forall p, overlapsOnly_of st' p = overlapsOnly_of st p.
Proof.
  intros [Hl [Hp Hs]]. split; [split; [exact Hl|]|].
  - intros s. specialize (Hs s).
    destruct (get_segment st' s) as [a|], (get_segment st s) as [b|];
      cbn in *; congruence.
  - intros p. specialize (Hp p). unfold overlapsOnly_of.
    destruct (get_path st' p) as [a|], (get_path st p) as [b|];
      cbn in *; congruence.
Qed.

Lemma alter_path_links f p st :
  (forall path, _segments (f path) = _segments path) ->
  same_links st (alter_path f p st).
Proof.
  intros Hf. split; [reflexivity|].
  intros s. now rewrite get_segment_alter_path.
Qed.

Lemma overlapsOnly_of_alter_path f p st q :
  overlapsOnly_of (alter_path f p st) q
  = if Nat.eqb p q
    then option_map (fun path => _overlapsOnly (f path)) (get_path st q)
    else overlapsOnly_of st q.
Proof.
  unfold overlapsOnly_of, get_path, alter_path. cbn [paths].
  rewrite nth_error_alter_nth.
  destruct (Nat.eqb p q); [|reflexivity].
  now destruct (nth_error (paths st) q).
Qed.

Lemma overlaps_is_overlap st segment segr overlap :
  get_segment st segment = Some segr ->
  overlaps st (_intersection segr) = Ok overlap ->
  overlap = is_overlap st segment.
Proof.
  intros Hs H. unfold is_overlap. rewrite Hs. unfold overlaps in H.
  destruct (_intersection segr) as [| |i]; try (inversion H; reflexivity).
  destruct (get_location st i) as [loc|]; cbn in H;
    [inversion H; reflexivity | discriminate].
Qed.

Lemma settle_flags curves st segment st' :
  settle curves st segment = Ok st' ->
  same_links st st' /\
  forall p,
    overlapsOnly_of st' p
    = option_map
        (fun b => b && (negb (Nat.eqb (fst segment) p) || is_overlap st segment))
        (overlapsOnly_of st p).
Proof.
  unfold settle. intros H. bind_cases H. rename a into segr.
  apply deref_Ok in E.
  assert (Hst : exists st1,
             match _winding segr with
             | Some _ => Ok st
             | None => propagate curves st segment
             end = Ok st1 /\
             same_links st st1 /\
             forall p, overlapsOnly_of st1 p = overlapsOnly_of st p).
  { destruct (_winding segr) as [w|].
    - exists st. repeat split.
    - destruct (propagate curves st segment) as [st1| |] eqn:Hp;
        try discriminate.
      exists st1. split; [reflexivity|].
      apply Propagate.propagateWinding_leaves in Hp.
      destruct Hp as [_ [_ Hsame]].
      now apply same_but_windings_links. }
  destruct Hst as [st1 [Hrun [Hlinks Hflags]]]. rewrite Hrun in H.
  cbn [bind] in H. bind_cases H. rename a into overlap.
  assert (Hseg1 : exists segr1,
             get_segment st1 segment = Some segr1 /\
             _intersection segr1 = _intersection segr).
  { destruct Hlinks as [_ Hs]. specialize (Hs segment). rewrite E in Hs.
    destruct (get_segment st1 segment) as [segr1|]; cbn in Hs;
      [|discriminate].
    exists segr1. split; [reflexivity | congruence]. }
  destruct Hseg1 as [segr1 [Hseg1 Hinter]].
  rewrite <- Hinter in E0.
  apply (overlaps_is_overlap st1 segment segr1 overlap Hseg1) in E0.
  rewrite (is_overlap_same_links st st1 segment Hlinks) in E0. subst overlap.
  destruct (is_overlap st segment) eqn:Hov; cbn [negb] in H.
  - inversion H; subst. split; [exact Hlinks|].
    intros p. rewrite Hflags, orb_true_r.
    destruct (overlapsOnly_of st p) as [b|]; cbn; [|reflexivity].
    now rewrite andb_true_r.
  - bind_cases H. inversion H; subst. split.
    + eapply same_links_trans; [exact Hlinks|].
      now apply alter_path_links.
    + intros p. rewrite overlapsOnly_of_alter_path, orb_false_r.
      destruct (Nat.eqb (fst segment) p) eqn:Hp; cbn [negb].
      * fold (overlapsOnly_of st1 p).
        assert (Hm : option_map
                       (fun path => _overlapsOnly
                          (set_flags false
                             (if operator_lookup operator (_winding a)
                              then false else _validOverlapsOnly path) path))
                       (get_path st1 p)
                     = option_map (fun _ => false) (overlapsOnly_of st1 p)).
        { unfold overlapsOnly_of. now destruct (get_path st1 p). }
        rewrite Hm, Hflags.
        destruct (overlapsOnly_of st p) as [b|]; cbn; [|reflexivity].
        now rewrite andb_false_r.
      * rewrite Hflags.
        destruct (overlapsOnly_of st p) as [b|]; cbn; [|reflexivity].
        now rewrite andb_true_r.
Qed.

Lemma forallb_same {A} (f g : A -> bool) : forall l,
  (forall x, f x = g x) -> forallb f l = forallb g l.
Proof.
  intros l H. induction l as [|x l IH]; [reflexivity|].
  cbn. now rewrite H, IH.
Qed.

Lemma settle_all_flags curves : forall segments st st',
  settle_all curves segments st = Ok st' ->
  same_links st st' /\
  forall p,
    overlapsOnly_of st' p
    = option_map
        (fun b =>
           b && forallb
                  (fun s => negb (Nat.eqb (fst s) p) || is_overlap st s)
                  segments)
        (overlapsOnly_of st p).
Proof.
  induction segments as [|segment rest IH]; intros st st' H;
    cbn [settle_all] in H.
  - inversion H; subst. split; [apply same_links_refl|].
    intros p. cbn [forallb].
    destruct (overlapsOnly_of st' p) as [b|]; cbn; [|reflexivity].
    now rewrite andb_true_r.
  - bind_cases H. apply settle_flags in E. destruct E as [Hl Hf].
    destruct (IH _ _ H) as [Hl' Hf']. split.
    + eapply same_links_trans; eassumption.
    + intros p. rewrite Hf', Hf. cbn [forallb].
      assert (Hsame : forallb
                (fun s => negb (Nat.eqb (fst s) p) || is_overlap a s) rest
              = forallb
                  (fun s => negb (Nat.eqb (fst s) p) || is_overlap st s) rest).
      { apply forallb_same. intros s.
        now rewrite (is_overlap_same_links st a s Hl). }
      rewrite Hsame.
      destruct (overlapsOnly_of st p) as [b|]; cbn; [|reflexivity].
      now rewrite andb_assoc.
Qed.

Lemma propagate_crossings_links curves : forall crossings st st',
  propagate_crossings curves crossings st = Ok st' ->
  same_links st st' /\
  forall p, overlapsOnly_of st' p = overlapsOnly_of st p.
Proof.
  induction crossings as [|crossing rest IH]; intros st st' H;
    cbn [propagate_crossings] in H.
  - inversion H; subst. split; [apply same_links_refl | reflexivity].
  - bind_cases H. destruct (_segment a) as [| |segment]; try discriminate.
    bind_cases H. apply Propagate.propagateWinding_leaves in E0.
    destruct E0 as [_ [_ Hsame]].
    apply same_but_windings_links in Hsame. destruct Hsame as [Hl Hf].
    destruct (IH _ _ H) as [Hl' Hf']. split.
    + eapply same_links_trans; eassumption.
    + intros p. now rewrite Hf', Hf.
Qed.

Lemma segments_of_alter_path f p st q :
  (forall path, _segments (f path) = _segments path) ->
  segments_of (alter_path f p st) q = segments_of st q.
Proof.
  intros Hf. unfold segments_of, get_path, alter_path. cbn [paths].
  rewrite nth_error_alter_nth.
  destruct (Nat.eqb p q); [|reflexivity].
  destruct (nth_error (paths st) q) as [path|]; [|reflexivity].
  cbn. now rewrite Hf.
Qed.

(** What [collect] gathers and marks. *)
Lemma collect_spec : forall children c,
  let c' := collect children c in
  c_segments c' = c_segments c ++ flat_map (segments_of (c_store c)) children /\
  same_links (c_store c) (c_store c') /\
  (forall q, segments_of (c_store c') q = segments_of (c_store c) q) /\
  (forall p, overlapsOnly_of (c_store c') p
             = if existsb (Nat.eqb p) children
               then option_map (fun _ => true) (overlapsOnly_of (c_store c) p)
               else overlapsOnly_of (c_store c) p).
Proof.
  cbv zeta. induction children as [|q rest IH]; intros c; cbn [collect].
  - cbn. rewrite app_nil_r. repeat split.
  - destruct (IH (mkCollected
                    (alter_path (set_flags true true) q (c_store c))
                    (c_segments c ++ segments_of (c_store c) q)
                    (c_curves c ++ getCurves (PathItem q))))
      as [Hseg [Hl [Hso Hf]]].
    cbn [c_store c_segments] in Hseg, Hl, Hso, Hf.
    repeat split.
    + rewrite Hseg, <- app_assoc.
      change (flat_map (segments_of (c_store c)) (q :: rest))
        with (segments_of (c_store c) q
              ++ flat_map (segments_of (c_store c)) rest).
      do 2 f_equal.
      apply flat_map_ext. intros r.
      now apply segments_of_alter_path.
    + destruct Hl as [Hl _]. exact Hl.
    + intros s. destruct Hl as [_ Hs]. rewrite Hs.
      now rewrite get_segment_alter_path.
    + intros r. rewrite Hso. now apply segments_of_alter_path.
    + intros p. rewrite Hf, overlapsOnly_of_alter_path. cbn [existsb].
      rewrite (Nat.eqb_sym p q).
      destruct (Nat.eqb q p) eqn:Hqp; cbn [orb].
      * unfold overlapsOnly_of.
        destruct (get_path (c_store c) p); cbn;
          now destruct (existsb (Nat.eqb p) rest).
      * reflexivity.
Qed.

Lemma forallb_of_path (f : SegRef -> bool) st p : forall children,
  forallb (fun s : SegRef => negb (Nat.eqb (fst s) p) || f s)
          (flat_map (segments_of st) children)
  = if existsb (Nat.eqb p) children then forallb f (segments_of st p)
    else true.
Proof.
  assert (Hother : forall q, q <> p ->
            forallb (fun s : SegRef => negb (Nat.eqb (fst s) p) || f s)
                    (segments_of st q) = true).
  { intros q Hq. unfold segments_of.
    destruct (get_path st q) as [path|]; [|reflexivity].
    apply forallb_forall. intros s Hs. apply in_map_iff in Hs.
    destruct Hs as [i [<- _]]. cbn [fst].
    destruct (Nat.eqb_spec q p); [contradiction | reflexivity]. }
  assert (Hsame :
            forallb (fun s : SegRef => negb (Nat.eqb (fst s) p) || f s)
                    (segments_of st p)
            = forallb f (segments_of st p)).
  { unfold segments_of.
    destruct (get_path st p) as [path|]; [|reflexivity].
    generalize (seq 0 (length (_segments path))) as l.
    induction l as [|i l IH]; [reflexivity|].
    cbn [map forallb fst]. now rewrite Nat.eqb_refl, IH. }
  induction children as [|q rest IH]; [reflexivity|].
  change (flat_map (segments_of st) (q :: rest))
    with (segments_of st q ++ flat_map (segments_of st) rest).
  cbn [existsb]. rewrite forallb_app, IH.
  destruct (Nat.eqb_spec p q) as [<-|Hne]; cbn [orb].
  - rewrite Hsame.
    destruct (existsb (Nat.eqb p) rest);
      [apply andb_diag | apply andb_true_r].
  - rewrite (Hother q) by congruence. reflexivity.
Qed.

(** X23.  When [computeBoolean] has propagated the windings, a path of
    either operand is left marked [_overlapsOnly] exactly when every one of
    its segments carries an intersection that is an overlap; a single
    segment without one clears the mark. *)
Theorem prepare_marks_paths_of_overlaps children1 children2 crossings st st'
    segments p path' :
  prepare children1 children2 crossings st = Ok (st', segments) ->
  In p (children1 ++ match _path2 with
                     | Some _ => children2
                     | None => []
                     end) ->
  get_path st' p = Some path' ->
  _overlapsOnly path' = forallb (is_overlap st) (segments_of st p).
Proof.
  unfold prepare. intros H Hin Hpath.
  set (c1 := collect children1 (mkCollected st [] [])) in *.
  set (c := match _path2 with
            | Some _ => collect children2 c1
            | None => c1
            end) in *.
  bind_cases H. bind_cases H. inversion H; subst. clear H.
  destruct (collect_spec children1 (mkCollected st [] []))
    as [Hseg1 [Hl1 [Hso1 Hf1]]].
  fold c1 in Hseg1, Hl1, Hso1, Hf1. cbn [c_store c_segments app] in *.
  assert (Hc : c_segments c
               = flat_map (segments_of st)
                   (children1 ++ match _path2 with
                                 | Some _ => children2
                                 | None => []
                                 end)
               /\ same_links st (c_store c)
               /\ (forall q, overlapsOnly_of (c_store c) q
                             = if existsb (Nat.eqb q)
                                    (children1 ++ match _path2 with
                                                  | Some _ => children2
                                                  | None => []
                                                  end)
                               then option_map (fun _ => true)
                                      (overlapsOnly_of st q)
                               else overlapsOnly_of st q)).
  { unfold c. destruct _path2 as [item|].
    - destruct (collect_spec children2 c1) as [Hseg2 [Hl2 [Hso2 Hf2]]].
      repeat split.
      + rewrite Hseg2, Hseg1, flat_map_app. f_equal.
        apply flat_map_ext. intros q. apply Hso1.
      + destruct Hl1, Hl2. congruence.
      + intros s. destruct Hl1 as [_ S1], Hl2 as [_ S2].
        now rewrite S2, S1.
      + intros q. rewrite Hf2, Hf1, existsb_app.
        destruct (existsb (Nat.eqb q) children1),
                 (existsb (Nat.eqb q) children2),
                 (overlapsOnly_of st q); reflexivity.
    - rewrite app_nil_r. repeat split; [exact Hseg1 | apply Hl1 | apply Hl1 |].
      exact Hf1. }
  destruct Hc as [Hsegs [Hlc Hfc]].
  apply propagate_crossings_links in E. destruct E as [Hla Hfa].
  apply settle_all_flags in E0. destruct E0 as [Hlb Hfb].
  specialize (Hfb p). rewrite Hfa, Hfc in Hfb.
  assert (Hex : existsb (Nat.eqb p)
                  (children1 ++ match _path2 with
                                | Some _ => children2
                                | None => []
                                end) = true).
  { apply existsb_exists. exists p. split; [exact Hin | apply Nat.eqb_refl]. }
  rewrite Hex in Hfb. unfold overlapsOnly_of at 1 in Hfb.
  rewrite Hpath in Hfb. cbn [option_map] in Hfb.
  assert (Hov : forallb
                  (fun s => negb (Nat.eqb (fst s) p) || is_overlap a s)
                  (c_segments c)
                = forallb (is_overlap st) (segments_of st p)).
  { rewrite Hsegs.
    rewrite (forallb_same _ (fun s => negb (Nat.eqb (fst s) p)
                                      || is_overlap st s)).
    - rewrite forallb_of_path, Hex. reflexivity.
    - intros s. f_equal. apply is_overlap_same_links.
      eapply same_links_trans; eassumption. }
  rewrite Hov in Hfb.
  destruct (overlapsOnly_of st p) as [b|]; cbn in Hfb;
    [|discriminate].
  now inversion Hfb.
Qed.

End ComputeBoolean.

(** *** The two squares, from the divided paths to the result *)

(** The squares of [Scenario], whose crossings are the locations 1, 0, 3
    and 2 in the order of their segments. *)
Definition prepare_squares (operator : Operation)
  : outcome (Store.t * list SegRef) :=
  prepare (fun s => Some s) (Scenario.edge_length Scenario.squares)
    (Scenario.edge_timeAt Scenario.squares)
    (Scenario.edge_pointAt Scenario.squares)
    (Scenario.edge_tangentY Scenario.squares)
    (Scenario.item_curves Scenario.squares Scenario.clockwise)
    Scenario.no_roots Scenario.no_point Winding.straight_getMonoCurves
    operator (PathItem 0) (Some (PathItem 1)) [0] [1] [1; 0; 3; 2]
    Scenario.squares.

Definition prepared_squares : Store.t * list SegRef :=
  match prepare_squares subtract with
  | Ok r => r
  | _ => (Scenario.squares, [])
  end.

(** Subtracting the second square from the first, all the way: the flags
    of both paths come out false, and the one L-shaped path is traced. *)
Example computeBoolean_squares :
  map (fun path => (_overlapsOnly path, _validOverlapsOnly path))
      (paths (fst prepared_squares))
  = [(false, false); (false, false)] /\
  Scenario.outlines
    (computeBoolean (fun s => Some s) (Scenario.edge_length Scenario.squares)
       (Scenario.edge_timeAt Scenario.squares)
       (Scenario.edge_pointAt Scenario.squares)
       (Scenario.edge_tangentY Scenario.squares)
       (Scenario.item_curves Scenario.squares Scenario.clockwise)
       Scenario.no_roots Scenario.no_point Winding.straight_getMonoCurves
       Scenario.polygon_area Scenario.isZero Scenario.never_equal
       subtract (PathItem 0) (Some (PathItem 1)) [0] [1] [1; 0; 3; 2]
       Scenario.squares)
  = [ ([Scenario.P 0 0; Scenario.P 100 0; Scenario.P 100 50;
        Scenario.P 50 50; Scenario.P 50 100; Scenario.P 0 100], true) ].
Proof. split; vm_compute; reflexivity. Qed.

(** The run of [prepare] on the squares, with its result taken apart. *)
Lemma prepared_squares_parts :
  prepare (fun s => Some s) (Scenario.edge_length Scenario.squares)
    (Scenario.edge_timeAt Scenario.squares)
    (Scenario.edge_pointAt Scenario.squares)
    (Scenario.edge_tangentY Scenario.squares)
    (Scenario.item_curves Scenario.squares Scenario.clockwise)
    Scenario.no_roots Scenario.no_point Winding.straight_getMonoCurves
    subtract (PathItem 0) (Some (PathItem 1)) [0] [1] [1; 0; 3; 2]
    Scenario.squares
  = Ok (fst prepared_squares, snd prepared_squares).
Proof. vm_compute. reflexivity. Qed.

(** The first square as [prepare] leaves it. *)
Definition prepared_first : Path :=
  match get_path (fst prepared_squares) 0 with
  | Some path => path
  | None => mkPath [] true false false None
  end.

Lemma prepared_first_found :
  get_path (fst prepared_squares) 0 = Some prepared_first.
Proof. vm_compute. reflexivity. Qed.

(** X22 on the two squares. *)
Lemma prepare_settles_windings_witness :
  Forall (Propagate.has_winding (fst prepared_squares))
         (snd prepared_squares).
Proof.
  apply (prepare_settles_windings _ _ _ _ _ _ _ _ _ _ _ _ _ _ _ _ _ _
           prepared_squares_parts).
Defined.

(** X23 on the two squares: the first square has segments that are not
    overlaps, and its mark is cleared. *)
Lemma prepare_marks_paths_of_overlaps_witness :
  _overlapsOnly prepared_first
  = forallb (is_overlap Scenario.squares) (segments_of Scenario.squares 0).
Proof.
  apply (prepare_marks_paths_of_overlaps _ _ _ _ _ _ _ _ _ _ _ _ _ _ _ _ _ _
           _ _ prepared_squares_parts (or_introl eq_refl)
           prepared_first_found).
Defined.

End ClosedBoolean.

(** ** Linking the intersections of one segment *)

Module Link.

(** The fields [_next] and [_previous] of the locations, by location; null
    and undefined are [None]. *)
Record Heap : Type := mkHeap {
  _next : nat -> option nat;
  _previous : nat -> option nat
}.

(** [loc._next = value] and [loc._previous = value]. *)
Definition set_next (loc value : nat) (h : Heap) : Heap :=
  mkHeap (fun n => if Nat.eqb n loc then Some value else _next h n)
         (_previous h).

Definition set_previous (loc value : nat) (h : Heap) : Heap :=
  mkHeap (_next h)
         (fun n => if Nat.eqb n loc then Some value else _previous h n).

(** Lines 1295-1300: the walk to the beginning of the chain; [true] when it
    comes upon [to], where the function returns. *)
Fixpoint find_before (fuel : nat) (h : Heap) (prev : option nat) (to : nat)
  : outcome bool :=
  match fuel with
  | 0 => OutOfFuel
  | S fuel =>
      match prev with
      | None => Ok false
      | Some p =>
          if Nat.eqb p to then Ok true
          else find_before fuel h (_previous h p) to
      end
  end.

(** Lines 1303-1304. *)
Fixpoint walk_to_end (fuel : nat) (h : Heap) (from to : nat) : outcome nat :=
  match fuel with
  | 0 => OutOfFuel
  | S fuel =>
      match _next h from with
      | Some n => if Nat.eqb n to then Ok from else walk_to_end fuel h n to
      | None => Ok from
      end
  end.

(** Lines 1308-1309. *)
Fixpoint walk_to_start (fuel : nat) (h : Heap) (to : nat) : outcome nat :=
  match fuel with
  | 0 => OutOfFuel
  | S fuel =>
      match _previous h to with
      | Some p => walk_to_start fuel h p
      | None => Ok to
      end
  end.

(** Lines 1291-1313, on two locations. *)
Definition linkIntersections (fuel : nat) (h : Heap) (from to : nat)
  : outcome Heap :=
  found <- find_before fuel h (Some from) to ;;
  if found then Ok h
  else
    from <- walk_to_end fuel h from to ;;
    match _next h from with
    | None =>
        to <- walk_to_start fuel h to ;;
        Ok (set_previous to from (set_next from to h))
    | Some _ => Ok h
    end.

(** *** Chains *)

(** The locations of [chain] are linked one to the next and back, the first
    one having [before] as its [_previous] and the last one no [_next]. *)
Fixpoint linked_from (h : Heap) (before : option nat) (chain : list nat)
  : Prop :=
  match chain with
  | [] => True
  | a :: rest =>
      _previous h a = before /\
      _next h a = hd_error rest /\
      linked_from h (Some a) rest
  end.

(** The chains of the heap: each one is a list without a link going out of
    it, and no location is in two of them or twice in one. *)
Definition chains_of (h : Heap) (chains : list (list nat)) : Prop :=
  NoDup (concat chains) /\
  Forall (fun chain => chain <> [] /\ linked_from h None chain) chains.

Lemma linked_from_frame h h' : forall chain before,
  (forall n, In n chain ->
             _next h' n = _next h n /\ _previous h' n = _previous h n) ->
  linked_from h before chain -> linked_from h' before chain.
Proof.
  induction chain as [|a rest IH]; intros before Hsame H; [exact I|].
  destruct H as [Hp [Hn Hrest]].
  destruct (Hsame a (or_introl eq_refl)) as [Hn' Hp'].
  cbn [linked_from]. rewrite Hn', Hp'. repeat split; try assumption.
  apply IH; [|exact Hrest]. intros n Hin. apply Hsame. now right.
Qed.

Lemma linked_from_suffix h : forall pre before rest,
  linked_from h before (pre ++ rest) ->
  exists before', linked_from h before' rest.
Proof.
  induction pre as [|a pre IH]; intros before rest H.
  - now exists before.
  - destruct H as [_ [_ H]]. exact (IH _ _ H).
Qed.

Lemma linked_previous h : forall pre before p x rest,
  linked_from h before (pre ++ p :: x :: rest) -> _previous h x = Some p.
Proof.
  induction pre as [|a pre IH]; intros before p x rest H.
  - destruct H as [_ [_ [H _]]]. exact H.
  - destruct H as [_ [_ H]]. exact (IH _ _ _ _ H).
Qed.

Lemma linked_first h before x rest :
  linked_from h before (x :: rest) -> _previous h x = before.
Proof. now intros [H _]. Qed.

(** The first walk answers whether [to] is [from] or before it. *)
Lemma find_before_chain h to : forall pre x post fuel,
  linked_from h None (pre ++ x :: post) ->
  length pre + 1 < fuel ->
  find_before fuel h (Some x) to
  = Ok (existsb (Nat.eqb to) (pre ++ [x])).
Proof.
  induction pre as [|p pre IH] using rev_ind; intros x post fuel H Hfuel.
  - destruct fuel as [|[|fuel]]; cbn in Hfuel; try lia.
    cbn [find_before app existsb]. rewrite (linked_first _ _ _ _ H).
    rewrite (Nat.eqb_sym to x), orb_false_r.
    now destruct (Nat.eqb x to).
  - rewrite length_app in Hfuel. cbn in Hfuel.
    destruct fuel as [|fuel]; [lia|].
    rewrite <- app_assoc in H. cbn [app] in H.
    cbn [find_before]. rewrite (linked_previous _ _ _ _ _ _ H).
    rewrite existsb_app. cbn [existsb].
    rewrite (Nat.eqb_sym to x), orb_false_r.
    destruct (Nat.eqb x to); [now rewrite orb_true_r|].
    rewrite orb_false_r. apply (IH p (x :: post)); [exact H | lia].
Qed.

(** The second walk ends on the last location when [to] is not ahead. *)
Lemma walk_to_end_last h to : forall post x before fuel,
  linked_from h before (x :: post) ->
  ~ In to post ->
  length post < fuel ->
  walk_to_end fuel h x to = Ok (last post x) /\
  _next h (last post x) = None.
Proof.
  induction post as [|n post IH]; intros x before fuel H Hto Hfuel;
    (destruct fuel as [|fuel]; [cbn in Hfuel; lia|]);
    destruct H as [_ [Hn H]]; cbn [walk_to_end]; rewrite Hn; cbn [hd_error].
  - now split.
  - destruct (Nat.eqb_spec n to) as [->|Hne].
    + exfalso. apply Hto. now left.
    + destruct (IH n (Some x) fuel H) as [Hw Hl].
      * intros Hin. apply Hto. now right.
      * cbn in Hfuel. lia.
      * assert (Hlast : last (n :: post) x = last post n).
        { clear. revert n x. induction post as [|m post IH]; intros n x;
            [reflexivity|].
          change (last (n :: m :: post) x) with (last (m :: post) x).
          now rewrite (IH m x), (IH m n). }
        rewrite Hlast. now split.
Qed.

(** And it stops short of [to] when [to] is ahead. *)
Lemma walk_to_end_stops h to : forall post x before fuel,
  linked_from h before (x :: post) ->
  In to post ->
  length post < fuel ->
  exists r, walk_to_end fuel h x to = Ok r /\ _next h r = Some to.
Proof.
  induction post as [|n post IH]; intros x before fuel H Hto Hfuel;
    [contradiction|].
  destruct fuel as [|fuel]; [cbn in Hfuel; lia|].
  destruct H as [_ [Hn H]]. cbn [walk_to_end]. rewrite Hn. cbn [hd_error].
  destruct (Nat.eqb_spec n to) as [->|Hne].
  - exists x. now split.
  - destruct Hto as [Heq|Hin]; [contradiction|].
    apply (IH n (Some x) fuel H Hin). cbn in Hfuel. lia.
Qed.

(** The third walk ends on the first location of the chain. *)
Lemma walk_to_start_first h : forall pre x post fuel,
  linked_from h None (pre ++ x :: post) ->
  length pre < fuel ->
  walk_to_start fuel h x = Ok (hd x (pre ++ x :: post)).
Proof.
  induction pre as [|p pre IH] using rev_ind; intros x post fuel H Hfuel.
  - destruct fuel as [|fuel]; [cbn in Hfuel; lia|].
    cbn [walk_to_start app hd]. now rewrite (linked_first _ _ _ _ H).
  - rewrite length_app in Hfuel. cbn in Hfuel.
    destruct fuel as [|fuel]; [lia|].
    rewrite <- app_assoc in *. cbn [app] in *.
    cbn [walk_to_start]. rewrite (linked_previous _ _ _ _ _ _ H).
    rewrite (IH p (x :: post) fuel H) by lia.
    f_equal. now destruct pre.
Qed.

Lemma walk_to_start_unlinked h : forall fuel to r,
  walk_to_start fuel h to = Ok r -> _previous h r = None.
Proof.
  induction fuel as [|fuel IH]; intros to r H; [discriminate|].
  cbn [walk_to_start] in H.
  destruct (_previous h to) as [p|] eqn:Hp; [exact (IH _ _ H)|].
  now inversion H; subst.
Qed.

(** Linking the end of one chain to the beginning of another makes one
    chain of the two. *)
Lemma linked_from_join h l f tail : forall body before,
  linked_from h before (body ++ [l]) ->
  linked_from h None (f :: tail) ->
  NoDup (body ++ l :: f :: tail) ->
  linked_from (set_previous f l (set_next l f h)) before
    (body ++ l :: f :: tail).
Proof.
  induction body as [|a body IH]; intros before Hcf Hct Hnd.
  - cbn [app] in *. destruct Hcf as [Hp [_ _]].
    destruct Hct as [_ [Hfn Htail]].
    apply NoDup_cons_iff in Hnd. destruct Hnd as [Hl Hnd].
    apply NoDup_cons_iff in Hnd. destruct Hnd as [Hf Hnd].
    assert (Hlf : l <> f) by (intros ->; apply Hl; now left).
    cbn [linked_from set_previous set_next _next _previous hd_error].
    rewrite !Nat.eqb_refl.
    destruct (Nat.eqb_spec l f) as [|_]; [contradiction|].
    destruct (Nat.eqb_spec f l) as [Hfl|_]; [now symmetry in Hfl|].
    repeat split; try assumption.
    apply (linked_from_frame h); [|exact Htail].
    intros n Hin. cbn [set_previous set_next _next _previous].
    destruct (Nat.eqb_spec n l) as [->|_];
      [exfalso; apply Hl; now right|].
    destruct (Nat.eqb_spec n f) as [->|_]; [contradiction|].
    now split.
  - cbn [app] in *. destruct Hcf as [Hp [Hn Hrest]].
    apply NoDup_cons_iff in Hnd. destruct Hnd as [Ha Hnd].
    cbn [linked_from]. repeat split.
    + cbn [set_previous _previous].
      destruct (Nat.eqb_spec a f) as [->|_]; [|exact Hp].
      exfalso. apply Ha. apply in_or_app. right. right. now left.
    + cbn [set_previous set_next _next].
      destruct (Nat.eqb_spec a l) as [->|_].
      * exfalso. apply Ha. apply in_or_app. right. now left.
      * rewrite Hn. now destruct body.
    + apply IH; assumption.
Qed.

(** X24.  On locations of one chain [linkIntersections] changes nothing,
    whichever of the two comes first. *)
Theorem linkIntersections_within_chain h chain from to fuel :
  linked_from h None chain ->
  NoDup chain ->
  In from chain ->
  In to chain ->
  length chain < fuel ->
  linkIntersections fuel h from to = Ok h.
Proof.
  intros Hl Hnd Hfrom Hto Hfuel.
  destruct (in_split _ _ Hfrom) as [pre [post ->]].
  rewrite length_app in Hfuel. cbn in Hfuel.
  unfold linkIntersections.
  rewrite (find_before_chain h to pre from post fuel Hl) by lia.
  destruct (existsb (Nat.eqb to) (pre ++ [from])) eqn:Hex; [reflexivity|].
  cbn [bind].
  assert (Hin : In to post).
  { apply in_app_or in Hto. destruct Hto as [Hin|[Heq|Hin]];
      [| |exact Hin]; exfalso.
    - assert (Ht : existsb (Nat.eqb to) (pre ++ [from]) = true).
      { apply existsb_exists. exists to. split;
          [apply in_or_app; now left | apply Nat.eqb_refl]. }
      congruence.
    - assert (Ht : existsb (Nat.eqb to) (pre ++ [from]) = true).
      { apply existsb_exists. exists to. split;
          [apply in_or_app; right; now left | apply Nat.eqb_refl]. }
      congruence. }
  destruct (linked_from_suffix h pre None (from :: post) Hl) as [b Hs].
  destruct (walk_to_end_stops h to post from b fuel Hs Hin) as [r [Hw Hr]];
    [lia|].
  rewrite Hw. cbn [bind]. now rewrite Hr.
Qed.

(** X25.  On locations of two different chains [linkIntersections] hangs
    the chain of [to] behind the chain of [from], wherever in their chains
    the two are, and leaves every other chain as it is. *)
Theorem linkIntersections_joins_chains h cf ct others from to fuel :
  chains_of h (cf :: ct :: others) ->
  In from cf ->
  In to ct ->
  length cf + length ct < fuel ->
  exists h',
    linkIntersections fuel h from to = Ok h' /\
    chains_of h' ((cf ++ ct) :: others).
Proof.
  intros [Hnd Hall] Hfrom Hto Hfuel.
  cbn [concat] in Hnd.
  apply Forall_cons_iff in Hall. destruct Hall as [[_ Hcf] Hall].
  apply Forall_cons_iff in Hall. destruct Hall as [[_ Hct] Hothers].
  destruct (in_split _ _ Hfrom) as [pre [post Ecf]].
  destruct (in_split _ _ Hto) as [pre' [post' Ect]].
  assert (Hnot : ~ In to cf).
  { intros Hin. apply in_split in Hin. destruct Hin as [a [b Ea]].
    rewrite Ea, <- app_assoc in Hnd. cbn [app] in Hnd.
    apply NoDup_remove_2 in Hnd. apply Hnd.
    apply in_or_app. right. apply in_or_app. right.
    apply in_or_app. now left. }
  pose proof Hfuel as Hfuel'.
  rewrite Ecf, Ect, !length_app in Hfuel'. cbn in Hfuel'.
  unfold linkIntersections.
  rewrite Ecf in Hcf.
  rewrite (find_before_chain h to pre from post fuel Hcf) by lia.
  assert (Hex : existsb (Nat.eqb to) (pre ++ [from]) = false).
  { destruct (existsb (Nat.eqb to) (pre ++ [from])) eqn:Hex;
      [|reflexivity].
    apply existsb_exists in Hex. destruct Hex as [n [Hin Hn]].
    apply Nat.eqb_eq in Hn. subst n. exfalso. apply Hnot. rewrite Ecf.
    apply in_app_or in Hin. apply in_or_app.
    destruct Hin as [Hin|[Heq|[]]]; [now left | right; now left]. }
  rewrite Hex. cbn [bind].
  destruct (linked_from_suffix h pre None (from :: post) Hcf) as [b Hs].
  destruct (walk_to_end_last h to post from b fuel Hs) as [Hw Hlast];
    [|lia|].
  { intros Hin. apply Hnot. rewrite Ecf. apply in_or_app. right. now right. }
  rewrite Hw. cbn [bind]. rewrite Hlast.
  rewrite Ect in Hct.
  rewrite (walk_to_start_first h pre' to post' fuel Hct) by lia.
  cbn [bind]. eexists. split; [reflexivity|].
  set (l := last post from).
  set (f := hd to (pre' ++ to :: post')).
  assert (Ecf' : cf = removelast cf ++ [l]).
  { assert (Hne : cf <> []) by (rewrite Ecf; now destruct pre).
    rewrite (app_removelast_last from Hne) at 1. f_equal. f_equal.
    rewrite Ecf. unfold l. clear.
    induction pre as [|a pre IH]; cbn [app].
    - destruct post; reflexivity.
    - rewrite <- IH. now destruct pre. }
  assert (Ect' : ct = f :: tl ct).
  { rewrite Ect. unfold f. now destruct pre'. }
  rewrite <- Ecf in Hcf. rewrite <- Ect in Hct.
  assert (Hnd' : NoDup (removelast cf ++ l :: f :: tl ct ++ concat others)).
  { rewrite Ecf', Ect' in Hnd. rewrite <- !app_assoc in Hnd.
    exact Hnd. }
  assert (Hjoin : linked_from (set_previous f l (set_next l f h)) None
                    (removelast cf ++ l :: f :: tl ct)).
  { apply linked_from_join.
    - now rewrite <- Ecf'.
    - now rewrite <- Ect'.
    - rewrite app_comm_cons, app_comm_cons, app_assoc in Hnd'.
      now apply NoDup_app_remove_r in Hnd'. }
  split.
  - cbn [concat]. rewrite <- app_assoc. exact Hnd.
  - constructor.
    + split; [rewrite Ecf; now destruct pre|].
      rewrite Ecf' at 1. rewrite Ect' at 1. rewrite <- app_assoc.
      exact Hjoin.
    + rewrite Forall_forall in Hothers. apply Forall_forall.
      intros chain Hchain. destruct (Hothers chain Hchain) as [Hne Hl].
      split; [exact Hne|].
      apply (linked_from_frame h); [|exact Hl].
      intros n Hin.
      assert (Hcat : In n (concat others)).
      { apply in_concat. exists chain. now split. }
      cbn [set_previous set_next _next _previous].
      destruct (Nat.eqb_spec n l) as [->|_].
      * exfalso. apply NoDup_remove_2 in Hnd'. apply Hnd'.
        apply in_or_app. right. right. apply in_or_app. now right.
      * destruct (Nat.eqb_spec n f) as [->|_]; [|now split].
        exfalso.
        assert (Hnd2 : NoDup ((removelast cf ++ [l])
                              ++ f :: tl ct ++ concat others))
          by (rewrite <- app_assoc; exact Hnd').
        apply NoDup_remove_2 in Hnd2. apply Hnd2.
        apply in_or_app. right. apply in_or_app. now right.
Qed.

(** X26.  [linkIntersections] only fills links that are empty: whatever the
    heap is, a [_next] or [_previous] that is set before the call is the
    same after it. *)
Theorem linkIntersections_keeps_links fuel h from to h' :
  linkIntersections fuel h from to = Ok h' ->
  forall n m,
    (_next h n = Some m -> _next h' n = Some m) /\
    (_previous h n = Some m -> _previous h' n = Some m).
Proof.
  unfold linkIntersections. intros H n m. bind_cases H.
  destruct a; [inversion H; subst; now split|].
  bind_cases H. rename a into last_from.
  destruct (_next h last_from) as [x|] eqn:Hn;
    [inversion H; subst; now split|].
  bind_cases H. rename a into first_to.
  apply walk_to_start_unlinked in E1.
  inversion H; subst. cbn [set_previous set_next _next _previous].
  split; intros Hset.
  - destruct (Nat.eqb_spec n last_from) as [->|_]; congruence.
  - destruct (Nat.eqb_spec n first_to) as [->|_]; congruence.
Qed.

(** *** Two chains of two locations *)

Definition unlinked : Heap := mkHeap (fun _ => None) (fun _ => None).

(** 0 and 1 are linked, and 2 and 3. *)
Definition two_chains : Heap :=
  set_previous 3 2 (set_next 2 3 (set_previous 1 0 (set_next 0 1 unlinked))).

Definition joined : Heap :=
  match linkIntersections 5 two_chains 1 3 with
  | Ok h => h
  | _ => two_chains
  end.

Lemma two_chains_chains : chains_of two_chains [[0; 1]; [2; 3]].
Proof.
  split.
  - repeat constructor; cbn; intuition discriminate.
  - repeat constructor; discriminate.
Qed.

(** X24 on the first chain, from its end to its beginning. *)
Lemma linkIntersections_within_chain_witness :
  linkIntersections 3 two_chains 1 0 = Ok two_chains.
Proof.
  apply (linkIntersections_within_chain two_chains [0; 1] 1 0 3).
  - repeat split.
  - repeat constructor; cbn; intuition discriminate.
  - right. now left.
  - now left.
  - cbn. lia.
Defined.

(** X25 from the end of the first chain to the end of the second. *)
Lemma linkIntersections_joins_chains_witness :
  exists h',
    linkIntersections 5 two_chains 1 3 = Ok h' /\
    chains_of h' [[0; 1; 2; 3]].
Proof.
  apply (linkIntersections_joins_chains two_chains [0; 1] [2; 3] [] 1 3 5).
  - exact two_chains_chains.
  - right. now left.
  - right. now left.
  - cbn. lia.
Defined.

(** X26 on the same call: the links of the first chain stay. *)
Lemma linkIntersections_keeps_links_witness :
  _next joined 0 = Some 1 /\ _previous joined 1 = Some 0.
Proof.
  split.
  - exact (proj1 (linkIntersections_keeps_links 5 two_chains 1 3 joined
                    eq_refl 0 1) eq_refl).
  - exact (proj2 (linkIntersections_keeps_links 5 two_chains 1 3 joined
                    eq_refl 1 0) eq_refl).
Defined.

End Link.

(** ** CurveLocation.js: crossings *)

Module Crossing.

Import CurveLocation.

#[local] Arguments _id {Curve Segment} _.
#[local] Arguments _version {Curve Segment} _.
#[local] Arguments _curve {Curve Segment} _.
#[local] Arguments _segment {Curve Segment} _.
#[local] Arguments _segment1 {Curve Segment} _.
#[local] Arguments _segment2 {Curve Segment} _.
#[local] Arguments _parameter {Curve Segment} _.
#[local] Arguments _point {Curve Segment} _.
#[local] Arguments _distance {Curve Segment} _.
#[local] Arguments _overlap {Curve Segment} _.
#[local] Arguments _crossing {Curve Segment} _.
#[local] Arguments _intersection {Curve Segment} _.
#[local] Arguments _other {Curve Segment} _.

(** [Math.PI]. *)
Definition PI : float := 0x1.921fb54442d18p+1%float.

(** Lines 329-334: the local function [isInRange]. *)
Definition isInRange (angle min max : float) : bool :=
  if (min <? max)%float then (min <? angle)%float && (angle <? max)%float
  else (min <? angle)%float && (angle <=? PI)%float
       || (- PI <=? angle)%float && (angle <? max)%float.

(** Lines 345-346: the value returned, read as a truth value. *)
Definition edges_cross (a1 a2 a3 a4 : float) : bool :=
  xorb (isInRange a3 a1 a2) (isInRange a4 a1 a2)
  && xorb (isInRange a3 a2 a1) (isInRange a4 a2 a1).

Section IsCrossing.

Variable Curve : Type.
Variable Segment : Type.
(** [curve.getPrevious()]. *)
Variable getPrevious : Curve -> option Curve.
(** [curve.getTangentAt(tMax, true).negate().getAngleInRadians()] and
    [curve.getTangentAt(tMin, true).getAngleInRadians()]. *)
Variable angle_at_end : Curve -> float.
Variable angle_at_start : Curve -> float.

(** [this._crossing = false]. *)
Definition no_crossing (l : t Curve Segment) : t Curve Segment :=
  mk _ _ (_id l) (_version l) (_curve l) (_segment l) (_segment1 l)
     (_segment2 l) (_parameter l) (_point l) (_distance l) (_overlap l)
     (Some false) (_intersection l) (_other l).

(** Lines 285-347, called without [_report]: the value returned and the
    heap as the call leaves it. *)
Definition isCrossing (h : heap Curve Segment) (this : nat)
  : outcome (bool * heap Curve Segment) :=
  l <- deref (nth_error h this) ;;
  match _crossing l, _intersection l with
  | Some crossing, _ => Ok (crossing, h)
  | None, None => Ok (false, h)
  | None, Some intersection =>
      other <- deref (nth_error h intersection) ;;
      let c2 := _curve l in
      let c4 := _curve other in
      match getPrevious c2, getPrevious c4 with
      | Some c1, Some c3 =>
          Ok (edges_cross (angle_at_end c1) (angle_at_start c2)
                          (angle_at_end c3) (angle_at_start c4), h)
      | _, _ => Ok (false, alter_nth no_crossing this h)
      end
  end.

(** An angle as [Math.atan2] gives it. *)
Definition is_angle (a : float) : Prop :=
  (- PI <=? a)%float = true /\ (a <=? PI)%float = true.

(** Four angles, no two of them the same. *)
Definition four_directions (a1 a2 a3 a4 : float) : Prop :=
  (is_angle a1 /\ is_angle a2 /\ is_angle a3 /\ is_angle a4) /\
  (a1 =? a2)%float = false /\ (a1 =? a3)%float = false /\
  (a1 =? a4)%float = false /\ (a2 =? a3)%float = false /\
  (a2 =? a4)%float = false /\ (a3 =? a4)%float = false.

Lemma is_angle_number a : is_angle a -> (a =? a)%float = true.
Proof.
  intros [H _]. revert H.
  rewrite leb_spec, eqb_spec. unfold SFleb, SFeqb.
  destruct (SFcompare (Prim2SF (- PI)) (Prim2SF a)) as [c|] eqn:Hc;
    [|discriminate].
  intros _. now rewrite (SFcompare_number _ _ _ Hc).
Qed.

Ltac order_cycle :=
  match goal with
  | H1 : (?x <? ?y)%float = true, H2 : (?y <? ?z)%float = true,
    H3 : (?z <? ?x)%float = true |- _ =>
      exfalso; pose proof (ltb_trans _ _ _ H1 H2) as T;
      rewrite (ltb_not_ltb _ _ H3) in T; discriminate T
  end.

(** The two pairs of directions split each other, or neither splits the
    other. *)
Lemma edges_cross_sym a1 a2 a3 a4 :
  four_directions a1 a2 a3 a4 ->
  edges_cross a1 a2 a3 a4 = edges_cross a3 a4 a1 a2.
Proof.
  intros [[A1 [A2 [A3 A4]]] [E12 [E13 [E14 [E23 [E24 E34]]]]]].
  pose proof (is_angle_number _ A1) as N1.
  pose proof (is_angle_number _ A2) as N2.
  pose proof (is_angle_number _ A3) as N3.
  pose proof (is_angle_number _ A4) as N4.
  destruct A1 as [L1 U1], A2 as [L2 U2], A3 as [L3 U3], A4 as [L4 U4].
  pose proof (ltb_total a1 a2 N1 N2 E12) as T12.
  pose proof (ltb_total a1 a3 N1 N3 E13) as T13.
  pose proof (ltb_total a1 a4 N1 N4 E14) as T14.
  pose proof (ltb_total a2 a3 N2 N3 E23) as T23.
  pose proof (ltb_total a2 a4 N2 N4 E24) as T24.
  pose proof (ltb_total a3 a4 N3 N4 E34) as T34.
  unfold edges_cross, isInRange.
  rewrite L1, L2, L3, L4, U1, U2, U3, U4.
  destruct (a2 <? a1)%float eqn:H21, (a3 <? a1)%float eqn:H31,
           (a4 <? a1)%float eqn:H41, (a3 <? a2)%float eqn:H32,
           (a4 <? a2)%float eqn:H42, (a4 <? a3)%float eqn:H43;
    cbn [negb] in T12, T13, T14, T23, T24, T34;
    rewrite ?T12, ?T13, ?T14, ?T23, ?T24, ?T34;
    cbn; try reflexivity; order_cycle.
Qed.

(** X27.  Two locations that are each other's intersection, neither with
    its [_crossing] set yet, get the same answer from [isCrossing] when the
    four tangent directions at the point are angles no two of which are
    the same; the call writes nothing. *)
Theorem isCrossing_agrees_with_partner h this other l o c1 c3 :
  nth_error h this = Some l ->
  nth_error h other = Some o ->
  _intersection l = Some other ->
  _intersection o = Some this ->
  _crossing l = None ->
  _crossing o = None ->
  getPrevious (_curve l) = Some c1 ->
  getPrevious (_curve o) = Some c3 ->
  four_directions (angle_at_end c1) (angle_at_start (_curve l))
                  (angle_at_end c3) (angle_at_start (_curve o)) ->
  exists crossing,
    isCrossing h this = Ok (crossing, h) /\
    isCrossing h other = Ok (crossing, h).
Proof.
  intros Hl Ho Hil Hio Hcl Hco Hc1 Hc3 Hdir.
  unfold isCrossing. rewrite Hl, Ho. cbn [deref bind].
  rewrite Hcl, Hco, Hil, Hio, Hl, Ho. cbn [deref bind].
  rewrite Hc1, Hc3. eexists. split; [reflexivity|].
  now rewrite (edges_cross_sym _ _ _ _ Hdir).
Qed.

(** X28.  With four tangent directions no two of which are the same, the
    second half of the test of [isCrossing] never decides: the edges cross
    exactly when one of the two directions of the other path, and not the
    other, lies in the range from the first direction to the second. *)
Theorem edges_cross_first_half_decides a1 a2 a3 a4 :
  four_directions a1 a2 a3 a4 ->
  edges_cross a1 a2 a3 a4 = xorb (isInRange a3 a1 a2) (isInRange a4 a1 a2).
Proof.
  intros [[A1 [A2 [A3 A4]]] [E12 [E13 [E14 [E23 [E24 E34]]]]]].
  pose proof (is_angle_number _ A1) as N1.
  pose proof (is_angle_number _ A2) as N2.
  pose proof (is_angle_number _ A3) as N3.
  pose proof (is_angle_number _ A4) as N4.
  destruct A1 as [L1 U1], A2 as [L2 U2], A3 as [L3 U3], A4 as [L4 U4].
  pose proof (ltb_total a1 a2 N1 N2 E12) as T12.
  pose proof (ltb_total a1 a3 N1 N3 E13) as T13.
  pose proof (ltb_total a1 a4 N1 N4 E14) as T14.
  pose proof (ltb_total a2 a3 N2 N3 E23) as T23.
  pose proof (ltb_total a2 a4 N2 N4 E24) as T24.
  unfold edges_cross, isInRange.
  rewrite L3, L4, U3, U4.
  destruct (a2 <? a1)%float eqn:H21, (a3 <? a1)%float eqn:H31,
           (a4 <? a1)%float eqn:H41, (a3 <? a2)%float eqn:H32,
           (a4 <? a2)%float eqn:H42;
    cbn [negb] in T12, T13, T14, T23, T24;
    rewrite ?T12, ?T13, ?T14, ?T23, ?T24;
    cbn; try reflexivity; order_cycle.
Qed.

End IsCrossing.

(** *** Two paths that cross *)

(** The curves 0 and 1 follow each other on one path, 2 and 3 on the other;
    the first path arrives from the direction -2 and leaves in the
    direction 1, the second one arrives from 0 and leaves in 2. *)
Definition previous_curve (c : nat) : option nat :=
  match c with
  | 1 => Some 0
  | 3 => Some 2
  | _ => None
  end.

Definition arriving (c : nat) : float :=
  match c with
  | 0 => (-2)%float
  | _ => 0%float
  end.

Definition leaving (c : nat) : float :=
  match c with
  | 1 => 1%float
  | _ => 2%float
  end.

Definition location_on (curve : nat) (intersection : nat) : t nat unit :=
  mk nat unit 0 0 curve None tt tt 0%float (Point.mk 0 0) None false None
     (Some intersection) false.

Definition crossing_pair : heap nat unit := [location_on 1 1; location_on 3 0].

Lemma sample_directions : four_directions (-2) 1 0 2.
Proof. repeat split; vm_compute; reflexivity. Qed.

(** X27 on the pair. *)
Lemma isCrossing_agrees_with_partner_witness :
  exists crossing,
    isCrossing nat unit previous_curve arriving leaving crossing_pair 0
    = Ok (crossing, crossing_pair) /\
    isCrossing nat unit previous_curve arriving leaving crossing_pair 1
    = Ok (crossing, crossing_pair).
Proof.
  apply (isCrossing_agrees_with_partner nat unit previous_curve arriving
           leaving crossing_pair 0 1 (location_on 1 1) (location_on 3 0)
           0 2); try reflexivity.
  exact sample_directions.
Defined.

(** X28 on the same directions. *)
Lemma edges_cross_first_half_decides_witness :
  edges_cross (-2) 1 0 2
  = xorb (isInRange 0 (-2) 1) (isInRange 2 (-2) 1).
Proof.
  apply (edges_cross_first_half_decides (-2) 1 0 2).
  exact sample_directions.
Defined.

End Crossing.
